(** * Low-memory permutation dealers: a shallow embedding

    The four dealers of [littlebrain_rlcard.dealers] (Bitmap, Fisher-Yates,
    AdaptiveThreshold, Perfect) and the shuffle-guess game that drives them,
    embedded as state-passing functions over Python's unbounded integers
    ([Z]) and lists, together with the properties of the dealer contract. *)

From Stdlib Require Import ZArith Lia QArith Qcanon.
From stdpp Require Import base tactics option numbers list strings pretty gmap
  sorting.

Local Open Scope Z_scope.

(** ** Outcomes of a Python call *)

(** The exceptions the modelled code can raise, one constructor per raise
    site or built-in failure.  [InvalidConfig] is listed by the interface
    description only: no statement of the source raises it. *)
Inductive error : Set :=
| Exhausted          (* RuntimeError, BaseDealer._check_exhausted *)
| FinalExhausted     (* RuntimeError, AdaptiveThresholdDealer._draw_final *)
| Inconsistent       (* RuntimeError, PerfectDealer.draw, total == 0 *)
| BitSelectError     (* ValueError, bit_select *)
| EpisodeOver        (* RuntimeError, ShuffleGuessGame.step *)
| UnknownDealer      (* ValueError, get_dealer *)
| IndexError         (* list or bytearray subscript out of range *)
| ZeroDivisionError  (* division by zero *)
| LowHighError       (* ValueError of randint when low >= high *)
| InvalidConfig.

(** A call returns a value, raises, or is still looping when the iteration
    budget of the model is used up. *)
Inductive outcome (A : Type) : Type :=
| Ret (a : A)
| Raise (e : error)
| OutOfFuel.
Arguments Ret {A} a.
Arguments Raise {A} e.
Arguments OutOfFuel {A}.

#[global] Instance outcome_ret : MRet outcome := @Ret.
#[global] Instance outcome_bind : MBind outcome := λ A B f m,
  match m with
  | Ret a => f a
  | Raise e => Raise e
  | OutOfFuel => OutOfFuel
  end.

Definition returns {A} (m : outcome A) : Prop := ∃ a, m = Ret a.

(** ** Python sequences *)

(** [range(k)] and [range(a, b)]. *)
Definition range (k : Z) : list Z := seqZ 0 k.
Definition range2 (a b : Z) : list Z := seqZ a (b - a).

(** Subscripts: a negative index counts from the end, anything outside
    [-len, len) raises IndexError. *)
Definition norm_index {A} (l : list A) (i : Z) : option nat :=
  if decide (0 ≤ i) then
    if decide (i < Z.of_nat (length l)) then Some (Z.to_nat i) else None
  else
    if decide (- Z.of_nat (length l) ≤ i)
    then Some (Z.to_nat (Z.of_nat (length l) + i)) else None.

Definition getitem {A} (l : list A) (i : Z) : outcome A :=
  match norm_index l i ≫= (l !!.) with
  | Some x => Ret x
  | None => Raise IndexError
  end.

Definition setitem {A} (l : list A) (i : Z) (x : A) : outcome (list A) :=
  match norm_index l i with
  | Some k => Ret (<[k := x]> l)
  | None => Raise IndexError
  end.

(** [for x in xs: acc = body(acc, x)] where the body may raise. *)
Fixpoint for_each {A B} (body : B → A → outcome B) (xs : list A) (acc : B)
  : outcome B :=
  match xs with
  | [] => Ret acc
  | x :: xs' => acc' ← body acc x; for_each body xs' acc'
  end.

(** [l[i]] for an index known to be in range, 0 elsewhere; used to state
    invariants only. *)
Definition at_ (l : list Z) (i : Z) : Z := default 0 (l !! Z.to_nat i).

Definition sumZ (l : list Z) : Z := foldr Z.add 0 l.

(** ** The random source *)

(** [randint s low high] is [np_random.randint(low, high)] in source state
    [s]: the value and the successor state.  numpy guarantees
    [low <= value < high] when [low < high]. *)
Class RandomSource (R : Type) : Type := {
  randint : R → Z → Z → Z * R;
  randint_range : ∀ s lo hi, lo < hi → lo ≤ (randint s lo hi).1 < hi
}.

(** common.uniform_int *)
Definition uniform_int `{RandomSource R} (np_random : R)
    (low_inclusive high_inclusive : Z) : outcome (Z * R) :=
  if decide (low_inclusive < high_inclusive + 1)
  then Ret (randint np_random low_inclusive (high_inclusive + 1))
  else Raise LowHighError.

(** The state of the source after [k] further calls with the same bounds. *)
Definition skip `{RandomSource R} (lo hi : Z) (k : nat) (s : R) : R :=
  Nat.iter k (λ s', (randint s' lo hi).2) s.

(** A source is fair when, asked again and again for a number in the same
    range, it eventually produces every number of that range: the
    deterministic shadow of "uniformly distributed". *)
Class FairSource (R : Type) `{RandomSource R} : Prop :=
  fair : ∀ (s : R) lo hi v, lo ≤ v < hi →
    ∃ k : nat, (randint (skip lo hi k s) lo hi).1 = v.

(** A seedable source for concrete runs: the state is a counter, reduced
    into the requested range. *)
#[global, refine] Instance counter_source : RandomSource Z := {|
  randint c lo hi := (lo + c `mod` (hi - lo), c + 1)
|}.
Proof.
  intros s lo hi Hlt; simpl.
  pose proof (Z.mod_pos_bound s (hi - lo)); lia.
Defined.

(** A source that always answers the low end of the range. *)
#[refine] Instance stuck_source : RandomSource unit := {|
  randint _ lo _ := (lo, tt)
|}.
Proof. intros; simpl; lia. Defined.

(** ** common.py *)

(** BaseDealer._check_exhausted.  The message of the RuntimeError holds
    the decimal digits of num_drawn and n; the model has the error
    without its message, so it stands for the code where CPython can
    format both numbers (fewer than 4300 digits by default). *)
Definition check_exhausted (num_drawn n : Z) : outcome unit :=
  if decide (n ≤ num_drawn) then Raise Exhausted else Ret ().

(** popcount: [int.bit_count] counts the set bits of the absolute value. *)
Fixpoint popcount_pos (p : positive) : Z :=
  match p with
  | xH => 1
  | xO p' => popcount_pos p'
  | xI p' => 1 + popcount_pos p'
  end.
Definition popcount (x : Z) : Z :=
  match x with
  | Z0 => 0
  | Zpos p | Zneg p => popcount_pos p
  end.

(** The loop of bit_select; one unit of fuel per iteration. *)
Fixpoint bit_select_loop (fuel : nat) (mask r count pos : Z) : outcome Z :=
  match fuel with
  | O => OutOfFuel
  | S fuel' =>
    if decide (mask = 0) then Raise BitSelectError
    else if decide (Z.land mask 1 ≠ 0) then
      if decide (count = r) then Ret pos
      else bit_select_loop fuel' (Z.shiftr mask 1) r (count + 1) (pos + 1)
    else bit_select_loop fuel' (Z.shiftr mask 1) r count (pos + 1)
  end.

(** bit_select.  A non-negative mask reaches 0 after [log2 mask + 1]
    shifts, so this budget never runs out for the masks the dealer builds
    (lemma [bit_select_loop_spec]). *)
Definition bit_select (mask r : Z) : outcome Z :=
  bit_select_loop (S (S (Z.to_nat (Z.log2 mask)))) mask r 0 0.

(** ** Probability maps returned by peek_next_distribution *)

(** Probabilities are exact rationals here; the source computes the same
    quotients in double precision. *)
Definition prob_of (k : Z) : Qc := (1 / Qc_of_Z k)%Qc.

(** [sum(dist.values())] *)
Definition dist_total (dist : gmap Z Qc) : Qc :=
  map_fold (λ _ p acc, (p + acc)%Qc) 0%Qc dist.

(** [{key(x): prob for x in xs}], where computing a key may raise. *)
Definition dict_of {A} (key : A → outcome Z) (prob : Qc) (xs : list A)
  : outcome (gmap Z Qc) :=
  for_each (λ dist x, k ← key x; Ret (<[k := prob]> dist)) xs ∅.

(** The map that gives [prob] to each of [keys], on top of [dist]. *)
Definition uniform_over (prob : Qc) (keys : list Z) (dist : gmap Z Qc)
  : gmap Z Qc :=
  foldl (λ m k, <[k := prob]> m) dist keys.

(** A distribution that gives each of its [k] keys the probability 1/k. *)
Definition uniform_dist (dist : gmap Z Qc) : Prop :=
  ∃ k : Z, 0 < k ∧ Z.of_nat (size dist) = k ∧
           map_Forall (λ _ p, p = prob_of k) dist.

(** ** bitmap.py *)

Module Bitmap.
Section defs.
Context `{RandomSource R}.

Record state : Type := State {
    n : Z;
    np_random : R;
    num_drawn : Z;
    available : list Z   (* bytearray: one byte, 0 or 1, per id *)
  }.

(** [b"\x01" * n] is empty for n <= 0; CPython refuses the repetition
    when n does not fit a machine word (below -2^63), which the model
    does not represent. *)
Definition reset (n : Z) (np_random : R) : state :=
    State n np_random 0 (replicate (Z.to_nat n) 1).

(** The [while True] loop of draw; [rng] is the source state reached so
    far, the other fields are untouched until a candidate is accepted. *)
Fixpoint draw_loop (fuel : nat) (st : state) (rng : R)
    : outcome (Z * state) :=
    match fuel with
    | O => OutOfFuel
    | S fuel' =>
      '(c, rng') ← uniform_int rng 0 (n st - 1);
      a ← getitem (available st) c;
      if decide (a ≠ 0) then
        av ← setitem (available st) c 0;
        Ret (c, State (n st) rng' (num_drawn st + 1) av)
      else draw_loop fuel' st rng'
    end.

Definition draw (fuel : nat) (st : state) : outcome (Z * state) :=
    _ ← check_exhausted (num_drawn st) (n st);
    draw_loop fuel st (np_random st).

Definition remaining (st : state) : Z := n st - num_drawn st.

Definition peek_next_distribution (st : state)
    : outcome (option (gmap Z Qc)) :=
    let rem := remaining st in
    if decide (rem = 0) then Ret None
    else
      let prob := prob_of rem in
      dist ← for_each (λ dist i,
                a ← getitem (available st) i;
                Ret (if decide (a ≠ 0) then <[i := prob]> dist else dist))
              (range (n st)) ∅;
      Ret (Some dist).

(** The ids still to be dealt. *)
Definition live (st : state) : list Z :=
    filter (λ i, default 0 (available st !! Z.to_nat i) ≠ 0)
           (range (Z.of_nat (length (available st)))).

(** Well-formed states: one byte per id. *)
Definition wf (st : state) : Prop :=
  length (available st) = Z.to_nat (n st).
End defs.
Arguments state R : clear implicits.
End Bitmap.

(** ** fisher_yates.py *)

Module FisherYates.
Section defs.
Context `{RandomSource R}.

Record state : Type := State {
    n : Z;
    np_random : R;
    num_drawn : Z;
    array : list Z;
    remaining_ : Z     (* the field [_remaining] *)
  }.

Definition reset (n : Z) (np_random : R) : state :=
    State n np_random 0 (range n) n.

Definition draw (st : state) : outcome (Z * state) :=
    _ ← check_exhausted (num_drawn st) (n st);
    '(i, rng) ← uniform_int (np_random st) 0 (remaining_ st - 1);
    out ← getitem (array st) i;
    last ← getitem (array st) (remaining_ st - 1);
    arr ← setitem (array st) i last;
    Ret (out, State (n st) rng (num_drawn st + 1) arr (remaining_ st - 1)).

Definition remaining (st : state) : Z := remaining_ st.

Definition peek_next_distribution (st : state)
    : outcome (option (gmap Z Qc)) :=
    let rem := remaining st in
    if decide (rem = 0) then Ret None
    else
      dist ← dict_of (getitem (array st)) (prob_of rem) (range rem);
      Ret (Some dist).

Definition live (st : state) : list Z :=
    take (Z.to_nat (remaining_ st)) (array st).

(** Well-formed states: the live prefix has [n - num_drawn] entries. *)
Record wf (st : state) : Prop := {
  wf_rem : remaining_ st = n st - num_drawn st;
  wf_rem_nonneg : 0 ≤ remaining_ st;
  wf_len : remaining_ st ≤ Z.of_nat (length (array st))
}.
End defs.
Arguments state R : clear implicits.
End FisherYates.

(** ** adaptive_threshold.py *)

(** [math.ceil(a / b)], computed exactly.  The source takes the ceiling of
    a double-precision quotient, which agrees for operands below 2^53. *)
Definition ceil_div (a b : Z) : Z := - ((- a) / b).

Module Adaptive.
Inductive phase_t : Set := PhaseAdaptive | PhaseFinal.

#[global] Instance phase_eq_dec : EqDecision phase_t.
Proof. solve_decision. Defined.

(** Closed forms of what the partition loop of reset computes: the size
    and the first id of mini-deck [i], for base size [q] and [extra]
    larger decks. *)
Definition size_of (q extra i : Z) : Z :=
  q + (if decide (i < extra) then 1 else 0).
Definition start_of (q extra i : Z) : Z := i * q + Z.min i extra.

Section defs.
Context `{RandomSource R}.

Record state : Type := State {
    n : Z;
    np_random : R;
    num_drawn : Z;
    d : Z;
    sizes : list Z;
    starts : list Z;
    ell : list Z;
    t : Z;
    phase : phase_t;
    final_cards : list Z;
    final_remaining : Z;
    m_bits : Z
  }.

(** The partition loop of reset: sizes, starts and the running offset. *)
Definition partition (d base_size extra : Z) : list Z * list Z * Z :=
    fold_left (λ '(sizes, starts, offset) i,
                 let sz := base_size + (if decide (i < extra) then 1 else 0) in
                 (sizes ++ [sz], starts ++ [offset], offset + sz))
              (range d) ([], [], 0).

Definition choose_d (n m_bits : Z) : Z :=
    let d := Z.max 1 (m_bits / 8) in
    if decide (d > n / 2) then Z.max 1 (n / 2) else d.

(** reset; the [encoding] option only changes state_summary and is left
    out of the state. *)
Definition reset (n : Z) (np_random : R) (m_bits : Z) : state :=
    let d := choose_d n m_bits in
    let base_size := n / d in
    let extra := n `mod` d in
    let '(sizes, starts, _) := partition d base_size extra in
    State n np_random 0 d sizes starts (replicate (Z.to_nat d) 0)
          0 PhaseAdaptive [] 0 m_bits.

Definition remaining (st : state) : Z := n st - num_drawn st.

Definition current_threshold (st : state) : outcome Z :=
    if decide (t st = 0) then Ret 1
    else if decide (d st = 0) then Raise ZeroDivisionError
    else Ret (ceil_div (t st) (d st) + 1).

Definition top_card (st : state) (i : Z) : outcome Z :=
    s ← getitem (starts st) i;
    e ← getitem (ell st) i;
    Ret (s + e).

(** [self._ell[i] < threshold and self._ell[i] < self._sizes[i]] *)
Definition drawable (st : state) (threshold i : Z) : outcome bool :=
    e ← getitem (ell st) i;
    if decide (e < threshold) then
      e' ← getitem (ell st) i;
      s ← getitem (sizes st) i;
      Ret (bool_decide (e' < s))
    else Ret false.

Definition get_drawable_indices (st : state) : outcome (list Z) :=
    threshold ← current_threshold st;
    for_each (λ acc i, b ← drawable st threshold i;
                       Ret (if b : bool then acc ++ [i] else acc))
             (range (d st)) [].

Definition transition_to_final (st : state) : outcome state :=
    cards ← for_each (λ acc i,
                s ← getitem (starts st) i;
                e ← getitem (ell st) i;
                s' ← getitem (starts st) i;
                z ← getitem (sizes st) i;
                Ret (acc ++ range2 (s + e) (s' + z)))
             (range (d st)) [];
    Ret (State (n st) (np_random st) (num_drawn st) (d st) (sizes st)
               (starts st) (ell st) (t st) PhaseFinal cards
               (Z.of_nat (length cards)) (m_bits st)).

Definition draw_final (st : state) : outcome (Z * state) :=
    if decide (final_remaining st = 0) then Raise FinalExhausted
    else
      '(i, rng) ← uniform_int (np_random st) 0 (final_remaining st - 1);
      out ← getitem (final_cards st) i;
      last ← getitem (final_cards st) (final_remaining st - 1);
      cards ← setitem (final_cards st) i last;
      Ret (out, State (n st) rng (num_drawn st + 1) (d st) (sizes st)
                      (starts st) (ell st) (t st) (phase st) cards
                      (final_remaining st - 1) (m_bits st)).

(** The rejection loop of _draw_adaptive. *)
Fixpoint adaptive_loop (fuel : nat) (st : state) (threshold : Z) (rng : R)
    : outcome (Z * state) :=
    match fuel with
    | O => OutOfFuel
    | S fuel' =>
      '(i, rng') ← uniform_int rng 0 (d st - 1);
      ok ← drawable st threshold i;
      if ok : bool then
        card ← top_card st i;
        e ← getitem (ell st) i;
        ell' ← setitem (ell st) i (e + 1);
        Ret (card, State (n st) rng' (num_drawn st + 1) (d st) (sizes st)
                         (starts st) ell' (t st) (phase st) (final_cards st)
                         (final_remaining st) (m_bits st))
      else adaptive_loop fuel' st threshold rng'
    end.

(** The state once [self._t += 1] has run. *)
Definition tick (st : state) : state :=
    State (n st) (np_random st) (num_drawn st) (d st) (sizes st) (starts st)
          (ell st) (t st + 1) (phase st) (final_cards st)
          (final_remaining st) (m_bits st).

Definition draw_adaptive (fuel : nat) (st : state) : outcome (Z * state) :=
    let st := tick st in
    let n_adaptive := n st - 2 * d st in
    if decide (t st > n_adaptive) then
      st' ← transition_to_final st;
      draw_final st'
    else
      threshold ← current_threshold st;
      adaptive_loop fuel st threshold (np_random st).

Definition draw (fuel : nat) (st : state) : outcome (Z * state) :=
    _ ← check_exhausted (num_drawn st) (n st);
    if decide (phase st = PhaseAdaptive) then draw_adaptive fuel st
    else draw_final st.

Definition peek_next_distribution (st : state)
    : outcome (option (gmap Z Qc)) :=
    if decide (remaining st = 0) then Ret None
    else if decide (phase st = PhaseFinal) then
      let rem := final_remaining st in
      if decide (rem = 0) then Ret None
      else
        dist ← dict_of (getitem (final_cards st)) (prob_of rem) (range rem);
        Ret (Some dist)
    else
      drawable ← get_drawable_indices st;
      if decide (drawable = []) then Ret None
      else
        dist ← dict_of (top_card st)
                       (prob_of (Z.of_nat (length drawable))) drawable;
        Ret (Some dist).

(** The ids mini-deck [i] still holds, top first. *)
Definition slice (st : state) (i : Z) : list Z :=
  range2 (at_ (starts st) i + at_ (ell st) i)
         (at_ (starts st) i + at_ (sizes st) i).

(** The ids still to be dealt. *)
Definition live (st : state) : list Z :=
  match phase st with
  | PhaseAdaptive => concat (slice st <$> range (d st))
  | PhaseFinal => take (Z.to_nat (final_remaining st)) (final_cards st)
  end.

(** Well-formed states. *)
Record wf (st : state) : Prop := {
  wf_d : 1 ≤ d st;
  wf_d_half : d st ≤ Z.max 1 (n st / 2);
  wf_sizes_len : length (sizes st) = Z.to_nat (d st);
  wf_starts_len : length (starts st) = Z.to_nat (d st);
  wf_ell_len : length (ell st) = Z.to_nat (d st);
  wf_ell : ∀ i, 0 ≤ i < d st → 0 ≤ at_ (ell st) i ≤ at_ (sizes st) i;
  wf_sizes : ∀ i, 0 ≤ i < d st → n st / d st ≤ at_ (sizes st) i;
  wf_adaptive : phase st = PhaseAdaptive →
    t st = num_drawn st ∧ sumZ (ell st) = num_drawn st ∧
    (t st = 0 ∨ t st ≤ n st - 2 * d st);
  wf_final : phase st = PhaseFinal →
    0 ≤ final_remaining st ≤ Z.of_nat (length (final_cards st)) ∧
    final_remaining st = n st - num_drawn st
}.

(** The mini-decks the rejection loop accepts under [threshold]. *)
Definition drawable_set (st : state) (threshold : Z) : list Z :=
  filter (λ i, at_ (ell st) i < threshold ∧ at_ (ell st) i < at_ (sizes st) i)
         (range (d st)).

(** The schedule of the algorithm: no mini-deck has dealt more cards than
    the threshold [ceil(t/d) + 1] allows, and the final phase is entered
    by the first draw that finds fewer than [2 d + 1] cards left. *)
Record on_schedule (st : state) : Prop := {
  sched_ell : ∀ i, 0 ≤ i < d st → at_ (ell st) i ≤ ceil_div (t st) (d st) + 1;
  sched_final : phase st = PhaseFinal →
    1 ≤ num_drawn st ∧ n st - 2 * d st < num_drawn st
}.
End defs.
Arguments state R : clear implicits.
End Adaptive.

(** ** perfect.py *)

Module Perfect.

(** The dataclass _Cell. *)
Record Cell : Set := MkCell {
  index : Z;   (* cell index j *)
  mask : Z;    (* w-bit availability mask *)
  base : Z     (* first element id = j * w *)
}.

Definition pop (c : Cell) : Z := popcount (mask c).

(** [cells.sort(key=lambda c: c.pop)]: Python's sort is stable, so the
    result is the one of any stable sort; insertion from the right puts a
    cell in front of the first cell whose population is not smaller. *)
Fixpoint insert_by_pop (c : Cell) (l : list Cell) : list Cell :=
  match l with
  | [] => [c]
  | c' :: l' =>
    if decide (pop c ≤ pop c') then c :: l else c' :: insert_by_pop c l'
  end.
Definition sort_by_pop (l : list Cell) : list Cell :=
  foldr insert_by_pop [] l.

(** The cell list built by reset, before sorting.  Every [valid] is at
    least 1 for the cells that exist, so the shift count is never
    negative. *)
Definition build_cells (n w num_cells : Z) : list Cell :=
  (λ j, let base := j * w in
        let valid := Z.min w (n - base) in
        MkCell j (Z.shiftl 1 valid - 1) base) <$> range num_cells.

(** [pop_counts[p] = pop_counts.get(p, 0) + 1] over all cells. *)
Definition count_pops (cells : list Cell) : gmap Z Z :=
  fold_left (λ pop_counts c,
               let p := pop c in
               <[p := default 0 (pop_counts !! p) + 1]> pop_counts)
            cells ∅.

(** The number of cells of population [p], and of population below [p]. *)
Definition pop_count (p : Z) (cells : list Cell) : Z :=
  Z.of_nat (length (filter (λ c, pop c = p) cells)).
Definition pop_below (p : Z) (cells : list Cell) : Z :=
  Z.of_nat (length (filter (λ c, pop c < p) cells)).

(** The interval tables: begin, size and the running offset. *)
Definition assign_intervals (w : Z) (pop_counts : gmap Z Z)
  : outcome (list Z * list Z * Z) :=
  for_each (λ '(ibegin, isize, offset) p,
              let cnt := default 0 (pop_counts !! p) in
              ibegin' ← setitem ibegin p offset;
              isize' ← setitem isize p cnt;
              Ret (ibegin', isize', offset + cnt))
           (range (w + 1))
           (replicate (Z.to_nat (w + 1)) 0, replicate (Z.to_nat (w + 1)) 0, 0).

(** The inner [while mask] loop of peek_next_distribution. *)
Fixpoint peek_cell_loop (fuel : nat) (mask pos cell_base : Z) (prob : Qc)
    (dist : gmap Z Qc) : outcome (gmap Z Qc) :=
  match fuel with
  | O => OutOfFuel
  | S fuel' =>
    if decide (mask = 0) then Ret dist
    else
      let dist' := if decide (Z.land mask 1 ≠ 0)
                   then <[cell_base + pos := prob]> dist else dist in
      peek_cell_loop fuel' (Z.shiftr mask 1) (pos + 1) cell_base prob dist'
  end.

(** The positions of the set bits of a mask, lowest first. *)
Fixpoint bits_pos (p : positive) (pos : Z) : list Z :=
  match p with
  | xH => [pos]
  | xO p' => bits_pos p' (pos + 1)
  | xI p' => pos :: bits_pos p' (pos + 1)
  end.
Definition bits (m : Z) : list Z :=
  match m with
  | Zpos p => bits_pos p 0
  | _ => []
  end.

(** The ids a cell still holds. *)
Definition cell_ids (c : Cell) : list Z := Z.add (base c) <$> bits (mask c).

Definition peek_cell (prob : Qc) (dist : gmap Z Qc) (c : Cell)
  : outcome (gmap Z Qc) :=
  peek_cell_loop (S (S (Z.to_nat (Z.log2 (mask c))))) (mask c) 0 (base c)
                 prob dist.

Section defs.
Context `{RandomSource R}.

Record state : Type := State {
  n : Z;
  np_random : R;
  num_drawn : Z;
  w : Z;
  num_cells : Z;
  cells : list Cell;
  interval_begin : list Z;
  interval_size : list Z
}.

(** [w = max(1, ceil(log2(max(n, 2))))], with the logarithm taken
    exactly.  In reset the quotient of [ceil(n / w)] is taken exactly
    too: the float division of the code is exact for |n| <= 2^53 and
    raises OverflowError from |n| >= 2^1024 on, which the model does
    not represent. *)
Definition cell_width (n : Z) : Z := Z.max 1 (Z.log2_up (Z.max n 2)).

Definition reset (n : Z) (np_random : R) : outcome state :=
  let w := cell_width n in
  let num_cells := ceil_div n w in
  let cells := sort_by_pop (build_cells n w num_cells) in
  '(ibegin, isize, _) ← assign_intervals w (count_pops cells);
  Ret (State n np_random 0 w num_cells cells ibegin isize).

Definition remaining (st : state) : Z := n st - num_drawn st.

(** [total = sum(p * interval_size[p] for p in 1..w)] *)
Definition total_weight (st : state) : outcome Z :=
  for_each (λ total p, s ← getitem (interval_size st) p; Ret (total + p * s))
           (range2 1 (w st + 1)) 0.

(** The prefix-sum scan with its [break]; [chosen_pop] stays 0 when the
    scan runs off the end. *)
Fixpoint scan_population (isize : list Z) (r cumul : Z) (ps : list Z)
  : outcome Z :=
  match ps with
  | [] => Ret 0
  | p :: ps' =>
    s ← getitem isize p;
    let cumul' := cumul + p * s in
    if decide (r < cumul') then Ret p
    else scan_population isize r cumul' ps'
  end.

(** Step 1 of draw: population sampling. *)
Definition sample_population (st : state) : outcome (Z * R) :=
  total ← total_weight st;
  if decide (total = 0) then Raise Inconsistent
  else
    '(r, rng) ← uniform_int (np_random st) 0 (total - 1);
    chosen_pop ← scan_population (interval_size st) r 0
                                 (range2 1 (w st + 1));
    Ret (chosen_pop, rng).

(** Step 2 of draw: cell sampling. *)
Definition sample_cell (st : state) (chosen_pop : Z) (rng : R)
  : outcome (Z * Cell * R) :=
  isize ← getitem (interval_size st) chosen_pop;
  '(loc, rng') ← uniform_int rng 0 (isize - 1);
  b ← getitem (interval_begin st) chosen_pop;
  let cell_idx := b + loc in
  cell ← getitem (cells st) cell_idx;
  Ret (cell_idx, cell, rng').

(** Step 3 of draw: the rank of the set bit to take. *)
Definition sample_bit (chosen_pop : Z) (rng : R) : outcome (Z * R) :=
  uniform_int rng 0 (chosen_pop - 1).

(** [cell.mask &= ~(1 << bit_pos)] *)
Definition clear_bit (c : Cell) (bit_pos : Z) : Cell :=
  MkCell (index c) (Z.land (mask c) (Z.lnot (Z.shiftl 1 bit_pos))) (base c).

(** _decrement_cell_population, on the three tables it touches. *)
Definition decrement_cell_population (cells : list Cell)
    (ibegin isize : list Z) (cell_idx old_pop : Z)
  : outcome (list Cell * list Z * list Z) :=
  let new_pop := old_pop - 1 in
  first_in_interval ← getitem ibegin old_pop;
  cells' ← (if decide (cell_idx ≠ first_in_interval) then
              a ← getitem cells first_in_interval;
              b ← getitem cells cell_idx;
              cells1 ← setitem cells cell_idx a;
              setitem cells1 first_in_interval b
            else Ret cells);
  x ← getitem ibegin old_pop;
  ibegin' ← setitem ibegin old_pop (x + 1);
  y ← getitem isize old_pop;
  isize1 ← setitem isize old_pop (y - 1);
  z ← getitem isize1 new_pop;
  isize' ← setitem isize1 new_pop (z + 1);
  Ret (cells', ibegin', isize').

Definition draw (st : state) : outcome (Z * state) :=
  _ ← check_exhausted (num_drawn st) (n st);
  '(chosen_pop, rng1) ← sample_population st;
  '(cell_idx, cell, rng2) ← sample_cell st chosen_pop rng1;
  '(bit_r, rng3) ← sample_bit chosen_pop rng2;
  bit_pos ← bit_select (mask cell) bit_r;
  let element_id := base cell + bit_pos in
  cells1 ← setitem (cells st) cell_idx (clear_bit cell bit_pos);
  '(cells', ibegin', isize') ←
    decrement_cell_population cells1 (interval_begin st) (interval_size st)
                              cell_idx chosen_pop;
  Ret (element_id,
       State (n st) rng3 (num_drawn st + 1) (w st) (num_cells st)
             cells' ibegin' isize').

Definition peek_next_distribution (st : state)
  : outcome (option (gmap Z Qc)) :=
  let rem := remaining st in
  if decide (rem = 0) then Ret None
  else
    dist ← for_each (peek_cell (prob_of rem)) (cells st) ∅;
    Ret (Some dist).

(** The ids still to be dealt. *)
Definition live (st : state) : list Z := concat (cell_ids <$> cells st).

(** [sum(p * interval_size[p] for p in 1..w)] as a number. *)
Definition weighted_sizes (isize : list Z) (w : Z) : Z :=
  sumZ ((λ p, p * at_ isize p) <$> range2 1 (w + 1)).

(** [sum(c.pop for c in cells)] *)
Definition total_pop (cells : list Cell) : Z := sumZ (pop <$> cells).

(** Well-formed states: the cells are laid out in adjacent intervals by
    population, and the interval sizes weigh [n - num_drawn]. *)
Record wf (st : state) : Prop := {
  wf_w : 1 ≤ w st;
  wf_begin_len : length (interval_begin st) = Z.to_nat (w st + 1);
  wf_size_len : length (interval_size st) = Z.to_nat (w st + 1);
  wf_begin0 : 0 ≤ at_ (interval_begin st) 0;
  wf_adjacent : ∀ p, 1 ≤ p ≤ w st →
    at_ (interval_begin st) p
    = at_ (interval_begin st) (p - 1) + at_ (interval_size st) (p - 1);
  wf_size_nonneg : ∀ p, 0 ≤ p ≤ w st → 0 ≤ at_ (interval_size st) p;
  wf_layout : ∀ p idx, 0 ≤ p ≤ w st →
    at_ (interval_begin st) p ≤ idx
      < at_ (interval_begin st) p + at_ (interval_size st) p →
    ∃ c, cells st !! Z.to_nat idx = Some c ∧ pop c = p;
  wf_masks : Forall (λ c, 0 ≤ mask c) (cells st);
  wf_weight : weighted_sizes (interval_size st) (w st) = n st - num_drawn st
}.
End defs.
Arguments state R : clear implicits.
End Perfect.

(** ** dealers/__init__.py: the registry and the common interface *)

Inductive dealer_class : Set :=
| BitmapClass | FisherYatesClass | AdaptiveClass | PerfectClass.

(** get_dealer: DEALER_REGISTRY lookup. *)
Definition get_dealer (name : string) : outcome dealer_class :=
  if decide (name = "bitmap") then Ret BitmapClass
  else if decide (name = "fisher_yates") then Ret FisherYatesClass
  else if decide (name = "adaptive") then Ret AdaptiveClass
  else if decide (name = "perfect") then Ret PerfectClass
  else Raise UnknownDealer.

(** A dealer object after reset: dynamic dispatch over BaseDealer becomes a
    tagged union of the four private states. *)
Inductive dealer (R : Type) : Type :=
| BitmapDealer (st : Bitmap.state R)
| FisherYatesDealer (st : FisherYates.state R)
| AdaptiveThresholdDealer (st : Adaptive.state R)
| PerfectDealer (st : Perfect.state R).
Arguments BitmapDealer {R} st.
Arguments FisherYatesDealer {R} st.
Arguments AdaptiveThresholdDealer {R} st.
Arguments PerfectDealer {R} st.

Section interface.
Context `{RandomSource R}.

(** [cls().reset(n, np_random, m_bits=m_bits)]; only the adaptive dealer
    reads [m_bits] (its default is 64). *)
Definition reset (cls : dealer_class) (n : Z) (np_random : R) (m_bits : Z)
  : outcome (dealer R) :=
  match cls with
  | BitmapClass => Ret (BitmapDealer (Bitmap.reset n np_random))
  | FisherYatesClass => Ret (FisherYatesDealer (FisherYates.reset n np_random))
  | AdaptiveClass =>
      Ret (AdaptiveThresholdDealer (Adaptive.reset n np_random m_bits))
  | PerfectClass => st ← Perfect.reset n np_random; Ret (PerfectDealer st)
  end.

(** draw; [fuel] bounds the iterations of each rejection loop. *)
Definition draw (fuel : nat) (dl : dealer R) : outcome (Z * dealer R) :=
  match dl with
  | BitmapDealer st =>
      '(c, st') ← Bitmap.draw fuel st; Ret (c, BitmapDealer st')
  | FisherYatesDealer st =>
      '(c, st') ← FisherYates.draw st; Ret (c, FisherYatesDealer st')
  | AdaptiveThresholdDealer st =>
      '(c, st') ← Adaptive.draw fuel st; Ret (c, AdaptiveThresholdDealer st')
  | PerfectDealer st =>
      '(c, st') ← Perfect.draw st; Ret (c, PerfectDealer st')
  end.

Definition remaining (dl : dealer R) : Z :=
  match dl with
  | BitmapDealer st => Bitmap.remaining st
  | FisherYatesDealer st => FisherYates.remaining st
  | AdaptiveThresholdDealer st => Adaptive.remaining st
  | PerfectDealer st => Perfect.remaining st
  end.

Definition peek_next_distribution (dl : dealer R)
  : outcome (option (gmap Z Qc)) :=
  match dl with
  | BitmapDealer st => Bitmap.peek_next_distribution st
  | FisherYatesDealer st => FisherYates.peek_next_distribution st
  | AdaptiveThresholdDealer st => Adaptive.peek_next_distribution st
  | PerfectDealer st => Perfect.peek_next_distribution st
  end.

(** The BaseDealer fields [_n] and [_num_drawn]. *)
Definition dealer_n (dl : dealer R) : Z :=
  match dl with
  | BitmapDealer st => Bitmap.n st
  | FisherYatesDealer st => FisherYates.n st
  | AdaptiveThresholdDealer st => Adaptive.n st
  | PerfectDealer st => Perfect.n st
  end.

Definition dealer_num_drawn (dl : dealer R) : Z :=
  match dl with
  | BitmapDealer st => Bitmap.num_drawn st
  | FisherYatesDealer st => FisherYates.num_drawn st
  | AdaptiveThresholdDealer st => Adaptive.num_drawn st
  | PerfectDealer st => Perfect.num_drawn st
  end.

Definition class_of (dl : dealer R) : dealer_class :=
  match dl with
  | BitmapDealer _ => BitmapClass
  | FisherYatesDealer _ => FisherYatesClass
  | AdaptiveThresholdDealer _ => AdaptiveClass
  | PerfectDealer _ => PerfectClass
  end.

(** [[dealer.draw() for _ in range(k)]]: the ids in the order drawn, and
    the dealer afterwards. *)
Fixpoint draw_many (k : nat) (fuel : nat) (dl : dealer R)
  : outcome (list Z * dealer R) :=
  match k with
  | O => Ret ([], dl)
  | S k' =>
    '(c, dl1) ← draw fuel dl;
    '(cs, dl2) ← draw_many k' fuel dl1;
    Ret (c :: cs, dl2)
  end.

(** The ids still to be dealt, and the well-formed states, per class. *)
Definition live (dl : dealer R) : list Z :=
  match dl with
  | BitmapDealer st => Bitmap.live st
  | FisherYatesDealer st => FisherYates.live st
  | AdaptiveThresholdDealer st => Adaptive.live st
  | PerfectDealer st => Perfect.live st
  end.

Definition wf (dl : dealer R) : Prop :=
  match dl with
  | BitmapDealer st => Bitmap.wf st
  | FisherYatesDealer st => FisherYates.wf st
  | AdaptiveThresholdDealer st => Adaptive.wf st
  | PerfectDealer st => Perfect.wf st
  end.

(** The invariant of the dealer contract: the ids still to be dealt are
    distinct and there are [n - num_drawn] of them. *)
Record dealer_inv (dl : dealer R) : Prop := {
  inv_wf : wf dl;
  inv_nodup : NoDup (live dl);
  inv_count : Z.of_nat (length (live dl)) = dealer_n dl - dealer_num_drawn dl
}.

(** The states a dealer can be in between calls: those produced by reset
    and by draws that returned. *)
Inductive reachable (cls : dealer_class) (n m_bits : Z) : dealer R → Prop :=
| reachable_reset rng dl :
    reset cls n rng m_bits = Ret dl → reachable cls n m_bits dl
| reachable_draw fuel dl c dl' :
    reachable cls n m_bits dl → draw fuel dl = Ret (c, dl') →
    reachable cls n m_bits dl'.
End interface.

(** ** cards.py *)

Definition NUM_TYPES : Z := 52.
Definition deck_index (card_id : Z) : Z := card_id / NUM_TYPES.
Definition type_id (card_id : Z) : Z := card_id `mod` NUM_TYPES.

Definition SUITS : list string := ["S"; "H"; "D"; "C"].
Definition RANKS : list string :=
  ["A"; "2"; "3"; "4"; "5"; "6"; "7"; "8"; "9"; "T"; "J"; "Q"; "K"].

Definition suit_of (type_id_val : Z) : outcome string :=
  getitem SUITS (type_id_val / 13).

Definition rank_of (type_id_val : Z) : outcome string :=
  getitem RANKS (type_id_val `mod` 13).

(** cards.pretty, under another name because [pretty] is the numeral
    printer of stdpp, which gives the decimal digits of [di] here.  The
    printer has no limit on the number of digits; CPython has one (4300
    by default), far above the deck index of a 64-bit card id. *)
Definition pretty_card (card_id : Z) : outcome string :=
  let tid := type_id card_id in
  let di := deck_index card_id in
  r ← rank_of tid;
  s ← suit_of tid;
  Ret (r +:+ s +:+ "(d" +:+ pretty di +:+ ")").

(** ** envs/shuffle_guess/game.py *)

(** Arithmetic of a numpy int32 cell: wrap-around into [-2^31, 2^31). *)
Definition int32 (x : Z) : Z := (x + 2 ^ 31) `mod` 2 ^ 32 - 2 ^ 31.

Module ShuffleGuessGame.
Section defs.
Context `{RandomSource R}.

Record game : Type := Game {
  n : Z;
  num_decks : Z;
  action_mode : string;
  dealer_name : string;
  m_bits : Z;
  the_dealer : dealer R;
  t : Z;
  counts : list Z;             (* np.zeros(NUM_TYPES, dtype=np.int32) *)
  score : Z;
  drawn_ids : list Z;
  last_drawn_id : option Z;
  done : bool
}.

(** configure followed by init_game, with the game's generator
    [np_random]; the optional [dealer_params] dictionary is taken to be
    empty, so the dealer is reset with [m_bits] alone. *)
Definition init_game (n_cards num_decks : Z) (action_mode dealer : string)
    (m_bits : Z) (np_random : R) : outcome game :=
  cls ← get_dealer dealer;
  dl ← reset cls n_cards np_random m_bits;
  Ret (Game n_cards num_decks action_mode dealer m_bits dl 0
            (replicate (Z.to_nat NUM_TYPES) 0) 0 [] None false).

Definition step (fuel : nat) (g : game) (action : Z) : outcome game :=
  if done g then Raise EpisodeOver
  else
    '(drawn_id, dl) ← draw fuel (the_dealer g);
    let drawn_type := drawn_id `mod` NUM_TYPES in
    let score' := if decide (action = drawn_type)
                  then score g + 1 else score g in
    c ← getitem (counts g) drawn_type;
    counts' ← setitem (counts g) drawn_type (int32 (c + 1));
    let t' := t g + 1 in
    let done' := if decide (n g ≤ t') then true else done g in
    Ret (Game (n g) (num_decks g) (action_mode g) (dealer_name g) (m_bits g)
              dl t' counts' score' (drawn_ids g ++ [drawn_id])
              (Some drawn_id) done').

Definition get_num_actions (g : game) : Z :=
  if decide (action_mode g = "type") then NUM_TYPES else n g.

Definition get_legal_actions (g : game) : list Z :=
  if decide (action_mode g = "type") then range NUM_TYPES else range (n g).

Definition is_over (g : game) : bool := done g.

Definition get_payoffs (g : game) : list Z := [score g].

(** The games an episode passes through: the one init_game builds, and
    those left by the steps that returned. *)
Inductive reachable (n_cards num_decks : Z) (action_mode dealer : string)
    (m_bits : Z) : game → Prop :=
| reachable_init rng g :
    init_game n_cards num_decks action_mode dealer m_bits rng = Ret g →
    reachable n_cards num_decks action_mode dealer m_bits g
| reachable_step fuel g action g' :
    reachable n_cards num_decks action_mode dealer m_bits g →
    step fuel g action = Ret g' →
    reachable n_cards num_decks action_mode dealer m_bits g'.

(** How many of [ids] have card type [k]. *)
Definition count_type (k : Z) (ids : list Z) : Z :=
  Z.of_nat (length (filter (λ c, type_id c = k) ids)).
End defs.
Arguments game R : clear implicits.
End ShuffleGuessGame.

(** ** envs/holdem_dealerlab/dealer.py *)

(** [l.pop()]: the last element and the list without it; IndexError on an
    empty list. *)
Definition list_pop {A} (l : list A) : outcome (A * list A) :=
  match last l with
  | Some x => Ret (x, take (pred (length l)) l)
  | None => Raise IndexError
  end.

Module DealerSwapDealer.
Section defs.
Context `{RandomSource R} {Card : Type}.

(** [init_standard_deck()] of RLCard is outside this repository: the deck
    it returns is a variable of the model. *)
Variable base_deck : list Card.

Record state : Type := State {
  algo : dealer R;
  deck : list Card;
  pot : Z
}.

(** [[base_deck[i] for i in ids]] *)
Definition pick (ids : list Z) : outcome (list Card) :=
  for_each (λ acc i, x ← getitem base_deck i; Ret (acc ++ [x])) ids [].

(** shuffle, for the algorithm class [cls] that [_algo] is an instance of;
    of [_dealer_params] only [m_bits] is read by a dealer. *)
Definition shuffle (fuel : nat) (cls : dealer_class) (np_random : R)
    (m_bits : Z) (pot : Z) : outcome state :=
  let n := Z.of_nat (length base_deck) in
  dl ← reset cls n np_random m_bits;
  '(perm, dl') ← draw_many (Z.to_nat n) fuel dl;
  deck ← pick (reverse perm);
  Ret (State dl' deck pot).

(** __init__ *)
Definition init (fuel : nat) (np_random : R) (dealer_name : string)
    (m_bits : Z) : outcome state :=
  cls ← get_dealer dealer_name;
  shuffle fuel cls np_random m_bits 0.

Definition deal_card (st : state) : outcome (Card * state) :=
  '(c, deck') ← list_pop (deck st);
  Ret (c, State (algo st) deck' (pot st)).

(** deal_cards, on the player's hand. *)
Definition deal_cards (st : state) (hand : list Card) (num : Z)
  : outcome (list Card * state) :=
  for_each (λ '(hand, st) _,
              '(c, deck') ← list_pop (deck st);
              Ret (hand ++ [c], State (algo st) deck' (pot st)))
           (range num) (hand, st).
End defs.
Arguments state R Card : clear implicits.
End DealerSwapDealer.

(** * Properties *)

(** ** Outcomes and sequences *)

Lemma bind_Ret_inv {A B} (m : outcome A) (f : A → outcome B) (b : B) :
  m ≫= f = Ret b → ∃ a, m = Ret a ∧ f a = Ret b.
Proof. destruct m as [a| |]; simpl; [eauto|done..]. Qed.

Lemma bind_Ret_l {A B} (a : A) (f : A → outcome B) : Ret a ≫= f = f a.
Proof. done. Qed.

Lemma norm_index_nonneg {A} (l : list A) (i : Z) :
  0 ≤ i < Z.of_nat (length l) → norm_index l i = Some (Z.to_nat i).
Proof. intros. unfold norm_index. repeat case_decide; (done || lia). Qed.

Lemma getitem_lookup {A} (l : list A) (i : Z) (x : A) :
  0 ≤ i → l !! Z.to_nat i = Some x → getitem l i = Ret x.
Proof.
  intros Hi Hx. pose proof (lookup_lt_Some _ _ _ Hx).
  unfold getitem. rewrite norm_index_nonneg by lia. simpl. by rewrite Hx.
Qed.

Lemma getitem_at (l : list Z) (i : Z) :
  0 ≤ i < Z.of_nat (length l) → getitem l i = Ret (at_ l i).
Proof.
  intros Hi. destruct (lookup_lt_is_Some_2 l (Z.to_nat i)) as [x Hx]; [lia|].
  unfold at_. rewrite Hx. apply getitem_lookup; [lia|done].
Qed.

Lemma setitem_in_range {A} (l : list A) (i : Z) (x : A) :
  0 ≤ i < Z.of_nat (length l) → setitem l i x = Ret (<[Z.to_nat i := x]> l).
Proof. intros. unfold setitem. by rewrite norm_index_nonneg. Qed.

Lemma at_lookup (l : list Z) (i : Z) (x : Z) :
  l !! Z.to_nat i = Some x → at_ l i = x.
Proof. unfold at_. by intros ->. Qed.

Lemma lookup_at (l : list Z) (i : Z) :
  0 ≤ i < Z.of_nat (length l) → l !! Z.to_nat i = Some (at_ l i).
Proof.
  intros Hi. destruct (lookup_lt_is_Some_2 l (Z.to_nat i)) as [x Hx]; [lia|].
  unfold at_. by rewrite Hx.
Qed.

Lemma at_insert (l : list Z) (i j x : Z) :
  0 ≤ i < Z.of_nat (length l) → 0 ≤ j →
  at_ (<[Z.to_nat i := x]> l) j = if decide (j = i) then x else at_ l j.
Proof.
  intros Hi Hj. unfold at_. case_decide as Hij.
  - subst. rewrite list_lookup_insert_eq by lia. done.
  - rewrite list_lookup_insert_ne by lia. done.
Qed.

(** A loop that keeps an invariant and whose body never raises returns,
    with the invariant. *)
Lemma for_each_inv {A B} (P : nat → B → Prop) (body : B → A → outcome B)
    (xs : list A) (acc : B) :
  P O acc →
  (∀ i x b, xs !! i = Some x → P i b → ∃ b', body b x = Ret b' ∧ P (S i) b') →
  ∃ b, for_each body xs acc = Ret b ∧ P (length xs) b.
Proof.
  revert P acc. induction xs as [|x xs IH]; intros P acc H0 Hstep; simpl.
  - eauto.
  - destruct (Hstep O x acc) as (b' & -> & Hb'); [done..|]. simpl.
    apply (IH (λ i, P (S i))); [done|].
    intros i y b Hy Hb. by apply (Hstep (S i)).
Qed.

Lemma lookup_range (k : Z) (i : nat) (x : Z) :
  range k !! i = Some x ↔ x = Z.of_nat i ∧ Z.of_nat i < k.
Proof. unfold range. rewrite lookup_seqZ. naive_solver lia. Qed.

Lemma length_range (k : Z) : length (range k) = Z.to_nat k.
Proof. apply length_seqZ. Qed.

Lemma uniform_int_Ret `{RandomSource R} (s : R) (lo hi : Z) :
  lo ≤ hi →
  uniform_int s lo hi = Ret (randint s lo (hi + 1)) ∧
  lo ≤ (randint s lo (hi + 1)).1 ≤ hi.
Proof.
  intros. unfold uniform_int. rewrite decide_True by lia.
  pose proof (randint_range s lo (hi + 1)). split; [done|lia].
Qed.

Lemma check_exhausted_Ret (num_drawn n : Z) (u : unit) :
  check_exhausted num_drawn n = Ret u ↔ num_drawn < n.
Proof.
  unfold check_exhausted. case_decide; split; try done; try lia.
  by destruct u.
Qed.

Lemma check_exhausted_lt (num_drawn n : Z) :
  num_drawn < n → check_exhausted num_drawn n = Ret ().
Proof. intros. by apply check_exhausted_Ret. Qed.

(** Swap-delete: overwriting slot [i] with the last live entry and
    shrinking the live prefix removes exactly the entry of slot [i]. *)
Lemma swap_delete_perm (l : list Z) (r i : nat) (out last : Z) :
  (i < r)%nat → (r ≤ length l)%nat →
  l !! i = Some out → l !! (r - 1)%nat = Some last →
  take r l ≡ₚ out :: take (r - 1) (<[i := last]> l).
Proof.
  intros Hir Hrl Hout Hlast.
  destruct r as [|r]; [lia|]. replace (S r - 1)%nat with r in * by lia.
  rewrite (take_S_r l r last) by done.
  destruct (decide (i = r)) as [->|Hne].
  - rewrite take_insert_ge by lia. assert (out = last) as -> by congruence.
    by rewrite Permutation_app_comm.
  - rewrite take_insert_lt by lia.
    assert (take r l !! i = Some out) as Hti by (rewrite lookup_take_lt by lia; done).
    rewrite insert_take_drop by (rewrite length_take; lia).
    rewrite <- (take_drop_middle (take r l) i out) at 1 by done.
    rewrite <- app_assoc. simpl.
    rewrite <- Permutation_middle. apply perm_skip.
    rewrite (Permutation_app_comm (drop _ _) [last]). simpl.
    by rewrite <- Permutation_middle.
Qed.

(** ** Fisher-Yates *)

Section fisher_yates.
Context `{RandomSource R}.
Import FisherYates.

(** draw, evaluated on a well-formed state that is not exhausted. *)
Lemma FisherYates_draw_eval (st : state R) :
  wf st → num_drawn st < n st →
  let r := randint (np_random st) 0 (remaining_ st - 1 + 1) in
  0 ≤ r.1 < remaining_ st ∧
  draw st = Ret (at_ (array st) r.1,
                 State (n st) r.2 (num_drawn st + 1)
                       (<[Z.to_nat r.1 := at_ (array st) (remaining_ st - 1)]>
                          (array st))
                       (remaining_ st - 1)).
Proof.
  intros [Hrem Hnn Hlen] Hlt r.
  destruct (uniform_int_Ret (np_random st) 0 (remaining_ st - 1)) as [Hu Hr];
    [lia|].
  fold r in Hu, Hr. split; [lia|].
  unfold draw. rewrite check_exhausted_lt by done. simpl.
  rewrite Hu. simpl. destruct r as [i rng] eqn:Er. simpl in *.
  rewrite !getitem_at by lia. simpl.
  rewrite setitem_in_range by lia. done.
Qed.

Lemma FisherYates_draw_step (st st' : state R) (c : Z) :
  wf st → draw st = Ret (c, st') →
  wf st' ∧ live st ≡ₚ c :: live st' ∧
  n st' = n st ∧ num_drawn st' = num_drawn st + 1.
Proof.
  intros Hwf Hd.
  assert (num_drawn st < n st) as Hlt.
  { unfold draw in Hd. apply bind_Ret_inv in Hd as (u & Hu & _).
    by apply check_exhausted_Ret in Hu. }
  destruct (FisherYates_draw_eval st Hwf Hlt) as [Hr He].
  rewrite He in Hd. injection Hd as <- <-.
  destruct Hwf as [Hrem Hnn Hlen]. split_and!; simpl; try done.
  - split; simpl; [lia|lia|]. rewrite length_insert. lia.
  - unfold live; simpl.
    replace (Z.to_nat (remaining_ st - 1)) with (Z.to_nat (remaining_ st) - 1)%nat
      by lia.
    apply swap_delete_perm; [lia|lia|..].
    + apply lookup_at. lia.
    + replace (Z.to_nat (remaining_ st) - 1)%nat
        with (Z.to_nat (remaining_ st - 1)) by lia.
      apply lookup_at. lia.
Qed.

Lemma FisherYates_reset_wf (n0 : Z) (rng : R) :
  0 ≤ n0 → wf (reset n0 rng) ∧ live (reset n0 rng) = range n0.
Proof.
  intros Hn. split.
  - split; simpl; [lia|lia|]. rewrite length_range. lia.
  - unfold live, reset; simpl. apply take_ge. rewrite length_range. lia.
Qed.
End fisher_yates.

Lemma filter_all {A} (P : A → Prop) `{!∀ x, Decision (P x)} (l : list A) :
  Forall P l → filter P l = l.
Proof.
  induction 1 as [|x l HP _ IH]; [done|].
  by rewrite filter_cons_True, IH.
Qed.

(** Removing one element from a filtered range. *)
Lemma filter_range_remove (P Q : Z → Prop) `{!∀ x, Decision (P x)}
    `{!∀ x, Decision (Q x)} (k c : Z) :
  0 ≤ c < k → P c → ¬ Q c → (∀ i, 0 ≤ i < k → i ≠ c → (P i ↔ Q i)) →
  filter P (range k) ≡ₚ c :: filter Q (range k).
Proof.
  intros Hc HP HQ Hiff. apply NoDup_Permutation.
  - apply NoDup_filter, NoDup_seqZ.
  - apply NoDup_cons. split.
    + rewrite list_elem_of_filter. tauto.
    + apply NoDup_filter, NoDup_seqZ.
  - intros x. rewrite elem_of_cons, !list_elem_of_filter.
    unfold range. rewrite elem_of_seqZ.
    destruct (decide (x = c)) as [->|Hne]; [intuition lia|].
    split.
    + intros [HPx Hx]. right. split; [|done]. apply Hiff; [lia|done..].
    + intros [?|[HQx Hx]]; [done|]. split; [|done]. apply Hiff; [lia|done..].
Qed.

Lemma uniform_int_Ret_inv `{RandomSource R} (s : R) (lo hi : Z) x :
  uniform_int s lo hi = Ret x → lo ≤ hi.
Proof. unfold uniform_int. case_decide; [lia|done]. Qed.

(** ** Bitmap *)

Section bitmap.
Context `{RandomSource R}.
Import Bitmap.

Lemma Bitmap_live_elem (st : state R) (x : Z) :
  x ∈ live st ↔
  0 ≤ x < Z.of_nat (length (available st)) ∧ at_ (available st) x ≠ 0.
Proof.
  unfold live. rewrite list_elem_of_filter. unfold range.
  rewrite elem_of_seqZ. unfold at_. intuition lia.
Qed.

(** One iteration of the rejection loop on a well-formed state. *)
Lemma Bitmap_draw_loop_unfold (fuel : nat) (st : state R) (rng : R) :
  wf st → 0 < n st →
  let r := randint rng 0 (n st - 1 + 1) in
  0 ≤ r.1 < n st ∧
  draw_loop (S fuel) st rng =
    if decide (at_ (available st) r.1 ≠ 0) then
      Ret (r.1, State (n st) r.2 (num_drawn st + 1)
                      (<[Z.to_nat r.1 := 0]> (available st)))
    else draw_loop fuel st r.2.
Proof.
  intros Hwf Hn r. unfold wf in Hwf.
  destruct (uniform_int_Ret rng 0 (n st - 1)) as [Hu Hr]; [lia|].
  fold r in Hu, Hr. split; [lia|].
  simpl. rewrite Hu. simpl. destruct r as [c rng'] eqn:Er. simpl in *.
  rewrite getitem_at by lia. simpl.
  case_decide; [|done]. by rewrite setitem_in_range by lia.
Qed.

Lemma Bitmap_accept_perm (st : state R) (c : Z) :
  0 ≤ c < Z.of_nat (length (available st)) → at_ (available st) c ≠ 0 →
  live st ≡ₚ
  c :: live (State (n st) (np_random st) (num_drawn st)
                   (<[Z.to_nat c := 0]> (available st))).
Proof.
  intros Hc Ha. unfold live; simpl. rewrite length_insert.
  apply filter_range_remove; [done|done|..].
  - fold (at_ (<[Z.to_nat c:=0]> (available st)) c).
    rewrite at_insert by lia. rewrite decide_True by done. lia.
  - intros i Hi Hne.
    fold (at_ (<[Z.to_nat c:=0]> (available st)) i).
    rewrite at_insert by lia. by rewrite decide_False by done.
Qed.

Lemma Bitmap_draw_loop_step (fuel : nat) (st st' : state R) (rng : R) (c : Z) :
  wf st → draw_loop fuel st rng = Ret (c, st') →
  wf st' ∧ live st ≡ₚ c :: live st' ∧
  n st' = n st ∧ num_drawn st' = num_drawn st + 1.
Proof.
  intros Hwf. revert rng.
  induction fuel as [|fuel IH]; intros rng Hd; [done|].
  assert (0 < n st) as Hn.
  { simpl in Hd. apply bind_Ret_inv in Hd as (x & Hx & _).
    apply uniform_int_Ret_inv in Hx. lia. }
  destruct (Bitmap_draw_loop_unfold fuel st rng Hwf Hn) as [Hr He].
  rewrite He in Hd. clear He. case_decide as Ha; [|by eapply IH].
  injection Hd as <- <-. unfold wf in *. split_and!; simpl; try done.
  - by rewrite length_insert.
  - apply (Bitmap_accept_perm st); [lia|done].
Qed.

Lemma Bitmap_draw_step (fuel : nat) (st st' : state R) (c : Z) :
  wf st → draw fuel st = Ret (c, st') →
  wf st' ∧ live st ≡ₚ c :: live st' ∧
  n st' = n st ∧ num_drawn st' = num_drawn st + 1.
Proof.
  intros Hwf Hd. unfold draw in Hd.
  apply bind_Ret_inv in Hd as (u & Hu & Hd).
  by apply (Bitmap_draw_loop_step fuel st st' (np_random st)).
Qed.

Lemma Bitmap_draw_loop_mono (fuel fuel' : nat) (st : state R) (rng : R) x :
  (fuel ≤ fuel')%nat → draw_loop fuel st rng = Ret x →
  draw_loop fuel' st rng = Ret x.
Proof.
  revert fuel' rng. induction fuel as [|fuel IH]; intros fuel' rng Hle Hd;
    [done|].
  destruct fuel' as [|fuel']; [lia|]. simpl in *.
  destruct (uniform_int rng 0 (n st - 1)) as [[c rng']| |]; simpl in *;
    [|done..].
  destruct (getitem (available st) c) as [a| |]; simpl in *; [|done..].
  case_decide; [done|]. apply IH; [lia|done].
Qed.

(** With a fair source the rejection loop finds an available id. *)
Lemma Bitmap_draw_loop_fair `{!FairSource R} (st : state R) (rng : R) :
  wf st → live st ≠ [] →
  ∃ fuel x, draw_loop fuel st rng = Ret x.
Proof.
  intros Hwf Hne.
  destruct (live st) as [|v l] eqn:El; [done|].
  assert (v ∈ live st) as Hv by (rewrite El; left).
  apply Bitmap_live_elem in Hv as [Hv Ha]. unfold wf in Hwf.
  assert (0 < n st) as Hn by lia.
  destruct (fair rng 0 (n st - 1 + 1) v) as [k Hk]; [lia|].
  exists (S k). revert rng Hk. induction k as [|k IH]; intros rng Hk.
  - destruct (Bitmap_draw_loop_unfold O st rng Hwf Hn) as [_ ->].
    simpl in Hk. rewrite Hk. rewrite decide_True by done. eauto.
  - destruct (Bitmap_draw_loop_unfold (S k) st rng Hwf Hn) as [_ ->].
    case_decide; [eauto|]. apply IH.
    unfold skip in *. by rewrite Nat.iter_succ_r in Hk.
Qed.

Lemma Bitmap_reset_wf (n0 : Z) (rng : R) :
  0 ≤ n0 → wf (reset n0 rng) ∧ live (reset n0 rng) = range n0.
Proof.
  intros Hn. split.
  - unfold wf, reset; simpl. by rewrite length_replicate.
  - unfold live, reset; simpl. rewrite length_replicate, Z2Nat.id by done.
    apply filter_all. apply Forall_seqZ. intros i Hi.
    rewrite lookup_replicate_2 by lia. done.
Qed.
End bitmap.

(** ** Adaptive threshold: reset *)

Section adaptive_reset.
Import Adaptive.

Lemma range_S (k : nat) : range (Z.of_nat (S k)) = range (Z.of_nat k) ++ [Z.of_nat k].
Proof. unfold range. by rewrite seqZ_S. Qed.

Lemma partition_prefix (q extra : Z) (k : nat) :
  0 ≤ extra →
  fold_left (λ '(sizes, starts, offset) i,
               let sz := q + (if decide (i < extra) then 1 else 0) in
               (sizes ++ [sz], starts ++ [offset], offset + sz))
            (range (Z.of_nat k)) ([], [], 0)
  = (size_of q extra <$> range (Z.of_nat k),
     start_of q extra <$> range (Z.of_nat k),
     start_of q extra (Z.of_nat k)).
Proof.
  intros He. induction k as [|k IH].
  { unfold range. rewrite seqZ_nil by lia. simpl. unfold start_of.
    repeat f_equal. lia. }
  rewrite range_S, fold_left_app, IH. simpl.
  rewrite !fmap_app. simpl. unfold size_of, start_of.
  f_equal. case_decide; lia.
Qed.

Lemma partition_eq (d q extra : Z) :
  0 ≤ d → 0 ≤ extra →
  partition d q extra
  = (size_of q extra <$> range d, start_of q extra <$> range d,
     start_of q extra d).
Proof.
  intros Hd He. unfold partition.
  rewrite <- (Z2Nat.id d) by done. by apply partition_prefix.
Qed.

Lemma at_fmap_range (f : Z → Z) (k i : Z) :
  0 ≤ i < k → at_ (f <$> range k) i = f i.
Proof.
  intros Hi. apply at_lookup. rewrite list_lookup_fmap.
  unfold range. rewrite lookup_seqZ_lt by lia. simpl.
  replace (0 + Z.of_nat (Z.to_nat i)) with i by lia. done.
Qed.

Lemma choose_d_bounds (n m_bits : Z) :
  1 ≤ choose_d n m_bits ≤ Z.max 1 (n / 2).
Proof. unfold choose_d. case_decide; lia. Qed.

(** The slices of the fresh partition, concatenated up to mini-deck [k]. *)
Lemma fresh_slices_prefix (q extra : Z) (k : nat) :
  0 ≤ q → 0 ≤ extra →
  concat ((λ i, seqZ (start_of q extra i) (size_of q extra i))
            <$> range (Z.of_nat k))
  = range (start_of q extra (Z.of_nat k)).
Proof.
  intros Hq He. induction k as [|k IH].
  { unfold range, start_of. rewrite !seqZ_nil by lia. done. }
  rewrite range_S, fmap_app, concat_app, IH. simpl. rewrite app_nil_r.
  unfold range.
  replace (start_of q extra (Z.of_nat (S k)))
    with (start_of q extra (Z.of_nat k) + size_of q extra (Z.of_nat k)).
  - rewrite seqZ_app; [done|..]; unfold start_of, size_of;
      try case_decide; lia.
  - unfold start_of, size_of. case_decide; lia.
Qed.

Context `{RandomSource R}.

Lemma Adaptive_reset_eq (n0 : Z) (rng : R) (mb : Z) :
  let d0 := choose_d n0 mb in
  reset n0 rng mb
  = State n0 rng 0 d0
          (size_of (n0 / d0) (n0 `mod` d0) <$> range d0)
          (start_of (n0 / d0) (n0 `mod` d0) <$> range d0)
          (replicate (Z.to_nat d0) 0) 0 PhaseAdaptive [] 0 mb.
Proof.
  intros d0. pose proof (choose_d_bounds n0 mb) as Hd. fold d0 in Hd.
  pose proof (Z.mod_pos_bound n0 d0).
  unfold reset. fold d0. rewrite partition_eq by lia. done.
Qed.

Lemma sumZ_replicate_0 (k : nat) : sumZ (replicate k 0) = 0.
Proof. induction k as [|k IH]; simpl; [done|]. by rewrite IH. Qed.

Lemma Adaptive_reset_wf (n0 : Z) (rng : R) (mb : Z) :
  0 ≤ n0 → wf (reset n0 rng mb) ∧ live (reset n0 rng mb) = range n0.
Proof.
  intros Hn. rewrite Adaptive_reset_eq.
  pose proof (choose_d_bounds n0 mb) as Hd.
  set (d0 := choose_d n0 mb) in *.
  pose proof (Z.mod_pos_bound n0 d0 ltac:(lia)) as Hm.
  pose proof (Z.div_pos n0 d0 ltac:(lia) ltac:(lia)) as Hq.
  pose proof (Z.div_mod n0 d0 ltac:(lia)) as Hdm.
  split.
  - split; simpl; try done; try lia.
    + by rewrite length_fmap, length_range.
    + by rewrite length_fmap, length_range.
    + by rewrite length_replicate.
    + intros i Hi. rewrite at_fmap_range by done.
      unfold at_. rewrite lookup_replicate_2 by lia. simpl.
      unfold size_of. case_decide; lia.
    + intros i Hi. rewrite at_fmap_range by done.
      unfold size_of. case_decide; lia.
    + intros _. rewrite sumZ_replicate_0. lia.
  - unfold live; simpl.
    rewrite (list_fmap_ext _
      (λ i, seqZ (start_of (n0 / d0) (n0 `mod` d0) i)
                 (size_of (n0 / d0) (n0 `mod` d0) i))).
    + pose proof (fresh_slices_prefix (n0 / d0) (n0 `mod` d0) (Z.to_nat d0)
                    ltac:(lia) ltac:(lia)) as Hk.
      rewrite Z2Nat.id in Hk by lia. rewrite Hk.
      f_equal. unfold start_of. lia.
    + intros i x Hx. apply lookup_range in Hx as [-> Hi].
      unfold slice, range2; simpl. rewrite !at_fmap_range by lia.
      unfold at_. rewrite lookup_replicate_2 by lia. simpl.
      f_equal; lia.
Qed.
End adaptive_reset.

(** ** Adaptive threshold: draws *)

Lemma sumZ_app (l k : list Z) : sumZ (l ++ k) = sumZ l + sumZ k.
Proof. induction l as [|x l IH]; simpl; [done|]. rewrite IH. lia. Qed.

Lemma sumZ_insert (l : list Z) (i : nat) (x y : Z) :
  l !! i = Some x → sumZ (<[i := y]> l) = sumZ l + (y - x).
Proof.
  revert i. induction l as [|a l IH]; intros [|i] Hx; simplify_eq/=.
  - lia.
  - rewrite (IH i) by done. lia.
Qed.

(** Some entry is at most the average. *)
Lemma sumZ_min (l : list Z) :
  l ≠ [] →
  ∃ (i : nat) (x : Z), l !! i = Some x ∧ x * Z.of_nat (length l) ≤ sumZ l.
Proof.
  induction l as [|a l IH]; [done|]. intros _.
  destruct l as [|b l].
  { exists O, a. simpl. split; [done|lia]. }
  destruct IH as (i & x & Hx & Hle); [done|].
  destruct (decide (a ≤ x)).
  - exists O, a. split; [done|].
    change (sumZ (a :: b :: l)) with (a + sumZ (b :: l)).
    change (length (a :: b :: l)) with (S (length (b :: l))). nia.
  - exists (S i), x. split; [done|].
    change (sumZ (a :: b :: l)) with (a + sumZ (b :: l)).
    change (length (a :: b :: l)) with (S (length (b :: l))). nia.
Qed.

Lemma range_split (d i : Z) :
  0 ≤ i < d → range d = range i ++ i :: seqZ (i + 1) (d - i - 1).
Proof.
  intros Hi. unfold range.
  replace d with (i + (d - i)) at 1 by lia.
  rewrite seqZ_app by lia. f_equal.
  rewrite seqZ_cons by lia.
  replace (0 + i) with i by lia.
  replace (Z.succ i) with (i + 1) by lia.
  by replace (Z.pred (d - i)) with (d - i - 1) by lia.
Qed.

(** Taking the head of one of the concatenated pieces. *)
Lemma concat_fmap_range_update (f g : Z → list Z) (d i x : Z) :
  0 ≤ i < d → f i = x :: g i →
  (∀ j, 0 ≤ j < d → j ≠ i → f j = g j) →
  concat (f <$> range d) ≡ₚ x :: concat (g <$> range d).
Proof.
  intros Hi Hfi Hother. rewrite (range_split d i) by done.
  rewrite !fmap_app, !fmap_cons, !concat_app, !concat_cons. rewrite Hfi.
  rewrite (list_fmap_ext f g (range i)).
  2:{ intros k j Hj. apply lookup_range in Hj as [-> ?].
      apply Hother; lia. }
  rewrite (list_fmap_ext f g (seqZ (i + 1) (d - i - 1))).
  2:{ intros k j Hj. apply lookup_seqZ in Hj as [-> ?].
      apply Hother; lia. }
  simpl. by rewrite <- Permutation_middle.
Qed.

Lemma ceil_div_ge (a b : Z) : 0 < b → a ≤ ceil_div a b * b.
Proof.
  intros Hb. unfold ceil_div.
  pose proof (Z.mul_div_le (- a) b Hb). lia.
Qed.

Section adaptive_draw.
Context `{RandomSource R}.
Import Adaptive.

Lemma Adaptive_draw_final_eval (st : state R) :
  0 < final_remaining st ≤ Z.of_nat (length (final_cards st)) →
  let r := randint (np_random st) 0 (final_remaining st - 1 + 1) in
  0 ≤ r.1 < final_remaining st ∧
  draw_final st
  = Ret (at_ (final_cards st) r.1,
         State (n st) r.2 (num_drawn st + 1) (d st) (sizes st) (starts st)
               (ell st) (t st) (phase st)
               (<[Z.to_nat r.1 := at_ (final_cards st) (final_remaining st - 1)]>
                  (final_cards st))
               (final_remaining st - 1) (m_bits st)).
Proof.
  intros Hfr r.
  destruct (uniform_int_Ret (np_random st) 0 (final_remaining st - 1))
    as [Hu Hr]; [lia|].
  fold r in Hu, Hr. split; [lia|].
  unfold draw_final. rewrite decide_False by lia.
  rewrite Hu. simpl. destruct r as [i rng] eqn:Er. simpl in *.
  rewrite !getitem_at by lia. simpl.
  by rewrite setitem_in_range by lia.
Qed.

Lemma Adaptive_draw_final_step (st st' : state R) (c : Z) :
  wf st → phase st = PhaseFinal → num_drawn st < n st →
  draw_final st = Ret (c, st') →
  wf st' ∧ live st ≡ₚ c :: live st' ∧
  n st' = n st ∧ num_drawn st' = num_drawn st + 1.
Proof.
  intros Hwf Hph Hlt Hd.
  destruct (wf_final _ Hwf Hph) as [Hfr Hrem].
  destruct (Adaptive_draw_final_eval st) as [Hr He]; [lia|].
  rewrite He in Hd. injection Hd as <- <-.
  split_and!; simpl; try done.
  - destruct Hwf. split; simpl; try done.
    + intros Hp. congruence.
    + intros _. rewrite length_insert. lia.
  - unfold live; simpl. rewrite Hph.
    replace (Z.to_nat (final_remaining st - 1))
      with (Z.to_nat (final_remaining st) - 1)%nat by lia.
    apply swap_delete_perm; [lia|lia|..].
    + apply lookup_at. lia.
    + replace (Z.to_nat (final_remaining st) - 1)%nat
        with (Z.to_nat (final_remaining st - 1)) by lia.
      apply lookup_at. lia.
Qed.

Lemma Adaptive_transition_eval (st : state R) :
  wf st →
  transition_to_final (tick st)
  = Ret (State (n st) (np_random st) (num_drawn st) (d st) (sizes st)
               (starts st) (ell st) (t st + 1) PhaseFinal
               (concat (slice st <$> range (d st)))
               (Z.of_nat (length (concat (slice st <$> range (d st)))))
               (m_bits st)).
Proof.
  intros Hwf. unfold transition_to_final. simpl.
  match goal with |- context [for_each ?b ?xs ?a] =>
    destruct (for_each_inv
      (λ i acc, acc = concat (slice st <$> take i (range (d st)))) b xs a)
      as (cards & -> & Hcards) end.
  - done.
  - intros i x acc Hx ->. apply lookup_range in Hx as Hi. destruct Hi as [-> Hi].
    destruct Hwf.
    rewrite !getitem_at by lia. simpl. eexists. split; [done|].
    rewrite (take_S_r _ _ _ Hx), fmap_app, concat_app. simpl.
    by rewrite app_nil_r.
  - simpl. rewrite take_ge in Hcards by done. by subst.
Qed.

(** One iteration of the rejection loop. *)
Lemma Adaptive_loop_unfold (fuel : nat) (st : state R) (thr : Z) (rng : R) :
  wf st →
  let r := randint rng 0 (d st - 1 + 1) in
  let e := at_ (ell st) r.1 in
  0 ≤ r.1 < d st ∧
  adaptive_loop (S fuel) (tick st) thr rng =
    if decide (e < thr ∧ e < at_ (sizes st) r.1) then
      Ret (at_ (starts st) r.1 + e,
           State (n st) r.2 (num_drawn st + 1) (d st) (sizes st) (starts st)
                 (<[Z.to_nat r.1 := e + 1]> (ell st)) (t st + 1) (phase st)
                 (final_cards st) (final_remaining st) (m_bits st))
    else adaptive_loop fuel (tick st) thr r.2.
Proof.
  intros Hwf r e. destruct Hwf.
  destruct (uniform_int_Ret rng 0 (d st - 1)) as [Hu Hr]; [lia|].
  fold r in Hu, Hr. split; [lia|].
  simpl. rewrite Hu. simpl. subst e. destruct r as [i rng'] eqn:Er.
  simpl in *. unfold drawable, top_card. simpl.
  rewrite !getitem_at by lia. simpl.
  destruct (decide (at_ (ell st) i < thr)) as [Ht|Ht]; simpl.
  - destruct (decide (at_ (ell st) i < at_ (sizes st) i)) as [Hs|Hs].
    + rewrite bool_decide_eq_true_2 by done. rewrite decide_True by done.
      by rewrite setitem_in_range by lia.
    + rewrite bool_decide_eq_false_2 by done.
      by rewrite decide_False by tauto.
  - by rewrite decide_False by tauto.
Qed.

Lemma Adaptive_accept_step (st : state R) (i : Z) (rng : R) :
  wf st → phase st = PhaseAdaptive → t st + 1 ≤ n st - 2 * d st →
  0 ≤ i < d st → at_ (ell st) i < at_ (sizes st) i →
  let st' := State (n st) rng (num_drawn st + 1) (d st) (sizes st) (starts st)
                   (<[Z.to_nat i := at_ (ell st) i + 1]> (ell st)) (t st + 1)
                   (phase st) (final_cards st) (final_remaining st)
                   (m_bits st) in
  wf st' ∧ live st ≡ₚ (at_ (starts st) i + at_ (ell st) i) :: live st'.
Proof.
  intros Hwf Hph Ht Hi He st'.
  destruct (wf_adaptive _ Hwf Hph) as (Htn & Hsum & _).
  pose proof (wf_ell_len _ Hwf) as Hlen.
  split.
  - destruct Hwf. split; simpl; try done.
    + by rewrite length_insert.
    + intros j Hj. rewrite at_insert by lia. case_decide; [subst|by auto].
      specialize (wf_ell0 i Hi). lia.
    + intros _. split_and!; [lia| |lia].
      rewrite (sumZ_insert _ _ (at_ (ell st) i)) by (apply lookup_at; lia).
      lia.
    + intros Hp. congruence.
  - unfold live. simpl. rewrite Hph.
    apply (concat_fmap_range_update _ _ _ i); [done|..].
    + unfold slice, range2; simpl. rewrite at_insert, decide_True by lia.
      rewrite seqZ_cons by lia. f_equal. f_equal; lia.
    + intros j Hj Hne. unfold slice; simpl.
      by rewrite at_insert, decide_False by lia.
Qed.

Lemma Adaptive_loop_step (fuel : nat) (st st' : state R) (thr : Z) (rng : R)
    (c : Z) :
  wf st → phase st = PhaseAdaptive → t st + 1 ≤ n st - 2 * d st →
  adaptive_loop fuel (tick st) thr rng = Ret (c, st') →
  wf st' ∧ live st ≡ₚ c :: live st' ∧
  n st' = n st ∧ num_drawn st' = num_drawn st + 1.
Proof.
  intros Hwf Hph Ht. revert rng.
  induction fuel as [|fuel IH]; intros rng Hd; [done|].
  destruct (Adaptive_loop_unfold fuel st thr rng Hwf) as [Hr He].
  rewrite He in Hd. clear He. case_decide as Ha; [|by eapply IH].
  injection Hd as <- <-.
  destruct (Adaptive_accept_step st (randint rng 0 (d st - 1 + 1)).1
              (randint rng 0 (d st - 1 + 1)).2) as [Hwf' Hperm];
    [done|done|done|lia|tauto|].
  done.
Qed.

Lemma Adaptive_threshold_Ret (st : state R) :
  wf st →
  current_threshold (tick st) = Ret (ceil_div (t st + 1) (d st) + 1).
Proof.
  intros Hwf. pose proof (wf_d _ Hwf). unfold current_threshold. simpl.
  case_decide as Hz; [|by rewrite decide_False by lia].
  rewrite Hz. unfold ceil_div. simpl. by rewrite Z.div_0_l by lia.
Qed.

Lemma Adaptive_draw_step (fuel : nat) (st st' : state R) (c : Z) :
  wf st → Z.of_nat (length (live st)) = n st - num_drawn st →
  draw fuel st = Ret (c, st') →
  wf st' ∧ live st ≡ₚ c :: live st' ∧
  n st' = n st ∧ num_drawn st' = num_drawn st + 1.
Proof.
  intros Hwf Hcount Hd. unfold draw in Hd.
  apply bind_Ret_inv in Hd as (u & Hu & Hd).
  apply check_exhausted_Ret in Hu.
  case_decide as Hph.
  - unfold draw_adaptive in Hd.
    change (n (tick st)) with (n st) in Hd.
    change (d (tick st)) with (d st) in Hd.
    change (t (tick st)) with (t st + 1) in Hd.
    change (np_random (tick st)) with (np_random st) in Hd.
    case_decide as Ht.
    + rewrite (Adaptive_transition_eval st Hwf) in Hd. simpl in Hd.
      unfold live in Hcount. rewrite Hph in Hcount.
      match type of Hd with draw_final ?s = _ => set (st2 := s) in * end.
      assert (wf st2) as Hwf2.
      { destruct Hwf. split; simpl; try done. intros _. lia. }
      assert (live st2 = live st) as Hlive.
      { unfold live; simpl. rewrite Hph. apply take_ge. lia. }
      rewrite <- Hlive.
      by apply (Adaptive_draw_final_step st2 st' c).
    + rewrite (Adaptive_threshold_Ret st Hwf) in Hd. simpl in Hd.
      eapply (Adaptive_loop_step fuel st st' _ (np_random st));
        [done..|lia|done].
  - destruct (phase st) eqn:Hp; [done|].
    by apply Adaptive_draw_final_step.
Qed.

(** Some mini-deck is drawable under the threshold of the coming draw. *)
Lemma Adaptive_drawable_exists (st : state R) :
  wf st → phase st = PhaseAdaptive → t st + 1 ≤ n st - 2 * d st →
  ∃ i, 0 ≤ i < d st ∧
       at_ (ell st) i < ceil_div (t st + 1) (d st) + 1 ∧
       at_ (ell st) i < at_ (sizes st) i.
Proof.
  intros Hwf Hph Ht.
  destruct (wf_adaptive _ Hwf Hph) as (Htn & Hsum & Htd).
  pose proof (wf_d _ Hwf) as Hd. pose proof (wf_ell_len _ Hwf) as Hlen.
  destruct (sumZ_min (ell st)) as (k & e & Hk & Hle).
  { intros Hnil. rewrite Hnil in Hlen. simpl in Hlen. lia. }
  pose proof (lookup_lt_Some _ _ _ Hk) as Hkl.
  exists (Z.of_nat k).
  assert (at_ (ell st) (Z.of_nat k) = e) as He.
  { apply at_lookup. by rewrite Nat2Z.id. }
  rewrite He. rewrite Hlen, Z2Nat.id in Hle by lia.
  pose proof (wf_sizes _ Hwf (Z.of_nat k) ltac:(lia)) as Hsz.
  pose proof (ceil_div_ge (t st + 1) (d st) ltac:(lia)) as Hc.
  split_and!; [lia|lia|nia|].
  assert (e + 2 ≤ n st / d st); [|lia].
  apply Z.div_le_lower_bound; [lia|]. nia.
Qed.

Lemma Adaptive_loop_mono (fuel fuel' : nat) (st : state R) (thr : Z)
    (rng : R) x :
  (fuel ≤ fuel')%nat → adaptive_loop fuel st thr rng = Ret x →
  adaptive_loop fuel' st thr rng = Ret x.
Proof.
  revert fuel' rng. induction fuel as [|fuel IH]; intros fuel' rng Hle Hd;
    [done|].
  destruct fuel' as [|fuel']; [lia|]. simpl in *.
  destruct (uniform_int rng 0 (d st - 1)) as [[c rng']| |]; simpl in *;
    [|done..].
  destruct (drawable st thr c) as [[]| |]; simpl in *; [done| |done..].
  apply IH; [lia|done].
Qed.

(** With a fair source the rejection loop finds a drawable mini-deck. *)
Lemma Adaptive_loop_fair `{!FairSource R} (st : state R) (thr : Z) (rng : R) :
  wf st →
  (∃ i, 0 ≤ i < d st ∧ at_ (ell st) i < thr ∧
        at_ (ell st) i < at_ (sizes st) i) →
  ∃ fuel x, adaptive_loop fuel (tick st) thr rng = Ret x.
Proof.
  intros Hwf (i & Hi & Hthr & Hsz).
  destruct (fair rng 0 (d st - 1 + 1) i) as [k Hk]; [lia|].
  exists (S k). revert rng Hk. induction k as [|k IH]; intros rng Hk.
  - destruct (Adaptive_loop_unfold O st thr rng Hwf) as [_ ->].
    simpl in Hk. rewrite Hk. rewrite decide_True by done. eauto.
  - destruct (Adaptive_loop_unfold (S k) st thr rng Hwf) as [_ ->].
    case_decide; [eauto|]. apply IH.
    unfold skip in *. by rewrite Nat.iter_succ_r in Hk.
Qed.

(** draw returns on every state that is not exhausted, given enough
    iterations and a fair source. *)
Lemma Adaptive_draw_returns `{!FairSource R} (st : state R) :
  wf st → Z.of_nat (length (live st)) = n st - num_drawn st →
  num_drawn st < n st →
  ∃ fuel x, draw fuel st = Ret x.
Proof.
  intros Hwf Hcount Hlt. unfold draw.
  rewrite check_exhausted_lt by done. simpl.
  case_decide as Hph.
  - unfold draw_adaptive.
    change (n (tick st)) with (n st).
    change (d (tick st)) with (d st).
    change (t (tick st)) with (t st + 1).
    change (np_random (tick st)) with (np_random st).
    case_decide as Ht.
    + rewrite (Adaptive_transition_eval st Hwf). simpl.
      unfold live in Hcount. rewrite Hph in Hcount.
      match goal with |- context [draw_final ?s] => set (st2 := s) in * end.
      destruct (Adaptive_draw_final_eval st2) as [_ ->]; [simpl; lia|].
      exists O. eauto.
    + rewrite (Adaptive_threshold_Ret st Hwf). simpl.
      apply Adaptive_loop_fair; [done|].
      apply Adaptive_drawable_exists; [done..|lia].
  - destruct (phase st) eqn:Hp; [done|].
    destruct (wf_final _ Hwf Hp) as [Hfr Hrem].
    destruct (Adaptive_draw_final_eval st) as [_ ->]; [lia|].
    exists O. eauto.
Qed.
End adaptive_draw.

(** ** Bit masks *)

Section bit_masks.
Import Perfect.

Lemma length_bits_pos (p : positive) (k : Z) :
  Z.of_nat (length (bits_pos p k)) = popcount_pos p.
Proof.
  revert k. induction p as [p IH|p IH|]; intros k; simpl; [|done..].
  rewrite <- (IH (k + 1)). lia.
Qed.

Lemma length_bits (m : Z) : 0 ≤ m → Z.of_nat (length (bits m)) = popcount m.
Proof. destruct m; intros; try done; try lia. apply length_bits_pos. Qed.

Lemma elem_of_bits_pos (p : positive) (k x : Z) :
  x ∈ bits_pos p k ↔ k ≤ x ∧ Z.testbit (Zpos p) (x - k) = true.
Proof.
  revert k. induction p as [p IH|p IH|]; intros k; simpl.
  - rewrite elem_of_cons, IH. rewrite Pos2Z.inj_xI.
    destruct (decide (x = k)) as [->|Hne].
    + rewrite Z.sub_diag, Z.testbit_odd_0. intuition lia.
    + split.
      * intros [?|[Hk Hb]]; [done|]. split; [lia|].
        replace (x - k) with (Z.succ (x - (k + 1))) by lia.
        rewrite Z.testbit_odd_succ by lia. done.
      * intros [Hk Hb]. right. split; [lia|].
        replace (x - k) with (Z.succ (x - (k + 1))) in Hb by lia.
        rewrite Z.testbit_odd_succ in Hb by lia. done.
  - rewrite IH. rewrite Pos2Z.inj_xO.
    destruct (decide (x = k)) as [->|Hne].
    + rewrite Z.sub_diag, Z.testbit_even_0. intuition (lia || done).
    + split.
      * intros [Hk Hb]. split; [lia|].
        replace (x - k) with (Z.succ (x - (k + 1))) by lia.
        rewrite Z.testbit_even_succ by lia. done.
      * intros [Hk Hb]. split; [lia|].
        replace (x - k) with (Z.succ (x - (k + 1))) in Hb by lia.
        rewrite Z.testbit_even_succ in Hb by lia. done.
  - rewrite list_elem_of_singleton. split.
    + intros ->. rewrite Z.sub_diag. split; [lia|done].
    + intros [Hk Hb]. destruct (decide (x = k)) as [|Hne]; [done|].
      replace (x - k) with (Z.succ (x - k - 1)) in Hb by lia.
      change 1 with (2 * 0 + 1) in Hb.
      rewrite Z.testbit_odd_succ, Z.testbit_0_l in Hb by lia. done.
Qed.

Lemma NoDup_bits_pos (p : positive) (k : Z) : NoDup (bits_pos p k).
Proof.
  revert k. induction p as [p IH|p IH|]; intros k; simpl.
  - apply NoDup_cons. split; [|done].
    rewrite elem_of_bits_pos. lia.
  - done.
  - apply NoDup_singleton.
Qed.

Lemma elem_of_bits (m x : Z) :
  0 ≤ m → x ∈ bits m ↔ 0 ≤ x ∧ Z.testbit m x = true.
Proof.
  intros Hm. destruct m as [|p|p]; [|..|lia].
  - simpl. rewrite Z.testbit_0_l. rewrite elem_of_nil. intuition done.
  - simpl. rewrite elem_of_bits_pos. by rewrite Z.sub_0_r.
Qed.

Lemma NoDup_bits (m : Z) : NoDup (bits m).
Proof. destruct m; simpl; [apply NoDup_nil_2|apply NoDup_bits_pos|apply NoDup_nil_2]. Qed.

(** A full mask of [v] bits. *)
Lemma bits_ones (v : Z) : 0 ≤ v → bits (Z.shiftl 1 v - 1) ≡ₚ range v.
Proof.
  intros Hv.
  assert (Z.shiftl 1 v - 1 = Z.ones v) as -> by (unfold Z.ones; lia).
  assert (0 ≤ Z.ones v).
  { rewrite Z.ones_equiv. pose proof (Z.pow_pos_nonneg 2 v). lia. }
  apply NoDup_Permutation; [apply NoDup_bits|apply NoDup_seqZ|].
  intros x. rewrite elem_of_bits by done. unfold range.
  rewrite elem_of_seqZ. split.
  - intros [Hx Hb]. destruct (decide (x < v)); [lia|].
    rewrite Z.ones_spec_high in Hb by lia. done.
  - intros Hx. split; [lia|]. apply Z.ones_spec_low. lia.
Qed.

(** Clearing a set bit removes its position, and nothing else. *)
Lemma bits_clear (m b : Z) :
  0 ≤ m → b ∈ bits m →
  0 ≤ Z.land m (Z.lnot (Z.shiftl 1 b)) ∧
  bits m ≡ₚ b :: bits (Z.land m (Z.lnot (Z.shiftl 1 b))).
Proof.
  intros Hm Hb. set (m' := Z.land m (Z.lnot (Z.shiftl 1 b))).
  assert (0 ≤ m') as Hm'. { apply Z.land_nonneg. by left. }
  split; [done|].
  apply elem_of_bits in Hb as [Hb0 Hb]; [|done].
  assert (∀ x, 0 ≤ x →
            Z.testbit m' x = Z.testbit m x && negb (bool_decide (x = b)))
    as Hspec.
  { intros x Hx. unfold m'.
    rewrite Z.land_spec, Z.lnot_spec, Z.shiftl_1_l by done.
    rewrite Z.pow2_bits_eqb by done. f_equal. f_equal.
    case_bool_decide; [subst; apply Z.eqb_refl|].
    apply Z.eqb_neq. lia. }
  apply NoDup_Permutation.
  - apply NoDup_bits.
  - apply NoDup_cons. split; [|apply NoDup_bits].
    rewrite elem_of_bits by done. rewrite Hspec by done.
    rewrite bool_decide_eq_true_2 by done.
    rewrite andb_false_r. intros [_ ?]. done.
  - intros x. rewrite elem_of_cons, !elem_of_bits by done.
    split.
    + intros [Hx Hbx]. destruct (decide (x = b)); [by left|right].
      split; [done|]. rewrite Hspec by done. rewrite Hbx.
      by rewrite bool_decide_eq_false_2 by done.
    + intros [->|[Hx Hbx]]; [done|]. split; [done|].
      rewrite Hspec in Hbx by done. by apply andb_true_iff in Hbx as [? _].
Qed.

Lemma size_nat_log2 (p : positive) :
  (Pos.size_nat p < S (S (Z.to_nat (Z.log2 (Zpos p)))))%nat.
Proof.
  assert (∀ q, Pos.to_nat (Pos.size q) = Pos.size_nat q) as Hs.
  { induction q as [q IH|q IH|]; simpl; [| |done];
      rewrite Pos2Nat.inj_succ; by rewrite IH. }
  destruct p as [p|p|]; unfold Z.log2; rewrite ?Z2Nat.inj_pos, ?Hs;
    simpl; lia.
Qed.

(** bit_select returns the position of the [r]-th set bit, and raises
    when there are no more than [r] set bits. *)
Lemma bit_select_loop_spec (p : positive) (fuel : nat) (r count pos : Z) :
  (Pos.size_nat p < fuel)%nat → count ≤ r →
  bit_select_loop fuel (Zpos p) r count pos
  = match bits_pos p pos !! Z.to_nat (r - count) with
    | Some b => Ret b
    | None => Raise BitSelectError
    end.
Proof.
  revert fuel count pos.
  induction p as [p IH|p IH|]; intros fuel count pos Hf Hc;
    (destruct fuel as [|fuel]; [simpl in Hf; lia|]); simpl in Hf.
  - cbn [bit_select_loop bits_pos]. rewrite decide_False by done.
    rewrite decide_True by done.
    case_decide as Hr.
    + subst. by rewrite Z.sub_diag.
    + change (Z.shiftr (Z.pos p~1) 1) with (Zpos p).
      rewrite IH by lia.
      replace (Z.to_nat (r - count)) with (S (Z.to_nat (r - (count + 1))))
        by lia. done.
  - cbn [bit_select_loop bits_pos]. rewrite decide_False by done.
    rewrite decide_False by (intros Hx; by apply Hx).
    change (Z.shiftr (Z.pos p~0) 1) with (Zpos p).
    by rewrite IH by lia.
  - cbn [bit_select_loop bits_pos]. rewrite decide_False by done.
    rewrite decide_True by done.
    case_decide as Hr.
    + subst. by rewrite Z.sub_diag.
    + change (Z.shiftr 1 1) with 0.
      destruct fuel as [|fuel]; [lia|]. simpl.
      replace (Z.to_nat (r - count)) with (S (Z.to_nat (r - (count + 1))))
        by lia. done.
Qed.

Lemma bit_select_spec (m r : Z) :
  0 ≤ m → 0 ≤ r →
  bit_select m r = match bits m !! Z.to_nat r with
                   | Some b => Ret b
                   | None => Raise BitSelectError
                   end.
Proof.
  intros Hm Hr. unfold bit_select. destruct m as [|p|p]; [done| |lia].
  rewrite bit_select_loop_spec; [|apply size_nat_log2|done].
  by rewrite Z.sub_0_r.
Qed.
End bit_masks.

(** ** Perfect: sorting and counting cells *)

Lemma Permutation_concat_fmap {A B} (f : A → list B) (l k : list A) :
  l ≡ₚ k → concat (f <$> l) ≡ₚ concat (f <$> k).
Proof.
  induction 1 as [|x l k _ IH|x y l|l k m _ IH1 _ IH2]; simpl.
  - done.
  - by rewrite IH.
  - rewrite !app_assoc. by rewrite (Permutation_app_comm (f y)).
  - by rewrite IH1.
Qed.

Lemma concat_fmap_perm_ext {A B} (f g : A → list B) (l : list A) :
  Forall (λ x, f x ≡ₚ g x) l → concat (f <$> l) ≡ₚ concat (g <$> l).
Proof.
  induction 1 as [|x l Hx _ IH]; simpl; [done|]. by rewrite Hx, IH.
Qed.

Lemma sumZ_Permutation (l k : list Z) : l ≡ₚ k → sumZ l = sumZ k.
Proof.
  induction 1 as [|x l k _ IH|x y l|l k m _ IH1 _ IH2]; unfold sumZ in *;
    simpl in *; lia.
Qed.

Lemma sumZ_cons (x : Z) (l : list Z) : sumZ (x :: l) = x + sumZ l.
Proof. done. Qed.

Lemma sumZ_fmap_add {A} (f g : A → Z) (l : list A) :
  sumZ ((λ x, f x + g x) <$> l) = sumZ (f <$> l) + sumZ (g <$> l).
Proof.
  induction l as [|x l IH]; [done|].
  rewrite !fmap_cons, !sumZ_cons, IH. lia.
Qed.

Lemma sumZ_fmap_ext {A} (f g : A → Z) (l : list A) :
  Forall (λ x, f x = g x) l → sumZ (f <$> l) = sumZ (g <$> l).
Proof.
  induction 1 as [|x l Hx _ IH]; [done|].
  rewrite !fmap_cons, !sumZ_cons, IH. lia.
Qed.

Lemma sumZ_fmap_0 {A} (l : list A) : sumZ ((λ _, 0) <$> l) = 0.
Proof.
  induction l as [|x l IH]; [done|]. by rewrite fmap_cons, sumZ_cons, IH.
Qed.

Lemma popcount_nonneg (x : Z) : 0 ≤ popcount x.
Proof.
  assert (∀ p, 0 < popcount_pos p) as Hp.
  { induction p; simpl; lia. }
  destruct x as [|p|p]; simpl; [lia|specialize (Hp p); lia..].
Qed.

Section perfect_cells.
Import Perfect.

Lemma insert_by_pop_perm (c : Cell) (l : list Cell) :
  insert_by_pop c l ≡ₚ c :: l.
Proof.
  induction l as [|c' l IH]; simpl; [done|].
  case_decide; [done|]. rewrite IH. apply perm_swap.
Qed.

Lemma sort_by_pop_perm (l : list Cell) : sort_by_pop l ≡ₚ l.
Proof.
  induction l as [|c l IH]; simpl; [done|].
  by rewrite insert_by_pop_perm, IH.
Qed.

Lemma insert_by_pop_sorted (c : Cell) (l : list Cell) :
  StronglySorted (λ a b, pop a ≤ pop b) l →
  StronglySorted (λ a b, pop a ≤ pop b) (insert_by_pop c l).
Proof.
  induction 1 as [|c' l Hs IH Hall]; simpl.
  - repeat constructor.
  - case_decide as Hle.
    + constructor; [by constructor|]. constructor; [done|].
      eapply Forall_impl; [exact Hall|]. simpl. intros; lia.
    + constructor; [done|].
      rewrite insert_by_pop_perm. constructor; [lia|done].
Qed.

Lemma sort_by_pop_sorted (l : list Cell) :
  StronglySorted (λ a b, pop a ≤ pop b) (sort_by_pop l).
Proof.
  induction l as [|c l IH]; simpl; [constructor|].
  by apply insert_by_pop_sorted.
Qed.

Lemma pop_count_cons (p : Z) (c : Cell) (l : list Cell) :
  pop_count p (c :: l) = (if decide (pop c = p) then 1 else 0) + pop_count p l.
Proof.
  unfold pop_count. rewrite filter_cons. case_decide; simpl; lia.
Qed.

Lemma pop_below_cons (p : Z) (c : Cell) (l : list Cell) :
  pop_below p (c :: l) = (if decide (pop c < p) then 1 else 0) + pop_below p l.
Proof.
  unfold pop_below. rewrite filter_cons. case_decide; simpl; lia.
Qed.

Lemma pop_count_nonneg (p : Z) (l : list Cell) : 0 ≤ pop_count p l.
Proof. unfold pop_count. lia. Qed.

Lemma pop_below_succ (p : Z) (l : list Cell) :
  pop_below (p + 1) l = pop_below p l + pop_count p l.
Proof.
  induction l as [|c l IH]; [done|].
  rewrite !pop_below_cons, pop_count_cons, IH. repeat case_decide; lia.
Qed.

Lemma pop_below_0 (p : Z) (l : list Cell) :
  Forall (λ c, p ≤ pop c) l → pop_below p l = 0.
Proof.
  induction 1 as [|c l Hc _ IH]; [done|].
  rewrite pop_below_cons, IH. case_decide; lia.
Qed.

Lemma pop_below_le_length (p : Z) (l : list Cell) :
  pop_below p l ≤ Z.of_nat (length l).
Proof. unfold pop_below. pose proof (length_filter (λ c, pop c < p) l). lia. Qed.

Lemma pop_below_prefix (k : nat) (l : list Cell) :
  pop_below (Z.of_nat k) l
  = sumZ ((λ q, pop_count q l) <$> range (Z.of_nat k)).
Proof.
  induction k as [|k IH].
  - simpl. apply pop_below_0, Forall_forall. intros c _. apply popcount_nonneg.
  - rewrite range_S, fmap_app, sumZ_app. simpl. rewrite <- IH.
    replace (Z.of_nat (S k)) with (Z.of_nat k + 1) by lia.
    rewrite pop_below_succ. lia.
Qed.

(** In a list sorted by population the cells below [p] come first. *)
Lemma sorted_pop_below (l : list Cell) (p : Z) (i : nat) (c : Cell) :
  StronglySorted (λ a b, pop a ≤ pop b) l → l !! i = Some c →
  pop c < p ↔ Z.of_nat i < pop_below p l.
Proof.
  intros Hs. revert i. induction Hs as [|x l Hs IH Hall]; intros i Hi; [done|].
  rewrite pop_below_cons. destruct i as [|i]; simpl in Hi.
  - injection Hi as ->. case_decide as Hlt.
    + pose proof (pop_below_le_length p l). unfold pop_below in *. lia.
    + rewrite pop_below_0; [lia|].
      eapply Forall_impl; [exact Hall|]. simpl. intros; lia.
  - specialize (IH i Hi). case_decide as Hlt; [lia|].
    rewrite pop_below_0 in *; [|eapply Forall_impl; [exact Hall|]; simpl; intros; lia..].
    rewrite Forall_lookup in Hall. specialize (Hall i c Hi). simpl in Hall. lia.
Qed.

Lemma count_pops_lookup (l : list Cell) (p : Z) :
  default 0 (count_pops l !! p) = pop_count p l.
Proof.
  unfold count_pops.
  assert (∀ m : gmap Z Z,
    default 0 (fold_left (λ pop_counts c,
                 let p := pop c in
                 <[p := default 0 (pop_counts !! p) + 1]> pop_counts) l m !! p)
    = default 0 (m !! p) + pop_count p l) as Hgen.
  { induction l as [|c l IH]; intros m; simpl.
    - unfold pop_count. simpl. lia.
    - rewrite IH, pop_count_cons. case_decide as Hp.
      + subst. rewrite lookup_insert_eq. simpl. lia.
      + rewrite lookup_insert_ne by done. lia. }
  rewrite Hgen. rewrite lookup_empty. simpl. lia.
Qed.

(** The weights [p * count] add up to the total population. *)
Lemma sumZ_indicator (q : Z) (k : nat) :
  0 ≤ q →
  sumZ ((λ p, p * (if decide (q = p) then 1 else 0)) <$> seqZ 1 (Z.of_nat k))
  = if decide (q ≤ Z.of_nat k) then q else 0.
Proof.
  intros Hq. induction k as [|k IH].
  - simpl. case_decide; lia.
  - rewrite seqZ_S, fmap_app, sumZ_app, IH. simpl.
    repeat case_decide; lia.
Qed.

Lemma weighted_pop_count (l : list Cell) (w : Z) :
  0 ≤ w → Forall (λ c, pop c ≤ w) l →
  sumZ ((λ p, p * pop_count p l) <$> range2 1 (w + 1)) = total_pop l.
Proof.
  intros Hw Hall. unfold range2, total_pop.
  replace (w + 1 - 1) with (Z.of_nat (Z.to_nat w)) by lia.
  induction Hall as [|c l Hc _ IH].
  - unfold pop_count. simpl.
    rewrite (sumZ_fmap_ext _ (λ _, 0)); [|apply Forall_forall; intros; lia].
    apply sumZ_fmap_0.
  - rewrite (fmap_cons pop), sumZ_cons, <- IH.
    rewrite (sumZ_fmap_ext _
      (λ p, p * (if decide (pop c = p) then 1 else 0) + p * pop_count p l)).
    2:{ apply Forall_forall. intros p _. rewrite pop_count_cons. lia. }
    rewrite sumZ_fmap_add, sumZ_indicator by apply popcount_nonneg.
    rewrite decide_True by lia. done.
Qed.

Lemma total_pop_Permutation (l k : list Cell) :
  l ≡ₚ k → total_pop l = total_pop k.
Proof. intros Hp. unfold total_pop. apply sumZ_Permutation. by rewrite Hp. Qed.

(** The population of the cells is the number of ids they hold. *)
Lemma total_pop_live (l : list Cell) :
  Forall (λ c, 0 ≤ mask c) l →
  total_pop l = Z.of_nat (length (concat (cell_ids <$> l))).
Proof.
  induction 1 as [|c l Hc _ IH]; [done|].
  unfold total_pop in *.
  rewrite !fmap_cons, sumZ_cons, concat_cons, length_app, IH.
  assert (Z.of_nat (length (cell_ids c)) = pop c) as Hlen.
  { unfold cell_ids, pop. rewrite length_fmap. by apply length_bits. }
  lia.
Qed.
End perfect_cells.

(** ** Perfect: reset *)

Lemma range_succ (p : Z) : 0 ≤ p → range (p + 1) = range p ++ [p].
Proof.
  intros Hp. rewrite <- (Z2Nat.id p) at 1 by done.
  replace (Z.of_nat (Z.to_nat p) + 1) with (Z.of_nat (S (Z.to_nat p))) by lia.
  rewrite range_S. by rewrite Z2Nat.id by done.
Qed.

Lemma ceil_div_lt (a b : Z) : 0 < b → (ceil_div a b - 1) * b < a.
Proof.
  intros Hb. unfold ceil_div.
  pose proof (Z.mul_succ_div_gt (- a) b Hb). lia.
Qed.

Section perfect_reset.
Context `{RandomSource R}.
Import Perfect.

Lemma assign_intervals_eval (w0 : Z) (m : gmap Z Z) :
  0 ≤ w0 →
  ∃ ib isz off,
    assign_intervals w0 m = Ret (ib, isz, off) ∧
    length ib = Z.to_nat (w0 + 1) ∧ length isz = Z.to_nat (w0 + 1) ∧
    ∀ p, 0 ≤ p ≤ w0 →
      at_ ib p = sumZ ((λ q, default 0 (m !! q)) <$> range p) ∧
      at_ isz p = default 0 (m !! p).
Proof.
  intros Hw. unfold assign_intervals.
  match goal with |- context [for_each ?b ?xs ?a] =>
    destruct (for_each_inv
      (λ k '(ib, isz, off),
         length ib = Z.to_nat (w0 + 1) ∧ length isz = Z.to_nat (w0 + 1) ∧
         off = sumZ ((λ q, default 0 (m !! q)) <$> range (Z.of_nat k)) ∧
         ∀ p, 0 ≤ p < Z.of_nat k →
           at_ ib p = sumZ ((λ q, default 0 (m !! q)) <$> range p) ∧
           at_ isz p = default 0 (m !! p)) b xs a)
      as ([[ib isz] off] & Hres & Hib & Hisz & Hoff & Hat) end.
  - rewrite !length_replicate. split_and!; try done. intros; lia.
  - intros k x [[ib isz] off] Hx (Hib & Hisz & -> & Hat).
    apply lookup_range in Hx as [-> Hk].
    rewrite !setitem_in_range by lia. simpl. eexists. split; [done|].
    cbv beta iota. rewrite !length_insert. split_and!; try done.
    + rewrite range_S, fmap_app, sumZ_app, fmap_cons, sumZ_cons.
      change (sumZ (_ <$> [])) with 0. lia.
    + intros p Hp. rewrite !at_insert by lia.
      case_decide; [by subst|]. apply Hat. lia.
  - exists ib, isz, off. split; [done|]. split_and!; try done.
    intros p Hp. apply Hat. rewrite length_range. lia.
Qed.

Lemma cell_width_pos (n0 : Z) : 1 ≤ cell_width n0.
Proof. unfold cell_width. lia. Qed.

Lemma build_cells_prefix (n0 w0 : Z) (k : nat) :
  0 ≤ n0 → 1 ≤ w0 → (Z.of_nat k - 1) * w0 < n0 →
  Forall (λ c, 0 ≤ mask c ∧ pop c ≤ w0)
         (build_cells n0 w0 (Z.of_nat k)) ∧
  concat (cell_ids <$> build_cells n0 w0 (Z.of_nat k))
    ≡ₚ range (Z.min (Z.of_nat k * w0) n0).
Proof.
  intros Hn Hw. unfold build_cells. induction k as [|k IH]; intros Hk.
  { split; [constructor|]. simpl. unfold range.
    by rewrite seqZ_nil by lia. }
  destruct IH as [IH1 IH2]; [lia|].
  rewrite range_S, !fmap_app, concat_app.
  set (valid := Z.min w0 (n0 - Z.of_nat k * w0)).
  assert (1 ≤ valid ≤ w0) as Hvalid by (unfold valid; lia).
  pose proof (bits_ones valid ltac:(lia)) as Hbits.
  assert (0 ≤ Z.shiftl 1 valid - 1) as Hmask.
  { rewrite Z.shiftl_1_l. pose proof (Z.pow_pos_nonneg 2 valid). lia. }
  split.
  - apply Forall_app. split; [done|]. constructor; [|constructor].
    simpl. fold valid. split; [done|]. unfold pop. simpl. fold valid.
    rewrite <- length_bits by done. rewrite Hbits, length_range. lia.
  - rewrite IH2. simpl. rewrite app_nil_r. unfold cell_ids. simpl.
    fold valid. rewrite Hbits. unfold range. rewrite fmap_add_seqZ.
    rewrite Z.add_0_r.
    replace (Z.min (Z.of_nat k * w0) n0) with (Z.of_nat k * w0) by lia.
    replace (Z.min (Z.of_nat (S k) * w0) n0)
      with (Z.of_nat k * w0 + valid) by (unfold valid; lia).
    rewrite seqZ_app by lia. done.
Qed.

Lemma Perfect_reset_wf (n0 : Z) (rng : R) :
  0 ≤ n0 →
  ∃ st, reset n0 rng = Ret st ∧ wf st ∧ live st ≡ₚ range n0 ∧
        n st = n0 ∧ num_drawn st = 0 ∧ np_random st = rng.
Proof.
  intros Hn. unfold reset.
  pose proof (cell_width_pos n0) as Hw. set (w0 := cell_width n0) in *.
  set (C := ceil_div n0 w0).
  pose proof (ceil_div_lt n0 w0 ltac:(lia)) as HC1.
  pose proof (ceil_div_ge n0 w0 ltac:(lia)) as HC2. fold C in HC1, HC2.
  assert (0 ≤ C) as HC0 by nia.
  destruct (build_cells_prefix n0 w0 (Z.to_nat C)) as [Hall Hlive];
    [done|done|lia|].
  rewrite Z2Nat.id in Hall, Hlive by done.
  replace (Z.min (C * w0) n0) with n0 in Hlive by lia.
  set (cs := sort_by_pop (build_cells n0 w0 C)) in *.
  pose proof (sort_by_pop_perm (build_cells n0 w0 C)) as Hperm. fold cs in Hperm.
  pose proof (sort_by_pop_sorted (build_cells n0 w0 C)) as Hsorted.
  fold cs in Hsorted.
  rewrite <- Hperm in Hall.
  destruct (assign_intervals_eval w0 (count_pops cs))
    as (ib & isz & off & -> & Hib & Hisz & Hat); [lia|].
  simpl. eexists. split; [done|].
  assert (∀ p, 0 ≤ p ≤ w0 → at_ ib p = pop_below p cs ∧
                             at_ isz p = pop_count p cs) as Hat'.
  { intros p Hp. destruct (Hat p Hp) as [-> ->].
    rewrite count_pops_lookup. split; [|done].
    rewrite <- (Z2Nat.id p) by lia. rewrite pop_below_prefix.
    apply sumZ_fmap_ext, Forall_forall. intros q _.
    apply count_pops_lookup. }
  assert (live (State n0 rng 0 w0 C cs ib isz) ≡ₚ range n0) as Hlive'.
  { unfold live. simpl. rewrite <- Hlive. by apply Permutation_concat_fmap. }
  split_and!; try done.
  split; cbn [n num_drawn w cells interval_begin interval_size]; try done.
  - destruct (Hat' 0) as [-> _]; [lia|]. unfold pop_below. lia.
  - intros p Hp. destruct (Hat' p) as [-> _]; [lia|].
    destruct (Hat' (p - 1)) as [-> ->]; [lia|].
    rewrite <- pop_below_succ. f_equal. lia.
  - intros p Hp. destruct (Hat' p) as [_ ->]; [lia|]. apply pop_count_nonneg.
  - intros p idx Hp. destruct (Hat' p Hp) as [-> ->].
    rewrite <- pop_below_succ. intros Hidx.
    pose proof (pop_below_le_length (p + 1) cs) as Hlen.
    assert (0 ≤ pop_below p cs) by (unfold pop_below; lia).
    destruct (lookup_lt_is_Some_2 cs (Z.to_nat idx)) as [c Hc]; [lia|].
    exists c. split; [done|].
    pose proof (sorted_pop_below cs p _ c Hsorted Hc).
    pose proof (sorted_pop_below cs (p + 1) _ c Hsorted Hc).
    lia.
  - eapply Forall_impl; [exact Hall|]. simpl. tauto.
  - unfold weighted_sizes.
    rewrite (sumZ_fmap_ext _ (λ p, p * pop_count p cs)).
    2:{ apply Forall_forall. intros p Hp. unfold range2 in Hp.
        apply elem_of_seqZ in Hp. destruct (Hat' p) as [_ ->]; [lia|done]. }
    rewrite weighted_pop_count; [|lia|].
    2:{ eapply Forall_impl; [exact Hall|]. simpl. tauto. }
    rewrite total_pop_live.
    2:{ eapply Forall_impl; [exact Hall|]. simpl. tauto. }
    unfold live in Hlive'. simpl in Hlive'. rewrite Hlive'.
    rewrite length_range. lia.
Qed.
End perfect_reset.

(** ** Perfect: draws *)

Lemma insert_cons_perm {A} (l : list A) (i : nat) (x y : A) :
  l !! i = Some x → x :: <[i := y]> l ≡ₚ y :: l.
Proof.
  intros Hx. pose proof (lookup_lt_Some _ _ _ Hx).
  rewrite insert_take_drop by done.
  rewrite <- (take_drop_middle l i x) at 3 by done.
  rewrite !Permutation_middle. apply Permutation_app_head, perm_swap.
Qed.

Lemma swap_perm {A} (l : list A) (i j : nat) (a b : A) :
  i ≠ j → l !! i = Some a → l !! j = Some b →
  <[j := a]> (<[i := b]> l) ≡ₚ l.
Proof.
  intros Hij Ha Hb.
  apply (Permutation_cons_inv (a := b)).
  rewrite (insert_cons_perm (<[i:=b]> l) j b a)
    by (by rewrite list_lookup_insert_ne).
  by rewrite (insert_cons_perm l i a b).
Qed.

Section perfect_draw.
Context `{RandomSource R}.
Import Perfect.

Lemma interval_step (st : state R) (q : Z) (k : nat) :
  wf st → 0 ≤ q → q + 1 + Z.of_nat k ≤ w st →
  at_ (interval_begin st) q + at_ (interval_size st) q
  ≤ at_ (interval_begin st) (q + 1 + Z.of_nat k).
Proof.
  intros Hwf Hq. induction k as [|k IH]; intros Hk.
  - rewrite (wf_adjacent _ Hwf (q + 1 + Z.of_nat 0)) by lia.
    replace (q + 1 + Z.of_nat 0 - 1) with q by lia. lia.
  - rewrite (wf_adjacent _ Hwf (q + 1 + Z.of_nat (S k))) by lia.
    replace (q + 1 + Z.of_nat (S k) - 1) with (q + 1 + Z.of_nat k) by lia.
    pose proof (wf_size_nonneg _ Hwf (q + 1 + Z.of_nat k) ltac:(lia)). lia.
Qed.

Lemma interval_mono (st : state R) (q q' : Z) :
  wf st → 0 ≤ q < q' → q' ≤ w st →
  at_ (interval_begin st) q + at_ (interval_size st) q
  ≤ at_ (interval_begin st) q'.
Proof.
  intros Hwf Hq Hq'.
  pose proof (interval_step st q (Z.to_nat (q' - q - 1)) Hwf) as Hs.
  replace (q + 1 + Z.of_nat (Z.to_nat (q' - q - 1))) with q' in Hs by lia.
  apply Hs; lia.
Qed.

Lemma begin_nonneg (st : state R) (q : Z) :
  wf st → 0 ≤ q ≤ w st → 0 ≤ at_ (interval_begin st) q.
Proof.
  intros Hwf Hq. pose proof (wf_begin0 _ Hwf).
  destruct (decide (q = 0)) as [->|]; [done|].
  pose proof (interval_mono st 0 q Hwf ltac:(lia) ltac:(lia)).
  pose proof (wf_size_nonneg _ Hwf 0 ltac:(lia)). lia.
Qed.

Lemma Perfect_total_weight_eval (st : state R) :
  wf st → total_weight st = Ret (weighted_sizes (interval_size st) (w st)).
Proof.
  intros Hwf. unfold total_weight, weighted_sizes.
  match goal with |- context [for_each ?b ?xs ?a] =>
    destruct (for_each_inv
      (λ k acc, acc = sumZ ((λ p, p * at_ (interval_size st) p)
                               <$> take k (range2 1 (w st + 1)))) b xs a)
      as (tot & -> & Htot) end.
  - done.
  - intros k p acc Hp ->. pose proof Hp as Hp'. unfold range2 in Hp'.
    apply lookup_seqZ in Hp'. destruct Hp' as [-> Hk].
    pose proof (wf_size_len _ Hwf).
    rewrite getitem_at by lia. simpl. eexists. split; [done|].
    rewrite (take_S_r _ _ _ Hp), fmap_app, sumZ_app, fmap_cons, sumZ_cons.
    change (sumZ (_ <$> [])) with 0. lia.
  - rewrite take_ge in Htot by done. by subst.
Qed.

Lemma scan_population_spec (isz : list Z) (r cumul : Z) (ps : list Z) :
  Forall (λ p, 0 ≤ p < Z.of_nat (length isz)) ps →
  cumul ≤ r < cumul + sumZ ((λ p, p * at_ isz p) <$> ps) →
  ∃ p, p ∈ ps ∧ scan_population isz r cumul ps = Ret p ∧ 0 < p * at_ isz p.
Proof.
  intros Hall. revert cumul.
  induction Hall as [|p ps Hp _ IH]; intros cumul Hr.
  - change (sumZ (_ <$> [])) with 0 in Hr. lia.
  - rewrite fmap_cons, sumZ_cons in Hr. simpl.
    rewrite getitem_at by done. simpl. case_decide as Hlt.
    + exists p. split; [left|]. split; [done|lia].
    + destruct (IH (cumul + p * at_ isz p)) as (p' & Hin & Hs & Hpos); [lia|].
      exists p'. split; [by right|done].
Qed.

(** Step 1 succeeds and picks a population that has cells. *)
Lemma Perfect_sample_population_eval (st : state R) :
  wf st → num_drawn st < n st →
  ∃ p rng1, sample_population st = Ret (p, rng1) ∧
            1 ≤ p ≤ w st ∧ 0 < at_ (interval_size st) p.
Proof.
  intros Hwf Hlt. unfold sample_population.
  rewrite (Perfect_total_weight_eval st Hwf). simpl.
  pose proof (wf_weight _ Hwf) as Hweight.
  rewrite decide_False by lia.
  destruct (uniform_int_Ret (np_random st) 0
              (weighted_sizes (interval_size st) (w st) - 1)) as [-> Hr];
    [lia|].
  simpl. destruct (randint _ _ _) as [r rng1]. simpl in *.
  destruct (scan_population_spec (interval_size st) r 0
              (range2 1 (w st + 1))) as (p & Hin & -> & Hpos).
  - apply Forall_seqZ. intros p Hp. rewrite (wf_size_len _ Hwf). lia.
  - fold (weighted_sizes (interval_size st) (w st)). lia.
  - unfold range2 in Hin. apply elem_of_seqZ in Hin.
    simpl. exists p, rng1. split; [done|]. split; [lia|nia].
Qed.

(** Step 2 succeeds and picks a cell of the chosen population. *)
Lemma Perfect_sample_cell_eval (st : state R) (p : Z) (rng1 : R) :
  wf st → 1 ≤ p ≤ w st → 0 < at_ (interval_size st) p →
  ∃ idx cell rng2,
    sample_cell st p rng1 = Ret (idx, cell, rng2) ∧
    at_ (interval_begin st) p ≤ idx
      < at_ (interval_begin st) p + at_ (interval_size st) p ∧
    0 ≤ idx ∧ cells st !! Z.to_nat idx = Some cell ∧ pop cell = p.
Proof.
  intros Hwf Hp Hsz. unfold sample_cell.
  pose proof (wf_size_len _ Hwf). pose proof (wf_begin_len _ Hwf).
  rewrite (getitem_at (interval_size st)) by lia. simpl.
  destruct (uniform_int_Ret rng1 0 (at_ (interval_size st) p - 1))
    as [-> Hr]; [lia|].
  simpl. destruct (randint _ _ _) as [loc rng2]. simpl in *.
  rewrite (getitem_at (interval_begin st)) by lia. simpl.
  pose proof (begin_nonneg st p Hwf ltac:(lia)) as Hb.
  destruct (wf_layout _ Hwf p (at_ (interval_begin st) p + loc))
    as (cell & Hcell & Hpop); [lia|lia|].
  rewrite (getitem_lookup _ _ cell) by (done || lia). simpl.
  exists (at_ (interval_begin st) p + loc), cell, rng2.
  split_and!; (done || lia).
Qed.

(** Step 3 asks for a rank below the population. *)
Lemma Perfect_sample_bit_eval (p : Z) (rng2 : R) :
  1 ≤ p →
  ∃ bit_r rng3, sample_bit p rng2 = Ret (bit_r, rng3) ∧ 0 ≤ bit_r < p.
Proof.
  intros Hp. unfold sample_bit.
  destruct (uniform_int_Ret rng2 0 (p - 1)) as [-> Hr]; [lia|].
  destruct (randint _ _ _) as [bit_r rng3]. simpl in *.
  exists bit_r, rng3. split; [done|lia].
Qed.

(** A rank below the population selects a set bit. *)
Lemma bit_select_in_range (m r : Z) :
  0 ≤ m → 0 ≤ r < popcount m →
  ∃ pos, bit_select m r = Ret pos ∧ pos ∈ bits m.
Proof.
  intros Hm Hr. rewrite bit_select_spec by lia.
  destruct (lookup_lt_is_Some_2 (bits m) (Z.to_nat r)) as [pos Hpos].
  { pose proof (length_bits m Hm). lia. }
  rewrite Hpos. exists pos. split; [done|].
  by eapply list_elem_of_lookup_2.
Qed.

(** The swap of _decrement_cell_population. *)
Lemma Perfect_swap_eval (cells1 : list Cell) (idx f : Z) (a b : Cell) :
  0 ≤ idx → 0 ≤ f →
  cells1 !! Z.to_nat f = Some a → cells1 !! Z.to_nat idx = Some b →
  ∃ cells',
    (if decide (idx ≠ f) then
       a' ← getitem cells1 f;
       b' ← getitem cells1 idx;
       c1 ← setitem cells1 idx a';
       setitem c1 f b'
     else Ret cells1) = Ret cells' ∧
    cells' ≡ₚ cells1 ∧
    cells' !! Z.to_nat f = Some b ∧ cells' !! Z.to_nat idx = Some a ∧
    ∀ j, j ≠ Z.to_nat f → j ≠ Z.to_nat idx → cells' !! j = cells1 !! j.
Proof.
  intros Hidx Hf Ha Hb.
  pose proof (lookup_lt_Some _ _ _ Ha). pose proof (lookup_lt_Some _ _ _ Hb).
  case_decide as Hne.
  - rewrite (getitem_lookup cells1 f a), (getitem_lookup cells1 idx b)
      by done. simpl.
    rewrite setitem_in_range by lia. simpl.
    rewrite setitem_in_range by (rewrite length_insert; lia).
    eexists. split; [done|]. split_and!.
    + apply (swap_perm _ _ _ b a); [lia|done..].
    + rewrite list_lookup_insert_eq; [done|]. rewrite length_insert. lia.
    + rewrite list_lookup_insert_ne by lia.
      by rewrite list_lookup_insert_eq by lia.
    + intros j Hj1 Hj2. by rewrite !list_lookup_insert_ne by lia.
  - assert (idx = f) as -> by lia. assert (a = b) as -> by congruence.
    eexists. split; [done|]. split_and!; done.
Qed.

(** The update of draw: clearing the bit and moving the cell to the
    boundary of its interval keeps the state well-formed and removes
    exactly the drawn id. *)
Lemma Perfect_update_step (st : state R) (p idx pos : Z) (cell : Cell)
    (rng3 : R) :
  wf st → 1 ≤ p ≤ w st →
  at_ (interval_begin st) p ≤ idx
    < at_ (interval_begin st) p + at_ (interval_size st) p →
  0 ≤ idx → cells st !! Z.to_nat idx = Some cell → pop cell = p →
  pos ∈ bits (mask cell) →
  ∃ cells1 cells' ib' isz',
    setitem (cells st) idx (clear_bit cell pos) = Ret cells1 ∧
    decrement_cell_population cells1 (interval_begin st) (interval_size st)
                              idx p = Ret (cells', ib', isz') ∧
    wf (State (n st) rng3 (num_drawn st + 1) (w st) (num_cells st)
              cells' ib' isz') ∧
    concat (cell_ids <$> cells st)
      ≡ₚ (base cell + pos) :: concat (cell_ids <$> cells').
Proof.
  intros Hwf Hp Hint Hidx0 Hcell Hpop Hpos.
  pose proof (wf_size_len _ Hwf) as Hlen_s.
  pose proof (wf_begin_len _ Hwf) as Hlen_b.
  pose proof (begin_nonneg st p Hwf ltac:(lia)) as Hf0.
  pose proof (lookup_lt_Some _ _ _ Hcell) as Hidx_lt.
  assert (0 ≤ mask cell) as Hmask.
  { pose proof (wf_masks _ Hwf) as Hm. rewrite Forall_lookup in Hm.
    by apply (Hm _ _ Hcell). }
  destruct (bits_clear (mask cell) pos Hmask Hpos) as [Hm' Hbits].
  set (cl := clear_bit cell pos).
  assert (pop cl = p - 1) as Hpopcl.
  { unfold pop in *. unfold cl. simpl.
    rewrite <- length_bits in Hpop |- * by done.
    apply Permutation_length in Hbits. simpl in Hbits. lia. }
  set (f := at_ (interval_begin st) p) in *.
  set (s := at_ (interval_size st) p) in *.
  destruct (wf_layout _ Hwf p f) as (c0 & Hc0 & Hpop0); [lia|fold f s; lia|].
  rewrite setitem_in_range by lia.
  set (cells1 := <[Z.to_nat idx := cl]> (cells st)).
  assert (cells1 !! Z.to_nat idx = Some cl) as H1idx.
  { unfold cells1. by rewrite list_lookup_insert_eq by lia. }
  assert (∃ a, cells1 !! Z.to_nat f = Some a ∧
               (idx ≠ f → a = c0) ∧ (idx = f → a = cl)) as (a & H1f & Ha1 & Ha2).
  { destruct (decide (idx = f)) as [->|Hne].
    - exists cl. split; [done|]. split; [done|done].
    - exists c0. split; [|split; [done|lia]].
      unfold cells1. by rewrite list_lookup_insert_ne by lia. }
  destruct (Perfect_swap_eval cells1 idx f a cl Hidx0 Hf0 H1f H1idx)
    as (cells' & Hswap & Hperm & H'f & H'idx & H'other).
  exists cells1, cells'.
  unfold decrement_cell_population.
  rewrite !(getitem_at (interval_begin st)) by lia. cbn [mbind outcome_bind].
  fold f. rewrite Hswap. clear Hswap. cbn [mbind outcome_bind].
  rewrite !setitem_in_range by lia. cbn [mbind outcome_bind].
  rewrite (getitem_at (interval_size st)) by lia. cbn [mbind outcome_bind].
  fold s. rewrite setitem_in_range by lia. cbn [mbind outcome_bind].
  rewrite getitem_at by (rewrite length_insert; lia). cbn [mbind outcome_bind].
  rewrite setitem_in_range by (rewrite length_insert; lia).
  cbn [mbind outcome_bind].
  rewrite at_insert by lia. rewrite decide_False by lia.
  eexists _, _. split; [reflexivity|]. split; [reflexivity|].
  set (ib' := <[Z.to_nat p := f + 1]> (interval_begin st)).
  set (is1 := <[Z.to_nat p := s - 1]> (interval_size st)).
  set (isz' := <[Z.to_nat (p - 1) := at_ (interval_size st) (p - 1) + 1]> is1).
  assert (∀ q, 0 ≤ q →
            at_ ib' q = if decide (q = p) then f + 1
                        else at_ (interval_begin st) q) as Hib'.
  { intros q Hq. unfold ib'. by rewrite at_insert by lia. }
  assert (∀ q, 0 ≤ q →
            at_ isz' q = if decide (q = p - 1)
                         then at_ (interval_size st) (p - 1) + 1
                         else if decide (q = p) then s - 1
                         else at_ (interval_size st) q) as His'.
  { intros q Hq. unfold isz', is1.
    rewrite at_insert by (rewrite ?length_insert; lia).
    case_decide; [done|]. by rewrite at_insert by lia. }
  split.
  - split; cbn [n num_drawn w cells interval_begin interval_size].
    + apply (wf_w _ Hwf).
    + unfold ib'. by rewrite length_insert.
    + unfold isz', is1. by rewrite !length_insert.
    + rewrite Hib' by lia. rewrite decide_False by lia. apply (wf_begin0 _ Hwf).
    + intros q Hq.
      pose proof (wf_adjacent _ Hwf q Hq) as Hadj.
      pose proof (wf_adjacent _ Hwf p ltac:(lia)) as Hadjp. fold f in Hadjp.
      rewrite !Hib', !His' by lia.
      destruct (decide (q = p)) as [->|Hqp].
      * rewrite (decide_False (P := p - 1 = p)) by lia.
        rewrite (decide_True (P := p - 1 = p - 1)) by lia. lia.
      * destruct (decide (q = p + 1)) as [->|Hqp1].
        -- replace (p + 1 - 1) with p in * by lia. fold f s in Hadj.
           rewrite (decide_False (P := p = p - 1)) by lia.
           rewrite !(decide_True (P := p = p)) by lia. lia.
        -- rewrite !(decide_False (P := q - 1 = p)) by lia.
           rewrite (decide_False (P := q - 1 = p - 1)) by lia. lia.
    + intros q Hq. rewrite His' by lia.
      pose proof (wf_size_nonneg _ Hwf q Hq).
      pose proof (wf_size_nonneg _ Hwf (p - 1) ltac:(lia)).
      destruct (decide (q = p - 1)); [lia|].
      destruct (decide (q = p)) as [->|]; [fold s; lia|lia].
    + intros q idx' Hq. rewrite Hib', His' by lia. intros Hidx'.
      pose proof (wf_adjacent _ Hwf p ltac:(lia)) as Hadjp. fold f in Hadjp.
      destruct (decide (q = p)) as [->|Hqp].
      * rewrite decide_False in Hidx' by lia.
        destruct (decide (idx' = idx)) as [->|Hii].
        -- exists a. split; [done|]. rewrite Ha1 by lia. done.
        -- rewrite H'other by lia. unfold cells1.
           rewrite list_lookup_insert_ne by lia.
           apply (wf_layout _ Hwf p); [lia|]. fold f s. lia.
      * destruct (decide (q = p - 1)) as [->|Hqp1].
        -- destruct (decide (idx' = f)) as [->|Hif].
           ++ exists cl. split; [done|done].
           ++ pose proof (begin_nonneg st (p - 1) Hwf ltac:(lia)).
              rewrite H'other by lia. unfold cells1.
              rewrite list_lookup_insert_ne by lia.
              apply (wf_layout _ Hwf (p - 1)); [lia|]. lia.
        -- assert (idx' < f ∨ f + s ≤ idx') as Hout.
           { destruct (decide (q < p)).
             - pose proof (interval_mono st q p Hwf ltac:(lia) ltac:(lia)).
               fold f in H0. lia.
             - pose proof (interval_mono st p q Hwf ltac:(lia) ltac:(lia)).
               fold f s in H0. lia. }
           pose proof (begin_nonneg st q Hwf Hq).
           rewrite H'other by lia. unfold cells1.
           rewrite list_lookup_insert_ne by lia.
           by apply (wf_layout _ Hwf q).
    + rewrite Hperm. unfold cells1. apply Forall_insert; [|done].
      apply (wf_masks _ Hwf).
    + unfold weighted_sizes.
      pose proof (wf_weight _ Hwf) as Hweight. unfold weighted_sizes in Hweight.
      assert (sumZ ((λ q, q * at_ isz' q) <$> range2 1 (w st + 1)) + p
              = sumZ ((λ q, q * at_ (interval_size st) q)
                        <$> range2 1 (w st + 1)) + (p - 1)); [|lia].
      unfold range2.
      replace (w st + 1 - 1) with (Z.of_nat (Z.to_nat (w st))) by lia.
      pose proof (sumZ_indicator p (Z.to_nat (w st)) ltac:(lia)) as Hi1.
      rewrite decide_True in Hi1 by lia.
      pose proof (sumZ_indicator (p - 1) (Z.to_nat (w st)) ltac:(lia)) as Hi2.
      rewrite decide_True in Hi2 by lia.
      match type of Hi1 with ?a = _ => match type of Hi2 with ?b = _ =>
        match goal with |- ?x + _ = ?y + _ =>
          enough (x + a = y + b) by lia end end end.
      clear Hi1 Hi2.
      rewrite <- !sumZ_fmap_add. apply sumZ_fmap_ext, Forall_seqZ.
      intros q Hq. rewrite His' by lia. fold s.
      destruct (decide (q = p - 1)) as [->|].
      { rewrite (decide_False (P := p = p - 1)) by lia.
        rewrite (decide_True (P := p - 1 = p - 1)) by lia. lia. }
      destruct (decide (q = p)) as [->|].
      { rewrite (decide_True (P := p = p)) by lia.
        rewrite (decide_False (P := p - 1 = p)) by lia. fold s. lia. }
      rewrite (decide_False (P := p = q)) by lia.
      rewrite (decide_False (P := p - 1 = q)) by lia. lia.
  - rewrite (Permutation_concat_fmap _ _ _ Hperm).
    unfold cells1. rewrite insert_take_drop by lia.
    rewrite <- (take_drop_middle (cells st) (Z.to_nat idx) cell) at 1 by done.
    rewrite !fmap_app, !fmap_cons, !concat_app, !concat_cons.
    assert (cell_ids cell ≡ₚ (base cell + pos) :: cell_ids cl) as ->.
    { unfold cell_ids, cl. simpl. rewrite Hbits. done. }
    simpl. by rewrite <- Permutation_middle.
Qed.

(** draw, on a well-formed state that is not exhausted, returns an id and
    a well-formed state; the intermediate values are in range. *)
Lemma Perfect_draw_eval (st : state R) :
  wf st → num_drawn st < n st →
  ∃ p rng1 idx cell rng2 bit_r rng3 pos st',
    sample_population st = Ret (p, rng1) ∧
    sample_cell st p rng1 = Ret (idx, cell, rng2) ∧
    sample_bit p rng2 = Ret (bit_r, rng3) ∧
    0 ≤ bit_r < popcount (mask cell) ∧ popcount (mask cell) = p ∧
    bit_select (mask cell) bit_r = Ret pos ∧
    draw st = Ret (base cell + pos, st') ∧
    wf st' ∧ live st ≡ₚ (base cell + pos) :: live st' ∧
    n st' = n st ∧ num_drawn st' = num_drawn st + 1.
Proof.
  intros Hwf Hlt.
  destruct (Perfect_sample_population_eval st Hwf Hlt)
    as (p & rng1 & Hsp & Hp & Hsz).
  destruct (Perfect_sample_cell_eval st p rng1 Hwf Hp Hsz)
    as (idx & cell & rng2 & Hsc & Hint & Hidx0 & Hcell & Hpop).
  destruct (Perfect_sample_bit_eval p rng2) as (bit_r & rng3 & Hsb & Hbr);
    [lia|].
  assert (0 ≤ mask cell) as Hmask.
  { pose proof (wf_masks _ Hwf) as Hm. rewrite Forall_lookup in Hm.
    by apply (Hm _ _ Hcell). }
  destruct (bit_select_in_range (mask cell) bit_r) as (pos & Hbs & Hpos);
    [done|unfold pop in Hpop; lia|].
  destruct (Perfect_update_step st p idx pos cell rng3)
    as (cells1 & cells' & ib' & isz' & Hset & Hdec & Hwf' & Hperm);
    [done..|].
  exists p, rng1, idx, cell, rng2, bit_r, rng3, pos,
    (State (n st) rng3 (num_drawn st + 1) (w st) (num_cells st)
           cells' ib' isz').
  unfold pop in Hpop.
  split; [done|]. split; [done|]. split; [done|]. split; [lia|].
  split; [done|]. split; [done|]. split; [|by split_and!].
  unfold draw. rewrite check_exhausted_lt by done. cbn [mbind outcome_bind].
  rewrite Hsp. cbn [mbind outcome_bind].
  rewrite Hsc. cbn [mbind outcome_bind].
  rewrite Hsb. cbn [mbind outcome_bind].
  rewrite Hbs. cbn [mbind outcome_bind].
  rewrite Hset. cbn [mbind outcome_bind].
  rewrite Hdec. cbn [mbind outcome_bind]. done.
Qed.

Lemma Perfect_draw_step (st st' : state R) (c : Z) :
  wf st → draw st = Ret (c, st') →
  wf st' ∧ live st ≡ₚ c :: live st' ∧
  n st' = n st ∧ num_drawn st' = num_drawn st + 1.
Proof.
  intros Hwf Hd.
  assert (num_drawn st < n st) as Hlt.
  { unfold draw in Hd. apply bind_Ret_inv in Hd as (u & Hu & _).
    by apply check_exhausted_Ret in Hu. }
  destruct (Perfect_draw_eval st Hwf Hlt)
    as (p & rng1 & idx & cell & rng2 & bit_r & rng3 & pos & st1 & _ & _ & _
        & _ & _ & _ & He & Hwf' & Hperm & Hn & Hnd).
  rewrite He in Hd. injection Hd as <- <-. done.
Qed.
End perfect_draw.

(** ** The dealer contract *)

Section contract.
Context `{RandomSource R}.

Lemma Perfect_reset_returns (n0 : Z) (rng : R) :
  ∃ st, Perfect.reset n0 rng = Ret st ∧
        Perfect.n st = n0 ∧ Perfect.num_drawn st = 0.
Proof.
  unfold Perfect.reset.
  destruct (assign_intervals_eval (Perfect.cell_width n0)
              (Perfect.count_pops
                 (Perfect.sort_by_pop
                    (Perfect.build_cells n0 (Perfect.cell_width n0)
                       (ceil_div n0 (Perfect.cell_width n0))))))
    as (ib & isz & off & -> & _).
  { pose proof (cell_width_pos n0). lia. }
  simpl. eauto.
Qed.

(** reset never raises, whatever [n] is. *)
Lemma reset_returns (cls : dealer_class) (n0 : Z) (rng : R) (mb : Z) :
  ∃ dl, reset cls n0 rng mb = Ret dl ∧ class_of dl = cls ∧
        dealer_n dl = n0 ∧ dealer_num_drawn dl = 0.
Proof.
  destruct cls; simpl; try (eexists; split_and!; reflexivity).
  - eexists. split; [done|]. rewrite Adaptive_reset_eq. done.
  - destruct (Perfect_reset_returns n0 rng) as (st & -> & Hn & Hd).
    simpl. eauto.
Qed.

Lemma reset_inv (cls : dealer_class) (n0 : Z) (rng : R) (mb : Z)
    (dl : dealer R) :
  0 ≤ n0 → reset cls n0 rng mb = Ret dl →
  dealer_inv dl ∧ live dl ≡ₚ range n0.
Proof.
  intros Hn Hr.
  destruct (reset_returns cls n0 rng mb) as (dl0 & Hr0 & _ & Hn0 & Hd0).
  rewrite Hr in Hr0. injection Hr0 as <-.
  assert (wf dl ∧ live dl ≡ₚ range n0) as [Hwf Hlive].
  { destruct cls; simpl in Hr.
    - injection Hr as <-. simpl.
      destruct (Bitmap_reset_wf n0 rng Hn) as [? ->]. done.
    - injection Hr as <-. simpl.
      destruct (FisherYates_reset_wf n0 rng Hn) as [? ->]. done.
    - injection Hr as <-. simpl.
      destruct (Adaptive_reset_wf n0 rng mb Hn) as [? ->]. done.
    - destruct (Perfect_reset_wf n0 rng Hn) as (st & Hst & ? & ? & _).
      rewrite Hst in Hr. simpl in Hr. injection Hr as <-. done. }
  split; [|done]. split; [done|..].
  - rewrite Hlive. apply NoDup_seqZ.
  - rewrite Hlive, length_range. lia.
Qed.

(** A draw that returns removes the returned id from the ids still to be
    dealt and counts it. *)
Lemma draw_step (fuel : nat) (dl dl' : dealer R) (c : Z) :
  dealer_inv dl → draw fuel dl = Ret (c, dl') →
  dealer_inv dl' ∧ live dl ≡ₚ c :: live dl' ∧
  dealer_n dl' = dealer_n dl ∧
  dealer_num_drawn dl' = dealer_num_drawn dl + 1 ∧
  class_of dl' = class_of dl.
Proof.
  intros [Hwf Hnd Hcount] Hd.
  assert (wf dl' ∧ live dl ≡ₚ c :: live dl' ∧
          dealer_n dl' = dealer_n dl ∧
          dealer_num_drawn dl' = dealer_num_drawn dl + 1 ∧
          class_of dl' = class_of dl) as (Hwf' & Hperm & Hn & Hdr & Hcls).
  { destruct dl as [st|st|st|st]; simpl in *;
      apply bind_Ret_inv in Hd as ([c' st'] & Hd & Heq);
      injection Heq as <- <-; simpl.
    - destruct (Bitmap_draw_step fuel st st' c' Hwf Hd) as (?&?&?&?). done.
    - destruct (FisherYates_draw_step st st' c' Hwf Hd) as (?&?&?&?). done.
    - destruct (Adaptive_draw_step fuel st st' c' Hwf Hcount Hd)
        as (?&?&?&?). done.
    - destruct (Perfect_draw_step st st' c' Hwf Hd) as (?&?&?&?). done. }
  split_and!; try done. split; [done|..].
  - rewrite Hperm in Hnd. by apply NoDup_cons in Hnd as [_ ?].
  - apply Permutation_length in Hperm. simpl in Hperm. lia.
Qed.

Lemma draw_many_step (k fuel : nat) (dl dl' : dealer R) (cs : list Z) :
  dealer_inv dl → draw_many k fuel dl = Ret (cs, dl') →
  dealer_inv dl' ∧ live dl ≡ₚ cs ++ live dl' ∧ length cs = k ∧
  dealer_n dl' = dealer_n dl ∧
  dealer_num_drawn dl' = dealer_num_drawn dl + Z.of_nat k ∧
  class_of dl' = class_of dl.
Proof.
  revert dl cs. induction k as [|k IH]; intros dl cs Hinv Hd; simpl in Hd.
  - injection Hd as <- <-. split_and!; (done || lia).
  - apply bind_Ret_inv in Hd as ([c dl1] & Hd1 & Hd).
    apply bind_Ret_inv in Hd as ([cs' dl2] & Hd2 & Heq).
    injection Heq as <- <-.
    destruct (draw_step fuel dl dl1 c Hinv Hd1) as (Hinv1 & Hp1 & ? & ? & ?).
    destruct (IH dl1 cs' Hinv1 Hd2) as (Hinv2 & Hp2 & ? & ? & ? & ?).
    split_and!; try done; try (simpl; lia); try congruence.
    simpl. by rewrite Hp1, Hp2.
Qed.

(** An exhausted dealer refuses to draw. *)
Lemma draw_exhausted (fuel : nat) (dl : dealer R) :
  dealer_n dl ≤ dealer_num_drawn dl → draw fuel dl = Raise Exhausted.
Proof.
  intros Hle. destruct dl as [st|st|st|st]; simpl in *.
  - unfold Bitmap.draw, check_exhausted. by rewrite decide_True.
  - unfold FisherYates.draw, check_exhausted. by rewrite decide_True.
  - unfold Adaptive.draw, check_exhausted.
    by rewrite (decide_True (P := Adaptive.n st ≤ Adaptive.num_drawn st)).
  - unfold Perfect.draw, check_exhausted. by rewrite decide_True.
Qed.

Lemma draw_Ret_not_exhausted (fuel : nat) (dl : dealer R) x :
  draw fuel dl = Ret x → dealer_num_drawn dl < dealer_n dl.
Proof.
  intros Hd. destruct (decide (dealer_n dl ≤ dealer_num_drawn dl)); [|lia].
  by rewrite draw_exhausted in Hd.
Qed.

(** What holds of every reachable state, for any [n]. *)
Lemma reachable_basic (cls : dealer_class) (n0 mb : Z) (dl : dealer R) :
  reachable cls n0 mb dl →
  (n0 < 0 → dealer_n dl = n0 ∧ dealer_num_drawn dl = 0) ∧
  (0 ≤ n0 → dealer_inv dl ∧ dealer_n dl = n0 ∧ class_of dl = cls ∧
            0 ≤ dealer_num_drawn dl ≤ n0).
Proof.
  induction 1 as [rng dl Hr|fuel dl c dl' _ [IH1 IH2] Hd].
  - destruct (reset_returns cls n0 rng mb) as (dl0 & Hr0 & Hc & Hn0 & Hd0).
    rewrite Hr in Hr0. injection Hr0 as <-.
    split; [done|]. intros Hn.
    destruct (reset_inv cls n0 rng mb dl Hn Hr) as [Hinv _].
    split_and!; (done || lia).
  - pose proof (draw_Ret_not_exhausted _ _ _ Hd) as Hlt. split.
    + intros Hn. destruct (IH1 Hn). lia.
    + intros Hn. destruct (IH2 Hn) as (Hinv & ? & ? & ?).
      destruct (draw_step fuel dl dl' c Hinv Hd) as (? & ? & ? & ? & ?).
      split_and!; (congruence || lia || done).
Qed.

Lemma reachable_inv (cls : dealer_class) (n0 mb : Z) (dl : dealer R) :
  reachable cls n0 mb dl → dealer_num_drawn dl < dealer_n dl →
  dealer_inv dl ∧ dealer_n dl = n0 ∧ class_of dl = cls ∧ 0 < n0.
Proof.
  intros Hreach Hlt. destruct (reachable_basic _ _ _ _ Hreach) as [H1 H2].
  destruct (decide (n0 < 0)) as [Hneg|Hpos].
  - destruct (H1 Hneg). lia.
  - destruct H2 as (? & ? & ? & ?); [lia|]. split_and!; (done || lia).
Qed.

Lemma draw_many_reachable (cls : dealer_class) (n0 mb : Z) (k fuel : nat)
    (dl dl' : dealer R) (ids : list Z) :
  reachable cls n0 mb dl → draw_many k fuel dl = Ret (ids, dl') →
  reachable cls n0 mb dl'.
Proof.
  revert dl ids. induction k as [|k IH]; intros dl ids Hreach Hd.
  { by injection Hd as <- <-. }
  cbn [draw_many] in Hd.
  apply bind_Ret_inv in Hd as ([c dl1] & Hd1 & Hd).
  apply bind_Ret_inv in Hd as ([cs dl2] & Hd2 & [= <- <-]).
  eapply IH; [|exact Hd2]. by eapply reachable_draw.
Qed.

(** More fuel never changes a result. *)
Lemma draw_mono (fuel fuel' : nat) (dl : dealer R) x :
  (fuel ≤ fuel')%nat → draw fuel dl = Ret x → draw fuel' dl = Ret x.
Proof.
  intros Hle Hd. destruct dl as [st|st|st|st]; simpl in *; try done.
  - apply bind_Ret_inv in Hd as (y & Hd & Heq).
    unfold Bitmap.draw in *.
    apply bind_Ret_inv in Hd as (u & Hu & Hd).
    rewrite Hu. simpl.
    by rewrite (Bitmap_draw_loop_mono fuel fuel' st _ y Hle Hd).
  - apply bind_Ret_inv in Hd as (y & Hd & Heq).
    unfold Adaptive.draw in *.
    apply bind_Ret_inv in Hd as (u & Hu & Hd).
    rewrite Hu. simpl.
    case_decide; [|by rewrite Hd].
    unfold Adaptive.draw_adaptive in *. case_decide; [by rewrite Hd|].
    apply bind_Ret_inv in Hd as (thr & Hthr & Hd). rewrite Hthr. simpl.
    apply (Adaptive_loop_mono fuel fuel' _ _ _ y Hle) in Hd.
    simpl in *. by rewrite Hd.
Qed.

Lemma draw_many_mono (k fuel fuel' : nat) (dl : dealer R) x :
  (fuel ≤ fuel')%nat → draw_many k fuel dl = Ret x →
  draw_many k fuel' dl = Ret x.
Proof.
  intros Hle. revert dl x. induction k as [|k IH]; intros dl x Hd; [done|].
  simpl in *.
  apply bind_Ret_inv in Hd as ([c dl1] & Hd1 & Hd).
  apply bind_Ret_inv in Hd as ([cs dl2] & Hd2 & Heq).
  rewrite (draw_mono fuel fuel' dl _ Hle Hd1). simpl.
  rewrite (IH dl1 _ Hd2). done.
Qed.

(** Fisher-Yates and Perfect have no rejection loop: their draws return
    whatever the source answers. *)
Lemma draw_returns_loopfree (fuel : nat) (dl : dealer R) :
  class_of dl = FisherYatesClass ∨ class_of dl = PerfectClass →
  dealer_inv dl → dealer_num_drawn dl < dealer_n dl →
  returns (draw fuel dl).
Proof.
  intros Hcls [Hwf _ _] Hlt. destruct dl as [st|st|st|st]; simpl in *;
    try (destruct Hcls; discriminate).
  - destruct (FisherYates_draw_eval st Hwf Hlt) as [_ ->]. by eexists.
  - destruct (Perfect_draw_eval st Hwf Hlt)
      as (?&?&?&?&?&?&?&?&?&_&_&_&_&_&_&->&_). by eexists.
Qed.

(** With a fair source every dealer's draw returns, given enough
    iterations. *)
Lemma draw_returns_fair `{!FairSource R} (dl : dealer R) :
  dealer_inv dl → dealer_num_drawn dl < dealer_n dl →
  ∃ fuel, returns (draw fuel dl).
Proof.
  intros Hinv Hlt.
  destruct dl as [st|st|st|st].
  - destruct Hinv as [Hwf _ Hcount]. simpl in *.
    destruct (Bitmap_draw_loop_fair st (Bitmap.np_random st) Hwf)
      as (fuel & [c st'] & Hd).
    { intros Hnil. rewrite Hnil in Hcount. simpl in Hcount. lia. }
    exists fuel. unfold Bitmap.draw. rewrite check_exhausted_lt by done.
    simpl. rewrite Hd. by eexists.
  - exists O. apply draw_returns_loopfree; [by left|done..].
  - destruct Hinv as [Hwf _ Hcount]. simpl in *.
    destruct (Adaptive_draw_returns st Hwf Hcount Hlt) as (fuel & [c st'] & Hd).
    exists fuel. rewrite Hd. by eexists.
  - exists O. apply draw_returns_loopfree; [by right|done..].
Qed.

Lemma draw_many_returns_loopfree (k fuel : nat) (dl : dealer R) :
  class_of dl = FisherYatesClass ∨ class_of dl = PerfectClass →
  dealer_inv dl → dealer_num_drawn dl + Z.of_nat k ≤ dealer_n dl →
  returns (draw_many k fuel dl).
Proof.
  revert dl. induction k as [|k IH]; intros dl Hcls Hinv Hk; simpl.
  - by eexists.
  - destruct (draw_returns_loopfree fuel dl Hcls Hinv) as [[c dl1] Hd]; [lia|].
    rewrite Hd. simpl.
    destruct (draw_step fuel dl dl1 c Hinv Hd) as (Hinv1 & _ & Hn & Hnd & Hc).
    destruct (IH dl1) as [[cs dl2] Hd2]; [by rewrite Hc|done|lia|].
    rewrite Hd2. by eexists.
Qed.

Lemma draw_many_returns_fair `{!FairSource R} (k : nat) (dl : dealer R) :
  dealer_inv dl → dealer_num_drawn dl + Z.of_nat k ≤ dealer_n dl →
  ∃ fuel, returns (draw_many k fuel dl).
Proof.
  revert dl. induction k as [|k IH]; intros dl Hinv Hk.
  - exists O. by eexists.
  - destruct (draw_returns_fair dl Hinv) as (f1 & [c dl1] & Hd); [lia|].
    destruct (draw_step f1 dl dl1 c Hinv Hd) as (Hinv1 & _ & Hn & Hnd & Hc).
    destruct (IH dl1 Hinv1) as (f2 & [cs dl2] & Hd2); [lia|].
    exists (f1 `max` f2)%nat. simpl.
    rewrite (draw_mono f1 (f1 `max` f2)%nat dl _ ltac:(lia) Hd). simpl.
    rewrite (draw_many_mono k f2 (f1 `max` f2)%nat dl1 _ ltac:(lia) Hd2).
    by eexists.
Qed.
End contract.

(** The counter source is fair: within [hi - lo] consecutive calls it
    answers every number of the range. *)
Lemma counter_source_fair : FairSource Z.
Proof.
  intros s lo hi v Hv.
  assert (∀ k, skip lo hi k s = s + Z.of_nat k) as Hskip.
  { induction k as [|k IH]; [unfold skip; simpl; lia|].
    unfold skip in *. rewrite Nat.iter_succ, IH. simpl. lia. }
  exists (Z.to_nat ((v - lo - s) `mod` (hi - lo))).
  rewrite Hskip. simpl.
  pose proof (Z.mod_pos_bound (v - lo - s) (hi - lo) ltac:(lia)).
  rewrite Z2Nat.id by lia.
  rewrite Zplus_mod_idemp_r.
  replace (s + (v - lo - s)) with (v - lo) by lia.
  rewrite Z.mod_small by lia. lia.
Qed.

(** ** peek_next_distribution *)

Lemma dist_total_insert (m : gmap Z Qc) (k : Z) (p : Qc) :
  m !! k = None → dist_total (<[k := p]> m) = (p + dist_total m)%Qc.
Proof.
  intros Hk. unfold dist_total. rewrite map_fold_insert_L; [done| |done].
  intros. ring.
Qed.

Lemma uniform_over_lookup (prob : Qc) (keys : list Z) (m : gmap Z Qc) (k : Z) :
  k ∉ keys → uniform_over prob keys m !! k = m !! k.
Proof.
  revert m. induction keys as [|x keys IH]; intros m Hk; [done|].
  apply not_elem_of_cons in Hk as [Hne Hk]. unfold uniform_over in *.
  simpl. rewrite IH by done. by rewrite lookup_insert_ne.
Qed.

Lemma uniform_over_app (prob : Qc) (l k : list Z) (m : gmap Z Qc) :
  uniform_over prob (l ++ k) m = uniform_over prob k (uniform_over prob l m).
Proof. unfold uniform_over. apply foldl_app. Qed.

Lemma dist_total_uniform_over (prob : Qc) (keys : list Z) (m : gmap Z Qc) :
  NoDup keys → (∀ k, k ∈ keys → m !! k = None) →
  dist_total (uniform_over prob keys m)
  = (Qc_of_Z (Z.of_nat (length keys)) * prob + dist_total m)%Qc.
Proof.
  revert m. induction keys as [|x keys IH]; intros m Hnd Hfresh.
  - change (Z.of_nat (length (@nil Z))) with 0.
    change (uniform_over prob [] m) with m. rewrite Z2Qc_inj_0. ring.
  - apply NoDup_cons in Hnd as [Hx Hnd].
    change (uniform_over prob (x :: keys) m)
      with (uniform_over prob keys (<[x := prob]> m)).
    rewrite IH; [|done|].
    + rewrite dist_total_insert by (apply Hfresh; left).
      change (length (x :: keys)) with (S (length keys)).
      rewrite Nat2Z.inj_succ, <- Z.add_1_r, Z2Qc_inj_add, Z2Qc_inj_1. ring.
    + intros k Hk. rewrite lookup_insert_ne by (intros ->; done).
      apply Hfresh. by right.
Qed.

(** A uniform map over distinct keys sums to 1. *)
Lemma dist_total_uniform (keys : list Z) :
  NoDup keys → keys ≠ [] →
  dist_total (uniform_over (prob_of (Z.of_nat (length keys))) keys ∅) = 1%Qc.
Proof.
  intros Hnd Hne. rewrite dist_total_uniform_over; [|done|done].
  unfold dist_total. rewrite map_fold_empty. unfold prob_of.
  assert (Qc_of_Z (Z.of_nat (length keys)) ≠ 0%Qc) as Hnz.
  { rewrite <- Z2Qc_inj_0. intros Heq. apply Z2Qc_inj in Heq.
    destruct keys; [done|simpl in Heq; lia]. }
  field. done.
Qed.

Lemma uniform_over_shape (prob : Qc) (keys : list Z) (m : gmap Z Qc) :
  NoDup keys → (∀ k, k ∈ keys → m !! k = None) →
  map_Forall (λ _ p, p = prob) m →
  size (uniform_over prob keys m) = (length keys + size m)%nat ∧
  map_Forall (λ _ p, p = prob) (uniform_over prob keys m).
Proof.
  revert m. induction keys as [|x keys IH]; intros m Hnd Hfresh Hall; [done|].
  apply NoDup_cons in Hnd as [Hx Hnd].
  change (uniform_over prob (x :: keys) m)
    with (uniform_over prob keys (<[x := prob]> m)).
  destruct (IH (<[x := prob]> m)) as [Hsize Hforall]; [done|..].
  - intros k Hk. rewrite lookup_insert_ne by (intros ->; done).
    apply Hfresh. by right.
  - by apply map_Forall_insert_2.
  - split; [|done]. rewrite Hsize, map_size_insert_None by (apply Hfresh; left).
    simpl. lia.
Qed.

(** A uniform map over distinct keys has one entry of probability 1/k per
    key, and sums to 1. *)
Lemma uniform_over_uniform (keys : list Z) :
  NoDup keys → keys ≠ [] →
  let dist := uniform_over (prob_of (Z.of_nat (length keys))) keys ∅ in
  dist_total dist = 1%Qc ∧ uniform_dist dist.
Proof.
  intros Hnd Hne dist. split; [by apply dist_total_uniform|].
  destruct (uniform_over_shape (prob_of (Z.of_nat (length keys))) keys ∅)
    as [Hsize Hall]; [done|done|apply map_Forall_empty|].
  exists (Z.of_nat (length keys)). split_and!; [|subst dist|done].
  - destruct keys; [done|simpl; lia].
  - rewrite Hsize, map_size_empty. lia.
Qed.

Lemma dict_of_getitem (l : list Z) (prob : Qc) (rem : Z) :
  0 ≤ rem ≤ Z.of_nat (length l) →
  dict_of (getitem l) prob (range rem)
  = Ret (uniform_over prob (take (Z.to_nat rem) l) ∅).
Proof.
  intros Hrem. unfold dict_of.
  match goal with |- context [for_each ?b ?xs ?a] =>
    destruct (for_each_inv
      (λ k acc, acc = uniform_over prob (take k l) ∅) b xs a)
      as (dist & -> & Hdist) end.
  - done.
  - intros k i acc Hi ->. apply lookup_range in Hi as [-> Hk].
    rewrite getitem_at by lia. simpl. eexists. split; [done|].
    rewrite (take_S_r l k (at_ l (Z.of_nat k))).
    + by rewrite uniform_over_app.
    + rewrite <- (Nat2Z.id k) at 1. apply lookup_at. lia.
  - rewrite length_range in Hdist. by subst.
Qed.

Lemma dict_of_eval {A} (key : A → outcome Z) (g : A → Z) (prob : Qc)
    (xs : list A) :
  Forall (λ x, key x = Ret (g x)) xs →
  dict_of key prob xs = Ret (uniform_over prob (g <$> xs) ∅).
Proof.
  unfold dict_of. generalize (∅ : gmap Z Qc).
  induction xs as [|x xs IH]; intros acc Hall; [done|].
  apply Forall_cons in Hall as [Hx Hall]. simpl. rewrite Hx. simpl.
  by rewrite IH.
Qed.

(** The heads of the pieces that satisfy [P] occur, in order, in the
    concatenation. *)
Lemma heads_sublist (f : Z → list Z) (g : Z → Z) (P : Z → Prop)
    `{!∀ i, Decision (P i)} (l : list Z) :
  (∀ i, i ∈ l → P i → ∃ tl, f i = g i :: tl) →
  (g <$> filter P l) `sublist_of` concat (f <$> l).
Proof.
  induction l as [|x l IH]; intros Hhd; [done|].
  rewrite fmap_cons, concat_cons, filter_cons.
  assert ((g <$> filter P l) `sublist_of` concat (f <$> l)) as IH'.
  { apply IH. intros i Hi. apply Hhd. by right. }
  case_decide as HP.
  - destruct (Hhd x) as [tl ->]; [left|done|].
    rewrite fmap_cons. simpl. apply sublist_skip.
    by apply sublist_inserts_l.
  - by apply sublist_inserts_l.
Qed.

Lemma peek_cell_loop_spec (p : positive) (fuel : nat) (pos cell_base : Z)
    (prob : Qc) (dist : gmap Z Qc) :
  (Pos.size_nat p < fuel)%nat →
  Perfect.peek_cell_loop fuel (Zpos p) pos cell_base prob dist
  = Ret (uniform_over prob (Z.add cell_base <$> Perfect.bits_pos p pos) dist).
Proof.
  revert fuel pos dist.
  induction p as [p IH|p IH|]; intros fuel pos dist Hf;
    (destruct fuel as [|fuel]; [simpl in Hf; lia|]); simpl in Hf.
  - cbn [Perfect.peek_cell_loop Perfect.bits_pos].
    rewrite decide_False by done. rewrite decide_True by done.
    change (Z.shiftr (Z.pos p~1) 1) with (Zpos p).
    by rewrite IH by lia.
  - cbn [Perfect.peek_cell_loop Perfect.bits_pos].
    rewrite decide_False by done.
    rewrite decide_False by (intros Hx; by apply Hx).
    change (Z.shiftr (Z.pos p~0) 1) with (Zpos p).
    by rewrite IH by lia.
  - cbn [Perfect.peek_cell_loop Perfect.bits_pos].
    rewrite decide_False by done. rewrite decide_True by done.
    change (Z.shiftr 1 1) with 0.
    destruct fuel as [|fuel]; [lia|]. done.
Qed.

Lemma peek_cell_spec (prob : Qc) (dist : gmap Z Qc) (c : Perfect.Cell) :
  0 ≤ Perfect.mask c →
  Perfect.peek_cell prob dist c
  = Ret (uniform_over prob (Perfect.cell_ids c) dist).
Proof.
  intros Hm. unfold Perfect.peek_cell, Perfect.cell_ids.
  destruct (Perfect.mask c) as [|p|p]; [done| |lia].
  apply peek_cell_loop_spec, size_nat_log2.
Qed.

Lemma peek_cells_spec (prob : Qc) (cells : list Perfect.Cell)
    (dist : gmap Z Qc) :
  Forall (λ c, 0 ≤ Perfect.mask c) cells →
  for_each (Perfect.peek_cell prob) cells dist
  = Ret (uniform_over prob (concat (Perfect.cell_ids <$> cells)) dist).
Proof.
  intros Hall. revert dist.
  induction Hall as [|c cells Hc _ IH]; intros dist; [done|].
  simpl. rewrite peek_cell_spec by done. simpl.
  by rewrite IH, uniform_over_app.
Qed.

Section peek.
Context `{RandomSource R}.

Lemma Bitmap_peek_eval (st : Bitmap.state R) :
  Bitmap.wf st → 0 ≤ Bitmap.n st →
  Bitmap.peek_next_distribution st
  = Ret (if decide (Bitmap.remaining st = 0) then None
         else Some (uniform_over (prob_of (Bitmap.remaining st))
                                 (Bitmap.live st) ∅)).
Proof.
  intros Hwf Hn. unfold Bitmap.wf in Hwf. unfold Bitmap.peek_next_distribution.
  case_decide; [done|].
  match goal with |- context [for_each ?b ?xs ?a] =>
    destruct (for_each_inv
      (λ k acc, acc = uniform_over (prob_of (Bitmap.remaining st))
                        (filter (λ i, default 0 (Bitmap.available st !! Z.to_nat i) ≠ 0)
                                (take k (range (Bitmap.n st)))) ∅) b xs a)
      as (dist & -> & Hdist) end.
  - done.
  - intros k i acc Hi ->. pose proof Hi as Hi'.
    apply lookup_range in Hi' as [-> Hk].
    rewrite getitem_at by lia. simpl. eexists. split; [done|].
    rewrite (take_S_r _ _ _ Hi), filter_app, uniform_over_app.
    rewrite filter_cons, filter_nil. unfold at_.
    by case_decide.
  - simpl. rewrite take_ge in Hdist by done. subst dist.
    unfold Bitmap.live. rewrite Hwf, Z2Nat.id by done. done.
Qed.

Lemma FisherYates_peek_eval (st : FisherYates.state R) :
  FisherYates.wf st →
  FisherYates.peek_next_distribution st
  = Ret (if decide (FisherYates.remaining st = 0) then None
         else Some (uniform_over (prob_of (FisherYates.remaining st))
                                 (FisherYates.live st) ∅)).
Proof.
  intros [Hrem Hnn Hlen]. unfold FisherYates.peek_next_distribution.
  case_decide; [done|]. unfold FisherYates.remaining in *.
  by rewrite dict_of_getitem by lia.
Qed.

Lemma Perfect_peek_eval (st : Perfect.state R) :
  Perfect.wf st →
  Perfect.peek_next_distribution st
  = Ret (if decide (Perfect.remaining st = 0) then None
         else Some (uniform_over (prob_of (Perfect.remaining st))
                                 (Perfect.live st) ∅)).
Proof.
  intros Hwf. unfold Perfect.peek_next_distribution.
  case_decide; [done|].
  by rewrite peek_cells_spec by apply (Perfect.wf_masks _ Hwf).
Qed.

Lemma Adaptive_drawable_eval (st : Adaptive.state R) (thr i : Z) :
  Adaptive.wf st → 0 ≤ i < Adaptive.d st →
  Adaptive.drawable st thr i
  = Ret (bool_decide (at_ (Adaptive.ell st) i < thr ∧
                      at_ (Adaptive.ell st) i < at_ (Adaptive.sizes st) i)).
Proof.
  intros Hwf Hi. destruct Hwf. unfold Adaptive.drawable.
  rewrite !getitem_at by lia. simpl. case_decide as Ht.
  - f_equal. apply bool_decide_ext. tauto.
  - by rewrite bool_decide_eq_false_2 by tauto.
Qed.

Lemma Adaptive_get_drawable_eval (st : Adaptive.state R) :
  Adaptive.wf st →
  ∃ thr, Adaptive.current_threshold st = Ret thr ∧
    thr = (if decide (Adaptive.t st = 0) then 1
           else ceil_div (Adaptive.t st) (Adaptive.d st) + 1) ∧
    Adaptive.get_drawable_indices st = Ret (Adaptive.drawable_set st thr).
Proof.
  intros Hwf. pose proof (Adaptive.wf_d _ Hwf) as Hd.
  unfold Adaptive.get_drawable_indices, Adaptive.current_threshold.
  eexists. split; [|split; [reflexivity|]].
  { case_decide; [done|]. by rewrite decide_False by lia. }
  set (thr := if decide (Adaptive.t st = 0) then 1
              else ceil_div (Adaptive.t st) (Adaptive.d st) + 1).
  assert ((if decide (Adaptive.t st = 0) then Ret 1
           else if decide (Adaptive.d st = 0) then Raise ZeroDivisionError
           else Ret (ceil_div (Adaptive.t st) (Adaptive.d st) + 1))
          = Ret thr) as ->.
  { unfold thr. case_decide; [done|]. by rewrite decide_False by lia. }
  simpl. unfold Adaptive.drawable_set.
  match goal with |- context [for_each ?b ?xs ?a] =>
    destruct (for_each_inv
      (λ k acc, acc = filter (λ i, at_ (Adaptive.ell st) i < thr ∧
                                   at_ (Adaptive.ell st) i
                                   < at_ (Adaptive.sizes st) i)
                             (take k (range (Adaptive.d st)))) b xs a)
      as (l & -> & Hl) end.
  - done.
  - intros k i acc Hi ->. pose proof Hi as Hi'.
    apply lookup_range in Hi' as [-> Hk].
    rewrite Adaptive_drawable_eval by (done || lia). simpl.
    eexists. split; [done|].
    rewrite (take_S_r _ _ _ Hi), filter_app, filter_cons, filter_nil.
    case_bool_decide; [by rewrite decide_True|].
    rewrite decide_False by done. by rewrite app_nil_r.
  - rewrite take_ge in Hl by done. by subst.
Qed.

(** Some mini-deck is drawable under the threshold peek uses. *)
Lemma Adaptive_peek_drawable_nonempty (st : Adaptive.state R) (thr : Z) :
  Adaptive.wf st → Adaptive.phase st = Adaptive.PhaseAdaptive →
  Adaptive.num_drawn st < Adaptive.n st →
  thr = (if decide (Adaptive.t st = 0) then 1
         else ceil_div (Adaptive.t st) (Adaptive.d st) + 1) →
  Adaptive.drawable_set st thr ≠ [].
Proof.
  intros Hwf Hph Hlt Hthr.
  destruct (Adaptive.wf_adaptive _ Hwf Hph) as (Htn & Hsum & Htd).
  pose proof (Adaptive.wf_d _ Hwf) as Hd.
  pose proof (Adaptive.wf_d_half _ Hwf) as Hdh.
  pose proof (Adaptive.wf_ell_len _ Hwf) as Hlen.
  destruct (sumZ_min (Adaptive.ell st)) as (k & e & Hk & Hle).
  { intros Hnil. rewrite Hnil in Hlen. simpl in Hlen. lia. }
  pose proof (lookup_lt_Some _ _ _ Hk) as Hkl.
  assert (at_ (Adaptive.ell st) (Z.of_nat k) = e) as He.
  { apply at_lookup. by rewrite Nat2Z.id. }
  rewrite Hlen, Z2Nat.id in Hle by lia.
  pose proof (Adaptive.wf_sizes _ Hwf (Z.of_nat k) ltac:(lia)) as Hsz.
  pose proof (Adaptive.wf_ell _ Hwf (Z.of_nat k) ltac:(lia)) as Hell.
  rewrite He in Hell.
  assert (Z.of_nat k ∈ Adaptive.drawable_set st thr) as Hin.
  { unfold Adaptive.drawable_set. apply list_elem_of_filter. split.
    - rewrite He. case_decide as Ht0.
      + assert (e = 0) by nia. subst thr. split; [lia|].
        assert (1 ≤ Adaptive.n st / Adaptive.d st); [|lia].
        apply Z.div_le_lower_bound; [lia|].
        pose proof (Z.mul_div_le (Adaptive.n st) 2 ltac:(lia)). lia.
      + pose proof (ceil_div_ge (Adaptive.t st) (Adaptive.d st) ltac:(lia)).
        split; [subst thr; nia|].
        assert (e + 2 ≤ Adaptive.n st / Adaptive.d st); [|lia].
        apply Z.div_le_lower_bound; [lia|]. nia.
    - unfold range. apply elem_of_seqZ. lia. }
  intros Hnil. rewrite Hnil in Hin. by apply elem_of_nil in Hin.
Qed.
End peek.

Section peek_contract.
Context `{RandomSource R}.

Lemma uniform_peek_ok (rem : Z) (keys : list Z) :
  NoDup keys → Z.of_nat (length keys) = rem →
  ∀ dist, (if decide (rem = 0) then None
           else Some (uniform_over (prob_of rem) keys ∅)) = Some dist →
          dist_total dist = 1%Qc ∧ uniform_dist dist.
Proof.
  intros Hnd Hlen dist. case_decide as Hrem; [done|].
  intros [= <-]. rewrite <- Hlen. apply uniform_over_uniform; [done|].
  intros ->. simpl in Hlen. lia.
Qed.

Lemma Adaptive_peek_spec (st : Adaptive.state R) :
  Adaptive.wf st → NoDup (Adaptive.live st) →
  Z.of_nat (length (Adaptive.live st))
    = Adaptive.n st - Adaptive.num_drawn st →
  0 ≤ Adaptive.num_drawn st ≤ Adaptive.n st →
  ∃ o, Adaptive.peek_next_distribution st = Ret o ∧
       (o = None ↔ Adaptive.num_drawn st = Adaptive.n st) ∧
       ∀ dist, o = Some dist → dist_total dist = 1%Qc ∧ uniform_dist dist.
Proof.
  intros Hwf Hnd Hcount Hrange. unfold Adaptive.peek_next_distribution.
  unfold Adaptive.remaining.
  case_decide as Hrem.
  { exists None. split; [done|]. split; [|done]. split; [lia|done]. }
  case_decide as Hph.
  - destruct (Adaptive.wf_final _ Hwf Hph) as [Hfr Hfr'].
    rewrite decide_False by lia.
    rewrite dict_of_getitem by lia. simpl. eexists. split; [done|].
    split; [split; [done|lia]|].
    intros dist [= <-]. unfold Adaptive.live in Hnd, Hcount.
    rewrite Hph in Hnd, Hcount.
    set (keys := take _ _) in *.
    assert (Adaptive.final_remaining st = Z.of_nat (length keys)) as Hl by lia.
    rewrite Hl. apply uniform_over_uniform; [done|].
    intros Hnil. rewrite Hnil in Hcount. simpl in Hcount. lia.
  - destruct (Adaptive.phase st) eqn:Hp; [|done].
    destruct (Adaptive_get_drawable_eval st Hwf) as (thr & _ & Hthr & ->).
    simpl.
    pose proof (Adaptive_peek_drawable_nonempty st thr Hwf Hp ltac:(lia) Hthr)
      as Hne.
    rewrite decide_False by done.
    rewrite (dict_of_eval _ (λ i, at_ (Adaptive.starts st) i
                                  + at_ (Adaptive.ell st) i)).
    2:{ apply Forall_forall. intros i Hi. unfold Adaptive.drawable_set in Hi.
        apply list_elem_of_filter in Hi as [_ Hi]. unfold range in Hi.
        apply elem_of_seqZ in Hi. destruct Hwf. unfold Adaptive.top_card.
        rewrite !getitem_at by lia. done. }
    simpl. eexists. split; [done|]. split; [split; [done|lia]|].
    intros dist [= <-].
    rewrite <- (length_fmap (λ i, at_ (Adaptive.starts st) i
                                  + at_ (Adaptive.ell st) i)).
    apply uniform_over_uniform.
    + eapply sublist_NoDup; [exact Hnd|].
      unfold Adaptive.live. rewrite Hp. unfold Adaptive.drawable_set.
      apply heads_sublist. intros i _ [_ Hi].
      unfold Adaptive.slice, range2. rewrite seqZ_cons by lia. by eexists.
    + intros Hnil. apply fmap_nil_inv in Hnil. done.
Qed.

(** peek_next_distribution on a state that satisfies the invariant. *)
Lemma peek_spec (dl : dealer R) :
  dealer_inv dl → 0 ≤ dealer_num_drawn dl ≤ dealer_n dl →
  ∃ o, peek_next_distribution dl = Ret o ∧
       (o = None ↔ dealer_num_drawn dl = dealer_n dl) ∧
       ∀ dist, o = Some dist → dist_total dist = 1%Qc ∧ uniform_dist dist.
Proof.
  intros [Hwf Hnd Hcount] Hrange.
  destruct dl as [st|st|st|st]; simpl in *.
  - rewrite Bitmap_peek_eval by (done || lia).
    eexists. split; [done|]. unfold Bitmap.remaining. split.
    + case_decide; split; (done || lia).
    + by apply uniform_peek_ok.
  - rewrite FisherYates_peek_eval by done.
    pose proof (FisherYates.wf_rem _ Hwf) as Hrem.
    eexists. split; [done|]. unfold FisherYates.remaining. split.
    + case_decide; split; (done || lia).
    + apply uniform_peek_ok; [done|lia].
  - by apply Adaptive_peek_spec.
  - rewrite Perfect_peek_eval by done.
    eexists. split; [done|]. unfold Perfect.remaining. split.
    + case_decide; split; (done || lia).
    + by apply uniform_peek_ok.
Qed.
End peek_contract.

(** * The properties of the specification *)

Section spec_properties.
Context `{RandomSource R}.

(** C1: for every dealer (Bitmap, FisherYates, AdaptiveThreshold, Perfect),
    every n >= 2 and every random-source state, reset succeeds and the n
    values returned by draw() after it are a permutation of 0 .. n-1: each
    id appears exactly once.  The n draws do return: always for
    Fisher-Yates and Perfect, and for every dealer when the source is
    fair (the rejection loops of Bitmap and AdaptiveThreshold need the
    source to produce an acceptable candidate). *)
Theorem C1_draws_form_a_permutation (cls : dealer_class) (n m_bits : Z)
    (rng : R) :
  2 ≤ n →
  ∃ dl, reset cls n rng m_bits = Ret dl ∧
    (∀ fuel ids dl', draw_many (Z.to_nat n) fuel dl = Ret (ids, dl') →
                     ids ≡ₚ range n) ∧
    (cls = FisherYatesClass ∨ cls = PerfectClass →
     ∀ fuel, returns (draw_many (Z.to_nat n) fuel dl)) ∧
    (FairSource R → ∃ fuel, returns (draw_many (Z.to_nat n) fuel dl)).
Proof.
  intros Hn.
  destruct (reset_returns cls n rng m_bits) as (dl & Hr & Hcls & Hdn & Hnd).
  destruct (reset_inv cls n rng m_bits dl ltac:(lia) Hr) as [Hinv Hlive].
  exists dl. split; [done|]. split_and!.
  - intros fuel ids dl' Hd.
    destruct (draw_many_step _ _ _ _ _ Hinv Hd)
      as (Hinv' & Hperm & Hlen & Hdn' & Hnd' & _).
    pose proof (inv_count _ Hinv') as Hcount.
    assert (live dl' = []) as Hnil.
    { apply length_zero_iff_nil. lia. }
    rewrite Hnil, app_nil_r in Hperm. by rewrite <- Hperm.
  - intros Hc fuel. apply draw_many_returns_loopfree; [by rewrite Hcls|done|lia].
  - intros Hfair. apply draw_many_returns_fair; [done|lia].
Qed.

(** C3: for every dealer and every state reachable after reset (of a
    deck of n >= 0 cards), peek_next_distribution() returns None if and
    only if the dealer is exhausted (num_drawn == n), and otherwise a map
    of k entries of probability 1/k each, whose probabilities sum to 1
    (exactly, the probabilities being rationals here; the double
    precision sum of the source is within rounding of it). *)
Theorem C3_peek_none_iff_exhausted_else_sums_to_one (cls : dealer_class)
    (n m_bits : Z) (dl : dealer R) :
  0 ≤ n → reachable cls n m_bits dl →
  ∃ o, peek_next_distribution dl = Ret o ∧
       (o = None ↔ dealer_num_drawn dl = dealer_n dl) ∧
       ∀ dist, o = Some dist → dist_total dist = 1%Qc ∧ uniform_dist dist.
Proof.
  intros Hn Hreach.
  destruct (reachable_basic _ _ _ _ Hreach) as [_ Hb].
  destruct (Hb Hn) as (Hinv & Hdn & _ & Hrange).
  apply peek_spec; [done|lia].
Qed.

(** C4: for every dealer and every n >= 1, after reset followed by n
    draws that returned, the next call to draw() raises the Exhausted
    error instead of returning an id. *)
Theorem C4_draw_after_n_draws_is_exhausted (cls : dealer_class)
    (n m_bits : Z) (rng : R) (fuel : nat) (dl dl' : dealer R)
    (ids : list Z) :
  1 ≤ n → reset cls n rng m_bits = Ret dl →
  draw_many (Z.to_nat n) fuel dl = Ret (ids, dl') →
  dealer_num_drawn dl' = n ∧ ∀ fuel', draw fuel' dl' = Raise Exhausted.
Proof.
  intros Hn Hr Hd.
  destruct (reset_returns cls n rng m_bits) as (dl0 & Hr0 & _ & Hdn & Hnd).
  rewrite Hr in Hr0. injection Hr0 as <-.
  destruct (reset_inv cls n rng m_bits dl ltac:(lia) Hr) as [Hinv _].
  destruct (draw_many_step _ _ _ _ _ Hinv Hd) as (_ & _ & _ & Hdn' & Hnd' & _).
  split; [lia|]. intros fuel'. apply draw_exhausted. lia.
Qed.

(** C5 (amended): for the AdaptiveThresholdDealer, whenever the adaptive
    phase is not empty (n - 2d >= 1 for the d that reset derives from n
    and m_bits), the first draw after reset returns, for every
    random-source state, the top of one of the d mini-decks: an element
    of starts.  In particular for n = 104 and m_bits = 64: d = 8, the
    sizes are eight times 13, starts = [0,13,26,39,52,65,78,91], and the
    first id drawn is one of these eight values. *)
Theorem C5_first_draw_is_a_mini_deck_top (n m_bits : Z) (rng : R)
    (fuel : nat) :
  1 ≤ n - 2 * Adaptive.choose_d n m_bits → (0 < fuel)%nat →
  let st := Adaptive.reset n rng m_bits in
  (∃ c st', Adaptive.draw fuel st = Ret (c, st') ∧ c ∈ Adaptive.starts st) ∧
  (n = 104 → m_bits = 64 →
   Adaptive.d st = 8 ∧ Adaptive.sizes st = replicate 8 13 ∧
   Adaptive.starts st = [0; 13; 26; 39; 52; 65; 78; 91]).
Proof.
  intros Hd Hfuel st. split.
  - destruct (Adaptive_reset_wf n rng m_bits) as [Hwf _].
    { pose proof (choose_d_bounds n m_bits). lia. }
    fold st in Hwf.
    assert (Adaptive.d st = Adaptive.choose_d n m_bits ∧ Adaptive.n st = n ∧
            Adaptive.num_drawn st = 0 ∧ Adaptive.t st = 0 ∧
            Adaptive.phase st = Adaptive.PhaseAdaptive ∧
            Adaptive.ell st
              = replicate (Z.to_nat (Adaptive.choose_d n m_bits)) 0)
      as (Hdd & Hnn & Hnd & Ht & Hph & Hell).
    { unfold st. rewrite Adaptive_reset_eq. done. }
    pose proof (Adaptive.wf_d _ Hwf) as Hd1.
    unfold Adaptive.draw. rewrite check_exhausted_lt by lia. simpl.
    rewrite decide_True by done. unfold Adaptive.draw_adaptive.
    change (Adaptive.n (Adaptive.tick st)) with (Adaptive.n st).
    change (Adaptive.d (Adaptive.tick st)) with (Adaptive.d st).
    change (Adaptive.t (Adaptive.tick st)) with (Adaptive.t st + 1).
    change (Adaptive.np_random (Adaptive.tick st)) with (Adaptive.np_random st).
    rewrite decide_False by lia.
    rewrite (Adaptive_threshold_Ret st Hwf). simpl.
    destruct fuel as [|fuel]; [lia|].
    destruct (Adaptive_loop_unfold fuel st
                (ceil_div (Adaptive.t st + 1) (Adaptive.d st) + 1)
                (Adaptive.np_random st) Hwf) as [Hi ->].
    set (i := (randint (Adaptive.np_random st) 0 (Adaptive.d st - 1 + 1)).1)
      in *.
    assert (at_ (Adaptive.ell st) i = 0) as He.
    { apply at_lookup. rewrite Hell. apply lookup_replicate_2. lia. }
    pose proof (Adaptive.wf_sizes _ Hwf i Hi) as Hsz.
    pose proof (ceil_div_ge (Adaptive.t st + 1) (Adaptive.d st) ltac:(lia)).
    assert (2 ≤ Adaptive.n st / Adaptive.d st).
    { apply Z.div_le_lower_bound; lia. }
    rewrite decide_True by (rewrite He; split; nia).
    eexists _, _. split; [done|]. rewrite He, Z.add_0_r.
    apply list_elem_of_lookup. exists (Z.to_nat i). apply lookup_at.
    rewrite (Adaptive.wf_starts_len _ Hwf). lia.
  - intros -> ->. unfold st. rewrite Adaptive_reset_eq. done.
Qed.

(** C6: for the PerfectDealer (of a deck of n >= 0 cards), after reset
    and after every draw, the sum over populations p of
    p * interval_size[p] equals remaining(), and so does the sum of the
    popcounts of all cell masks. *)
Theorem C6_perfect_weights_equal_remaining (n m_bits : Z)
    (st : Perfect.state R) :
  0 ≤ n → reachable PerfectClass n m_bits (PerfectDealer st) →
  Perfect.weighted_sizes (Perfect.interval_size st) (Perfect.w st)
    = Perfect.remaining st ∧
  Perfect.total_weight st = Ret (Perfect.remaining st) ∧
  Perfect.total_pop (Perfect.cells st) = Perfect.remaining st.
Proof.
  intros Hn Hreach.
  destruct (reachable_basic _ _ _ _ Hreach) as [_ Hb].
  destruct (Hb Hn) as ([Hwf _ Hcount] & _). simpl in Hwf, Hcount.
  pose proof (Perfect.wf_weight _ Hwf) as Hweight.
  unfold Perfect.remaining. split_and!.
  - done.
  - rewrite Perfect_total_weight_eval by done. by rewrite Hweight.
  - rewrite total_pop_live by apply (Perfect.wf_masks _ Hwf). done.
Qed.

(** C7: for the PerfectDealer, a draw() on a state whose total
    (the sum of p * interval_size[p] for p = 1..w) is 0 while
    num_drawn < n raises the Inconsistent error; and no state reachable
    by reset and draws takes that branch: there total equals
    remaining() > 0 whenever num_drawn < n, and draw returns. *)
Theorem C7_inconsistent_only_on_corrupt_states (st : Perfect.state R) :
  Perfect.num_drawn st < Perfect.n st →
  (Perfect.total_weight st = Ret 0 → Perfect.draw st = Raise Inconsistent) ∧
  (∀ n m_bits, reachable PerfectClass n m_bits (PerfectDealer st) →
     Perfect.total_weight st = Ret (Perfect.remaining st) ∧
     0 < Perfect.remaining st ∧
     Perfect.draw st ≠ Raise Inconsistent ∧ returns (Perfect.draw st)).
Proof.
  intros Hlt. split.
  - intros Htot. unfold Perfect.draw.
    rewrite check_exhausted_lt by done. simpl.
    unfold Perfect.sample_population. rewrite Htot. simpl. done.
  - intros n m_bits Hreach.
    destruct (reachable_inv _ _ _ _ Hreach Hlt) as ([Hwf _ _] & _).
    simpl in Hwf. pose proof (Perfect.wf_weight _ Hwf) as Hweight.
    destruct (Perfect_draw_eval st Hwf Hlt)
      as (?&?&?&?&?&?&?&?&st'&_&_&_&_&_&_&Hd&_).
    unfold Perfect.remaining. split_and!.
    + rewrite Perfect_total_weight_eval by done. by rewrite Hweight.
    + lia.
    + by rewrite Hd.
    + rewrite Hd. by eexists.
Qed.

(** C8 (amended): for the AdaptiveThresholdDealer, in every reachable
    adaptive-phase state with num_drawn < n, the set of drawable
    mini-decks { i | ell[i] < threshold and ell[i] < sizes[i] } is not
    empty: both the one _get_drawable_indices computes and the one the
    rejection loop of the coming _draw_adaptive samples from.  The
    rejection loop of _draw_adaptive then returns, after finitely many
    iterations, when the random source is fair; a non-empty drawable set
    alone does not make it return for every source. *)
Theorem C8_drawable_set_nonempty (n m_bits : Z) (st : Adaptive.state R) :
  reachable AdaptiveClass n m_bits (AdaptiveThresholdDealer st) →
  Adaptive.phase st = Adaptive.PhaseAdaptive →
  Adaptive.num_drawn st < Adaptive.n st →
  (∃ l, Adaptive.get_drawable_indices st = Ret l ∧ l ≠ []) ∧
  (Adaptive.t st + 1 ≤ Adaptive.n st - 2 * Adaptive.d st →
   ∃ thr, Adaptive.current_threshold (Adaptive.tick st) = Ret thr ∧
          Adaptive.drawable_set (Adaptive.tick st) thr ≠ []) ∧
  (FairSource R →
   ∃ fuel c st', Adaptive.draw_adaptive fuel st = Ret (c, st')).
Proof.
  intros Hreach Hph Hlt.
  destruct (reachable_inv _ _ _ _ Hreach Hlt) as ([Hwf _ Hcount] & _).
  simpl in Hwf, Hcount. split_and!.
  - destruct (Adaptive_get_drawable_eval st Hwf) as (thr & _ & Hthr & ->).
    eexists. split; [done|]. by apply Adaptive_peek_drawable_nonempty.
  - intros Ht. rewrite (Adaptive_threshold_Ret st Hwf).
    eexists. split; [done|].
    destruct (Adaptive_drawable_exists st Hwf Hph Ht) as (i & Hi & He & Hs).
    intros Hnil.
    assert (i ∈ Adaptive.drawable_set (Adaptive.tick st)
                  (ceil_div (Adaptive.t st + 1) (Adaptive.d st) + 1)) as Hin.
    { unfold Adaptive.drawable_set. apply list_elem_of_filter. simpl.
      split; [done|]. unfold range. apply elem_of_seqZ. lia. }
    rewrite Hnil in Hin. by apply elem_of_nil in Hin.
  - intros Hfair.
    destruct (Adaptive_draw_returns st Hwf Hcount Hlt) as (fuel & [c st'] & Hd).
    exists fuel, c, st'. unfold Adaptive.draw in Hd.
    rewrite check_exhausted_lt in Hd by done. simpl in Hd.
    by rewrite decide_True in Hd by done.
Qed.

(** C9 (amended): for every dealer, reset(n, rng, params) with
    -2^53 <= n < 1 does not fail: it returns a dealer with that n and
    num_drawn = 0, and the first draw() on it raises the Exhausted
    error.  (The lower bound keeps n where every operation of reset and
    of the error message is exact: far below it CPython refuses the
    bytes repetition of BitmapDealer.reset, the float division of
    PerfectDealer.reset and the decimal conversion of n.) *)
Theorem C9_reset_does_not_validate_n (cls : dealer_class) (n m_bits : Z)
    (rng : R) :
  - 2 ^ 53 ≤ n < 1 →
  ∃ dl, reset cls n rng m_bits = Ret dl ∧
        dealer_n dl = n ∧ dealer_num_drawn dl = 0 ∧
        ∀ fuel, draw fuel dl = Raise Exhausted.
Proof.
  intros Hn.
  destruct (reset_returns cls n rng m_bits) as (dl & Hr & _ & Hdn & Hnd).
  exists dl. split_and!; try done.
  intros fuel. apply draw_exhausted. lia.
Qed.

(** C10: in every reachable state of the PerfectDealer with
    num_drawn < n, the three sampling steps of draw() succeed and the
    sampled bit rank bit_r is strictly below the popcount of the selected
    cell's mask, which equals the chosen population; so
    bit_select(cell.mask, bit_r) returns a position and never reaches its
    error branch. *)
Theorem C10_bit_select_never_fails (n m_bits : Z) (st : Perfect.state R) :
  reachable PerfectClass n m_bits (PerfectDealer st) →
  Perfect.num_drawn st < Perfect.n st →
  ∃ chosen_pop rng1 cell_idx cell rng2 bit_r rng3 bit_pos,
    Perfect.sample_population st = Ret (chosen_pop, rng1) ∧
    Perfect.sample_cell st chosen_pop rng1 = Ret (cell_idx, cell, rng2) ∧
    Perfect.sample_bit chosen_pop rng2 = Ret (bit_r, rng3) ∧
    0 ≤ bit_r < popcount (Perfect.mask cell) ∧
    popcount (Perfect.mask cell) = chosen_pop ∧
    bit_select (Perfect.mask cell) bit_r = Ret bit_pos.
Proof.
  intros Hreach Hlt.
  destruct (reachable_inv _ _ _ _ Hreach Hlt) as ([Hwf _ _] & _).
  simpl in Hwf.
  destruct (Perfect_draw_eval st Hwf Hlt)
    as (p & rng1 & idx & cell & rng2 & bit_r & rng3 & pos & st'
        & Hsp & Hsc & Hsb & Hbr & Hpop & Hbs & _).
  by exists p, rng1, idx, cell, rng2, bit_r, rng3, pos.
Qed.
End spec_properties.

(** ** The shuffle-guess game *)

Section game.
Context `{RandomSource R}.
Import ShuffleGuessGame.

Lemma step_after_terminal (fuel : nat) (g : game R) (action : Z) :
  done g = true → step fuel g action = Raise EpisodeOver.
Proof. intros Hd. unfold step. by rewrite Hd. Qed.

(** What step does when it returns: the score is compared with the
    card type whatever the action mode is. *)
Lemma step_spec (fuel : nat) (g g' : game R) (action : Z) :
  step fuel g action = Ret g' →
  done g = false ∧
  ∃ drawn_id dl' c,
    draw fuel (the_dealer g) = Ret (drawn_id, dl') ∧
    the_dealer g' = dl' ∧
    last_drawn_id g' = Some drawn_id ∧
    drawn_ids g' = drawn_ids g ++ [drawn_id] ∧
    score g' = score g
               + (if decide (action = drawn_id `mod` NUM_TYPES) then 1 else 0) ∧
    getitem (counts g) (drawn_id `mod` NUM_TYPES) = Ret c ∧
    setitem (counts g) (drawn_id `mod` NUM_TYPES) (int32 (c + 1))
      = Ret (counts g') ∧
    t g' = t g + 1 ∧
    (done g' = true ↔ n g ≤ t g') ∧
    n g' = n g ∧ action_mode g' = action_mode g.
Proof.
  unfold step. destruct (done g) eqn:Hdone; [done|]. intros Hs.
  split; [done|].
  apply bind_Ret_inv in Hs as ([drawn_id dl'] & Hd & Hs).
  apply bind_Ret_inv in Hs as (c & Hc & Hs).
  apply bind_Ret_inv in Hs as (counts' & Hc' & Hs).
  injection Hs as <-. simpl. exists drawn_id, dl', c.
  split_and!; try done.
  - case_decide; lia.
  - case_decide; split; (done || lia).
Qed.
End game.

(** * Concrete runs *)

(** C2 (the code at the failing input): a two-deck game in action mode
    "id" whose dealer draws id 60 first.  The action 60 is legal and
    equals the drawn id, yet the score stays 0; the action 8 differs from
    the drawn id, yet the score becomes 1: step compares the action with
    drawn_id mod 52 in both modes. *)
Theorem C2_step_scores_by_type_in_id_mode :
  ∃ g0 : ShuffleGuessGame.game Z,
    ShuffleGuessGame.init_game 104 2 "id" "fisher_yates" 64 60 = Ret g0 ∧
    ShuffleGuessGame.action_mode g0 = "id" ∧
    ShuffleGuessGame.done g0 = false ∧
    60 ∈ ShuffleGuessGame.get_legal_actions g0 ∧
    (∃ g1, ShuffleGuessGame.step 0 g0 60 = Ret g1 ∧
           ShuffleGuessGame.last_drawn_id g1 = Some 60 ∧
           ShuffleGuessGame.score g1 = ShuffleGuessGame.score g0) ∧
    (∃ g1, ShuffleGuessGame.step 0 g0 8 = Ret g1 ∧
           ShuffleGuessGame.last_drawn_id g1 = Some 60 ∧
           ShuffleGuessGame.score g1 = ShuffleGuessGame.score g0 + 1).
Proof.
  eexists. split; [vm_compute; reflexivity|].
  split; [reflexivity|]. split; [reflexivity|]. split_and!.
  - unfold ShuffleGuessGame.get_legal_actions. simpl.
    unfold range. apply elem_of_seqZ. lia.
  - eexists. split; [vm_compute; reflexivity|]. split; reflexivity.
  - eexists. split; [vm_compute; reflexivity|]. split; reflexivity.
Qed.

Lemma C1_witness :
  ∃ dl : dealer Z, reset AdaptiveClass 104 42 64 = Ret dl ∧
    (∀ fuel ids dl', draw_many (Z.to_nat 104) fuel dl = Ret (ids, dl') →
                     ids ≡ₚ range 104) ∧
    (AdaptiveClass = FisherYatesClass ∨ AdaptiveClass = PerfectClass →
     ∀ fuel, returns (draw_many (Z.to_nat 104) fuel dl)) ∧
    (FairSource Z → ∃ fuel, returns (draw_many (Z.to_nat 104) fuel dl)).
Proof. apply (C1_draws_form_a_permutation AdaptiveClass 104 64 42). lia. Defined.

Lemma C3_witness :
  ∃ dl : dealer Z, reset PerfectClass 5 0 64 = Ret dl ∧
    ∃ o, peek_next_distribution dl = Ret o ∧
         (o = None ↔ dealer_num_drawn dl = dealer_n dl) ∧
         ∀ dist, o = Some dist → dist_total dist = 1%Qc ∧ uniform_dist dist.
Proof.
  eexists. split; [vm_compute; reflexivity|].
  apply (C3_peek_none_iff_exhausted_else_sums_to_one PerfectClass 5 64);
    [lia|].
  apply (reachable_reset _ _ _ (0 : Z)). vm_compute. reflexivity.
Defined.

Lemma C4_witness :
  ∃ (dl dl' : dealer Z) ids,
    reset FisherYatesClass 3 0 64 = Ret dl ∧
    draw_many (Z.to_nat 3) 0 dl = Ret (ids, dl') ∧
    dealer_num_drawn dl' = 3 ∧ ∀ fuel', draw fuel' dl' = Raise Exhausted.
Proof.
  eexists _, _, _. split; [reflexivity|]. split; [vm_compute; reflexivity|].
  eapply (C4_draw_after_n_draws_is_exhausted FisherYatesClass 3 64 (0 : Z) O);
    [lia|reflexivity|vm_compute; reflexivity].
Defined.

(** C5, as stated, fails: with n = 4 and m_bits = 64 reset derives d = 2,
    so n - 2d = 0, the adaptive phase is empty and the first draw comes
    from the final phase, uniformly among all four ids; the counter
    source seeded with 1 draws id 1, which is no mini-deck top. *)
Lemma C5_counterexample :
  ∃ c st', Adaptive.draw 1 (Adaptive.reset 4 (1 : Z) 64) = Ret (c, st') ∧
           Adaptive.starts (Adaptive.reset 4 (1 : Z) 64) = [0; 2] ∧
           c ∉ Adaptive.starts (Adaptive.reset 4 (1 : Z) 64).
Proof.
  eexists _, _. split; [vm_compute; reflexivity|]. split; [reflexivity|].
  change (Adaptive.starts (Adaptive.reset 4 (1 : Z) 64)) with [0; 2].
  intros Hin. apply elem_of_cons in Hin as [?|Hin]; [done|].
  apply elem_of_cons in Hin as [?|Hin]; [done|]. by apply elem_of_nil in Hin.
Qed.

Lemma C5_witness :
  let st := Adaptive.reset 104 (7 : Z) 64 in
  (∃ c st', Adaptive.draw 1 st = Ret (c, st') ∧ c ∈ Adaptive.starts st) ∧
  (104 = 104 → 64 = 64 →
   Adaptive.d st = 8 ∧ Adaptive.sizes st = replicate 8 13 ∧
   Adaptive.starts st = [0; 13; 26; 39; 52; 65; 78; 91]).
Proof.
  apply (C5_first_draw_is_a_mini_deck_top 104 64 (7 : Z) 1);
    [vm_compute; discriminate|lia].
Defined.

Lemma C6_witness :
  ∃ st : Perfect.state Z,
    reset PerfectClass 7 0 64 = Ret (PerfectDealer st) ∧
    Perfect.weighted_sizes (Perfect.interval_size st) (Perfect.w st)
      = Perfect.remaining st ∧
    Perfect.total_weight st = Ret (Perfect.remaining st) ∧
    Perfect.total_pop (Perfect.cells st) = Perfect.remaining st.
Proof.
  eexists. split; [vm_compute; reflexivity|].
  apply (C6_perfect_weights_equal_remaining 7 64); [lia|].
  apply (reachable_reset _ _ _ (0 : Z)). vm_compute. reflexivity.
Defined.

Lemma C7_witness :
  Perfect.draw (Perfect.State 5 (0 : Z) 0 3 2 [] [0; 0; 0; 0] [0; 0; 0; 0])
  = Raise Inconsistent.
Proof.
  apply (C7_inconsistent_only_on_corrupt_states
           (Perfect.State 5 (0 : Z) 0 3 2 [] [0; 0; 0; 0] [0; 0; 0; 0]));
    [simpl; lia|reflexivity].
Defined.

Lemma C8_witness :
  ∃ (dl0 : dealer Z) (ids : list Z) (st : Adaptive.state Z),
    reset AdaptiveClass 104 (5 : Z) 64 = Ret dl0 ∧
    draw_many 3 9 dl0 = Ret (ids, AdaptiveThresholdDealer st) ∧
    (∃ l, Adaptive.get_drawable_indices st = Ret l ∧ l ≠ []) ∧
    (∃ thr, Adaptive.current_threshold (Adaptive.tick st) = Ret thr ∧
            Adaptive.drawable_set (Adaptive.tick st) thr ≠ []) ∧
    (∃ fuel c st', Adaptive.draw_adaptive fuel st = Ret (c, st')).
Proof.
  eexists _, _, _. split; [reflexivity|].
  split; [vm_compute; reflexivity|].
  match goal with
  | |- context [Adaptive.get_drawable_indices ?s] =>
    assert (reachable AdaptiveClass 104 64 (AdaptiveThresholdDealer s))
      as Hreach;
    [|destruct (C8_drawable_set_nonempty 104 64 s Hreach)
        as (Hnonempty & Hnext & Hloop)]
  end.
  - eapply (draw_many_reachable _ _ _ 3 9).
    + apply (reachable_reset _ _ _ (5 : Z)). reflexivity.
    + vm_compute. reflexivity.
  - reflexivity.
  - vm_compute. reflexivity.
  - split; [exact Hnonempty|]. split.
    + apply Hnext. vm_compute. discriminate.
    + apply Hloop, counter_source_fair.
Defined.

(** C9, as stated, fails: no dealer checks [n]; reset(0) returns for each
    of the four classes. *)
Lemma C9_counterexample :
  reset BitmapClass 0 (0 : Z) 64 ≠ Raise InvalidConfig ∧
  reset FisherYatesClass 0 (0 : Z) 64 ≠ Raise InvalidConfig ∧
  reset AdaptiveClass 0 (0 : Z) 64 ≠ Raise InvalidConfig ∧
  reset PerfectClass 0 (0 : Z) 64 ≠ Raise InvalidConfig ∧
  reset BitmapClass (-3) (0 : Z) 64
    = Ret (BitmapDealer (Bitmap.State (-3) 0 0 [])).
Proof. split_and!; try (vm_compute; discriminate). reflexivity. Qed.

Lemma C9_witness :
  ∃ dl : dealer Z, reset PerfectClass (-3) 0 64 = Ret dl ∧
        dealer_n dl = -3 ∧ dealer_num_drawn dl = 0 ∧
        ∀ fuel, draw fuel dl = Raise Exhausted.
Proof.
  apply (C9_reset_does_not_validate_n PerfectClass (-3) 64 (0 : Z)). lia.
Defined.

Lemma C10_witness :
  ∃ st : Perfect.state Z,
    reset PerfectClass 7 3 64 = Ret (PerfectDealer st) ∧
    ∃ chosen_pop rng1 cell_idx cell rng2 bit_r rng3 bit_pos,
      Perfect.sample_population st = Ret (chosen_pop, rng1) ∧
      Perfect.sample_cell st chosen_pop rng1 = Ret (cell_idx, cell, rng2) ∧
      Perfect.sample_bit chosen_pop rng2 = Ret (bit_r, rng3) ∧
      0 ≤ bit_r < popcount (Perfect.mask cell) ∧
      popcount (Perfect.mask cell) = chosen_pop ∧
      bit_select (Perfect.mask cell) bit_r = Ret bit_pos.
Proof.
  eexists. split; [vm_compute; reflexivity|].
  apply (C10_bit_select_never_fails 7 64).
  - apply (reachable_reset _ _ _ (3 : Z)). vm_compute. reflexivity.
  - vm_compute. reflexivity.
Defined.

(** C8, as stated, fails: a non-empty drawable set does not make the
    rejection loop of _draw_adaptive terminate.  A source that always
    answers the low end of the range reaches, after two draws of the
    adaptive dealer (n = 104, m_bits = 64), an adaptive-phase state with
    num_drawn < n whose drawable set is not empty but is never sampled:
    the third draw spins, whatever the number of iterations allowed. *)
Lemma C8_counterexample :
  ∃ st : Adaptive.state unit,
    reachable AdaptiveClass 104 64 (AdaptiveThresholdDealer st) ∧
    Adaptive.phase st = Adaptive.PhaseAdaptive ∧
    Adaptive.num_drawn st < Adaptive.n st ∧
    (∃ l, Adaptive.get_drawable_indices st = Ret l ∧ l ≠ []) ∧
    (∀ fuel, Adaptive.draw_adaptive fuel st = OutOfFuel) ∧
    ∀ fuel, Adaptive.draw fuel st = OutOfFuel.
Proof.
  eexists. split.
  { eapply (reachable_draw _ _ _ 1%nat).
    - eapply (reachable_draw _ _ _ 1%nat).
      + apply (reachable_reset _ _ _ tt). reflexivity.
      + vm_compute. reflexivity.
    - vm_compute. reflexivity. }
  split; [reflexivity|]. split; [vm_compute; reflexivity|].
  split; [eexists; split; [vm_compute; reflexivity|discriminate]|].
  assert (∀ fuel,
            Adaptive.draw_adaptive fuel
              (Adaptive.State 104 tt 2 8 (replicate 8 13)
                 [0; 13; 26; 39; 52; 65; 78; 91] [2; 0; 0; 0; 0; 0; 0; 0]
                 2 Adaptive.PhaseAdaptive [] 0 64)
            = OutOfFuel) as Hspin.
  { intros fuel. unfold Adaptive.draw_adaptive.
    cbn -[Adaptive.adaptive_loop].
    induction fuel as [|fuel IH]; [reflexivity|].
    cbn -[Adaptive.adaptive_loop] in IH. exact IH. }
  split; [exact Hspin|].
  intros fuel. unfold Adaptive.draw. cbn -[Adaptive.draw_adaptive].
  apply Hspin.
Qed.

(** * Further properties of the code *)

(** ** common.py: popcount and bit_select *)

Section more_bits.
Import Perfect.

Lemma bits_pos_sorted (p : positive) (k : Z) :
  StronglySorted Z.lt (bits_pos p k).
Proof.
  revert k. induction p as [p IH|p IH|]; intros k; cbn [bits_pos].
  - constructor; [apply IH|].
    apply Forall_forall. intros x Hx. apply elem_of_bits_pos in Hx. lia.
  - apply IH.
  - repeat constructor.
Qed.

Lemma bits_sorted (m : Z) : StronglySorted Z.lt (bits m).
Proof. destruct m; try constructor. apply bits_pos_sorted. Qed.

Lemma filter_none {A} (P : A → Prop) `{!∀ x, Decision (P x)} (l : list A) :
  Forall (λ y, ¬ P y) l → filter P l = [].
Proof.
  induction 1 as [|y l Hy _ IH]; [done|]. by rewrite filter_cons_False.
Qed.

Lemma sorted_rank (l : list Z) (i : nat) (x : Z) :
  StronglySorted Z.lt l → l !! i = Some x →
  length (filter (λ y, y < x) l) = i.
Proof.
  intros Hs. revert i. induction Hs as [|y l Hs IH Hall]; intros i Hi; [done|].
  destruct i as [|i]; simplify_eq/=.
  - rewrite filter_cons_False by lia.
    rewrite filter_none; [done|].
    eapply Forall_impl; [exact Hall|]. simpl. lia.
  - assert (y < x) as Hyx.
    { eapply Forall_forall in Hall; [exact Hall|]. by eapply list_elem_of_lookup_2. }
    rewrite filter_cons_True by done. simpl. f_equal. by apply IH.
Qed.

Lemma bits_below (m pos : Z) :
  0 ≤ m → 0 ≤ pos →
  popcount (Z.land m (Z.ones pos))
  = Z.of_nat (length (filter (λ y, y < pos) (bits m))).
Proof.
  intros Hm Hpos.
  assert (0 ≤ Z.land m (Z.ones pos)) as Hl by (apply Z.land_nonneg; lia).
  rewrite <- length_bits by done. f_equal. apply Permutation_length.
  apply NoDup_Permutation; [apply NoDup_bits|apply NoDup_filter, NoDup_bits|].
  intros x. rewrite list_elem_of_filter, !elem_of_bits by done.
  rewrite Z.land_spec. split.
  - intros [Hx Hb]. apply andb_true_iff in Hb as [Hb1 Hb2].
    split; [|done].
    destruct (decide (x < pos)) as [|Hge]; [done|].
    rewrite Z.ones_spec_high in Hb2 by lia. done.
  - intros (Hlt & Hx & Hb). split; [done|].
    rewrite Hb, Z.ones_spec_low by lia. done.
Qed.

Lemma bit_select_loop_negative (p : positive) (fuel : nat) (r count pos : Z) :
  (Pos.size_nat p < fuel)%nat → r < count →
  bit_select_loop fuel (Zpos p) r count pos = Raise BitSelectError.
Proof.
  revert fuel count pos.
  induction p as [p IH|p IH|]; intros fuel count pos Hf Hc;
    (destruct fuel as [|fuel]; [simpl in Hf; lia|]); simpl in Hf.
  - cbn [bit_select_loop]. rewrite decide_False by done.
    rewrite decide_True by done. rewrite decide_False by lia.
    change (Z.shiftr (Z.pos p~1) 1) with (Zpos p). apply IH; lia.
  - cbn [bit_select_loop]. rewrite decide_False by done.
    rewrite decide_False by (intros Hx; by apply Hx).
    change (Z.shiftr (Z.pos p~0) 1) with (Zpos p). apply IH; lia.
  - cbn [bit_select_loop]. rewrite decide_False by done.
    rewrite decide_True by done. rewrite decide_False by lia.
    change (Z.shiftr 1 1) with 0.
    destruct fuel as [|fuel]; [lia|]. done.
Qed.

Lemma bit_select_negative (m r : Z) :
  0 ≤ m → r < 0 → bit_select m r = Raise BitSelectError.
Proof.
  intros Hm Hr. unfold bit_select. destruct m as [|p|p]; [done| |lia].
  apply bit_select_loop_negative; [apply size_nat_log2|done].
Qed.

(** X1: bit_select(mask, r) on a non-negative mask returns the position
    of the set bit of rank r: it returns pos exactly when r >= 0, bit pos
    of the mask is set and exactly r set bits lie below pos; it raises the
    ValueError exactly when r is negative or the mask has at most r set
    bits; it never does anything else. *)
Theorem bit_select_returns_the_rth_set_bit (mask r : Z) :
  0 ≤ mask →
  (∀ pos, bit_select mask r = Ret pos ↔
          0 ≤ r ∧ 0 ≤ pos ∧ Z.testbit mask pos = true ∧
          popcount (Z.land mask (Z.ones pos)) = r) ∧
  (bit_select mask r = Raise BitSelectError ↔ r < 0 ∨ popcount mask ≤ r) ∧
  bit_select mask r ≠ OutOfFuel.
Proof.
  intros Hm.
  destruct (decide (r < 0)) as [Hr|Hr].
  { rewrite bit_select_negative by done. split_and!; [|naive_solver|done].
    intros pos. split; [done|lia]. }
  rewrite bit_select_spec by lia.
  pose proof (length_bits mask Hm) as Hlen.
  destruct (bits mask !! Z.to_nat r) as [b|] eqn:Hb.
  - pose proof (lookup_lt_Some _ _ _ Hb) as Hlt.
    pose proof (sorted_rank _ _ _ (bits_sorted mask) Hb) as Hrank.
    assert (b ∈ bits mask) as Hin by by eapply list_elem_of_lookup_2.
    apply elem_of_bits in Hin as [Hb0 Hbt]; [|done].
    split_and!; [|split; [done|lia]|done].
    intros pos. split.
    + intros [= <-]. rewrite bits_below by done. split_and!; [lia|done|done|lia].
    + intros (_ & Hp0 & Hpt & Hcnt). f_equal.
      assert (pos ∈ bits mask) as Hin by by apply elem_of_bits.
      apply list_elem_of_lookup in Hin as [i Hi].
      pose proof (sorted_rank _ _ _ (bits_sorted mask) Hi) as Hrank'.
      rewrite bits_below in Hcnt by done.
      assert (i = Z.to_nat r) as -> by lia. congruence.
  - apply lookup_ge_None in Hb.
    split_and!; [|split; [lia|done]|done].
    intros pos. split; [done|].
    intros (_ & Hp0 & Hpt & Hcnt). exfalso.
    assert (pos ∈ bits mask) as Hin by by apply elem_of_bits.
    apply list_elem_of_lookup in Hin as [i Hi].
    pose proof (sorted_rank _ _ _ (bits_sorted mask) Hi) as Hrank'.
    rewrite bits_below in Hcnt by done.
    pose proof (lookup_lt_Some _ _ _ Hi). lia.
Qed.
End more_bits.

Lemma bit_select_returns_the_rth_set_bit_witness :
  (∀ pos, bit_select 22 1 = Ret pos ↔
          0 ≤ 1 ∧ 0 ≤ pos ∧ Z.testbit 22 pos = true ∧
          popcount (Z.land 22 (Z.ones pos)) = 1) ∧
  (bit_select 22 1 = Raise BitSelectError ↔ 1 < 0 ∨ popcount 22 ≤ 1) ∧
  bit_select 22 1 ≠ OutOfFuel.
Proof. apply (bit_select_returns_the_rth_set_bit 22 1). lia. Defined.

(** ** The dealer contract, between reset and exhaustion *)

Section more_contract.
Context `{RandomSource R}.

Lemma remaining_eq (dl : dealer R) :
  wf dl → remaining dl = dealer_n dl - dealer_num_drawn dl.
Proof. destruct dl as [st|st|st|st]; intros Hwf; try done. apply Hwf. Qed.

Lemma uniform_over_lookup_elem (prob : Qc) (keys : list Z) (m : gmap Z Qc)
    (k : Z) :
  k ∈ keys → uniform_over prob keys m !! k = Some prob.
Proof.
  revert m. induction keys as [|x keys IH]; intros m Hk.
  { by apply elem_of_nil in Hk. }
  unfold uniform_over in *. simpl.
  destruct (decide (k ∈ keys)) as [Hin|Hin]; [by apply IH|].
  apply elem_of_cons in Hk as [->|Hk]; [|done].
  fold (uniform_over prob keys (<[x:=prob]> m)).
  rewrite uniform_over_lookup by done. apply lookup_insert_eq.
Qed.

Lemma uniform_over_lookup_empty (prob : Qc) (keys : list Z) (k : Z) :
  uniform_over prob keys ∅ !! k
  = if decide (k ∈ keys) then Some prob else None.
Proof.
  case_decide as Hk; [by apply uniform_over_lookup_elem|].
  by rewrite uniform_over_lookup.
Qed.

(** What the draws made so far leave: after reset on [n0 ≥ 0] and [k]
    draws that returned [ids], the live ids are those not in [ids]. *)
Lemma drawn_and_live (cls : dealer_class) (n0 mb : Z) (rng : R)
    (k fuel : nat) (dl dl' : dealer R) (ids : list Z) :
  0 ≤ n0 → reset cls n0 rng mb = Ret dl →
  draw_many k fuel dl = Ret (ids, dl') →
  dealer_inv dl' ∧ ids ++ live dl' ≡ₚ range n0 ∧ length ids = k ∧
  dealer_n dl' = n0 ∧ dealer_num_drawn dl' = Z.of_nat k ∧
  class_of dl' = cls.
Proof.
  intros Hn Hr Hd.
  destruct (reset_returns cls n0 rng mb) as (dl0 & Hr0 & Hc & Hdn & Hnd).
  rewrite Hr in Hr0. injection Hr0 as <-.
  destruct (reset_inv cls n0 rng mb dl Hn Hr) as [Hinv Hlive].
  destruct (draw_many_step _ _ _ _ _ Hinv Hd)
    as (Hinv' & Hperm & Hlen & Hdn' & Hnd' & Hc').
  split_and!; [done| |done|congruence|lia|congruence].
  by rewrite <- Hperm.
Qed.

Lemma live_iff_not_drawn (n0 : Z) (ids lv : list Z) (c : Z) :
  ids ++ lv ≡ₚ range n0 → (c ∈ lv ↔ 0 ≤ c < n0 ∧ c ∉ ids).
Proof.
  intros Hperm.
  assert (NoDup (ids ++ lv)) as Hnd.
  { rewrite Hperm. apply NoDup_seqZ. }
  apply NoDup_app in Hnd as (_ & Hdisj & _).
  assert (∀ x, x ∈ ids ++ lv ↔ 0 ≤ x < n0) as Hel.
  { intros x. rewrite Hperm. unfold range. rewrite elem_of_seqZ. lia. }
  split.
  - intros Hc. split; [apply Hel, elem_of_app; by right|].
    intros Hin. by eapply Hdisj.
  - intros [Hc Hni]. apply Hel, elem_of_app in Hc as [?|?]; done.
Qed.

(** X2: for every dealer and every n >= 0, if the first k calls of draw()
    after reset return, then k <= n, the k ids are pairwise distinct
    members of 0 .. n-1, remaining() is n - k and num_drawn is k.  (For
    Fisher-Yates remaining() reads the separate field _remaining, which
    therefore stays equal to n - num_drawn.) *)
Theorem draws_are_distinct_and_counted (cls : dealer_class) (n m_bits : Z)
    (rng : R) (k fuel : nat) (dl dl' : dealer R) (ids : list Z) :
  0 ≤ n → reset cls n rng m_bits = Ret dl →
  draw_many k fuel dl = Ret (ids, dl') →
  Z.of_nat k ≤ n ∧ length ids = k ∧ NoDup ids ∧
  (∀ c, c ∈ ids → 0 ≤ c < n) ∧
  remaining dl' = n - Z.of_nat k ∧ dealer_num_drawn dl' = Z.of_nat k.
Proof.
  intros Hn Hr Hd.
  destruct (drawn_and_live _ _ _ _ _ _ _ _ _ Hn Hr Hd)
    as (Hinv & Hperm & Hlen & Hdn & Hnd & _).
  pose proof (inv_count _ Hinv) as Hcount.
  assert (NoDup (ids ++ live dl')) as Hnodup.
  { rewrite Hperm. apply NoDup_seqZ. }
  apply NoDup_app in Hnodup as (Hnodup & _ & _).
  split_and!; [lia|done|done| | |done].
  - intros c Hc.
    assert (c ∈ range n) as Hin.
    { rewrite <- Hperm. apply elem_of_app. by left. }
    unfold range in Hin. apply elem_of_seqZ in Hin. lia.
  - rewrite remaining_eq by apply Hinv. lia.
Qed.

Lemma uniform_peek_eval (dl : dealer R) :
  dealer_inv dl → 0 ≤ dealer_n dl →
  (∀ st, dl = AdaptiveThresholdDealer st →
         Adaptive.phase st = Adaptive.PhaseFinal) →
  peek_next_distribution dl
  = Ret (if decide (dealer_n dl - dealer_num_drawn dl = 0) then None
         else Some (uniform_over
                      (prob_of (dealer_n dl - dealer_num_drawn dl))
                      (live dl) ∅)).
Proof.
  intros Hinv Hn Hph. pose proof (inv_wf _ Hinv) as Hwf.
  destruct dl as [st|st|st|st]; simpl in *.
  - by apply Bitmap_peek_eval.
  - rewrite FisherYates_peek_eval by done.
    unfold FisherYates.remaining. by rewrite (FisherYates.wf_rem _ Hwf).
  - specialize (Hph st eq_refl).
    destruct (Adaptive.wf_final _ Hwf Hph) as [Hfr Hfr'].
    unfold Adaptive.peek_next_distribution, Adaptive.remaining, Adaptive.live.
    rewrite Hph. case_decide as Hrem; [done|].
    rewrite decide_True by done. rewrite decide_False by lia.
    rewrite dict_of_getitem by lia. simpl. by rewrite Hfr'.
  - by apply Perfect_peek_eval.
Qed.

Lemma adaptive_peek_keys (st : Adaptive.state R) (dist : gmap Z Qc) (c : Z) :
  Adaptive.wf st → Adaptive.phase st = Adaptive.PhaseAdaptive →
  Adaptive.peek_next_distribution st = Ret (Some dist) →
  is_Some (dist !! c) → c ∈ Adaptive.live st.
Proof.
  intros Hwf Hp. unfold Adaptive.peek_next_distribution.
  case_decide as Hrem; [done|].
  rewrite decide_False by (by rewrite Hp).
  destruct (Adaptive_get_drawable_eval st Hwf) as (thr & _ & _ & ->).
  simpl. case_decide as Hne; [done|].
  rewrite (dict_of_eval _ (λ i, at_ (Adaptive.starts st) i
                                + at_ (Adaptive.ell st) i)).
  2:{ apply Forall_forall. intros i Hi. unfold Adaptive.drawable_set in Hi.
      apply list_elem_of_filter in Hi as [_ Hi]. unfold range in Hi.
      apply elem_of_seqZ in Hi. destruct Hwf. unfold Adaptive.top_card.
      rewrite !getitem_at by lia. done. }
  simpl. intros [= <-] Hsome.
  rewrite uniform_over_lookup_empty in Hsome.
  case_decide as Hin; [|by destruct Hsome].
  eapply elem_of_sublist; [exact Hin|].
  unfold Adaptive.live. rewrite Hp. unfold Adaptive.drawable_set.
  apply heads_sublist. intros i _ [_ Hi].
  unfold Adaptive.slice, range2. rewrite seqZ_cons by lia. by eexists.
Qed.

Lemma peek_keys_live (dl : dealer R) (dist : gmap Z Qc) (c : Z) :
  dealer_inv dl → 0 ≤ dealer_n dl →
  peek_next_distribution dl = Ret (Some dist) →
  is_Some (dist !! c) → c ∈ live dl.
Proof.
  intros Hinv Hn Hpeek Hc.
  assert ((∃ st, dl = AdaptiveThresholdDealer st ∧
                 Adaptive.phase st = Adaptive.PhaseAdaptive) ∨
          (∀ st, dl = AdaptiveThresholdDealer st →
                 Adaptive.phase st = Adaptive.PhaseFinal))
    as [(st & -> & Hp)|Hfin].
  { destruct dl as [s|s|s|s]; try (right; by intros st [=]).
    destruct (Adaptive.phase s) eqn:Hp;
      [left; by exists s|right; by intros st [= <-]]. }
  { eapply adaptive_peek_keys; [apply Hinv|done|exact Hpeek|done]. }
  rewrite uniform_peek_eval in Hpeek by done.
  case_decide; [done|]. injection Hpeek as <-.
  rewrite uniform_over_lookup_empty in Hc.
  case_decide; [done|by destruct Hc].
Qed.

(** X3: for every dealer and every n >= 0, after reset and k < n draws
    that returned the ids [ids], peek_next_distribution() returns a map
    whose keys are ids of 0 .. n-1 that were not drawn yet: it never
    offers a card that was already dealt.  For Bitmap, Fisher-Yates and
    Perfect, and for AdaptiveThreshold once it is in its final phase, the
    keys are all the ids not drawn yet, each with probability 1/(n-k),
    and the id the next draw() returns is one of the keys. *)
Theorem peek_offers_only_undrawn_ids (cls : dealer_class) (n m_bits : Z)
    (rng : R) (k fuel : nat) (dl0 dl : dealer R) (ids : list Z) :
  0 ≤ n → reset cls n rng m_bits = Ret dl0 →
  draw_many k fuel dl0 = Ret (ids, dl) → Z.of_nat k < n →
  ∃ dist, peek_next_distribution dl = Ret (Some dist) ∧
    (∀ c, is_Some (dist !! c) → 0 ≤ c < n ∧ c ∉ ids) ∧
    ((∀ st, dl = AdaptiveThresholdDealer st →
            Adaptive.phase st = Adaptive.PhaseFinal) →
     (∀ c, dist !! c = if decide (0 ≤ c < n ∧ c ∉ ids)
                       then Some (prob_of (n - Z.of_nat k)) else None) ∧
     ∀ fuel' c dl', draw fuel' dl = Ret (c, dl') →
                    dist !! c = Some (prob_of (n - Z.of_nat k))).
Proof.
  intros Hn Hr Hd Hk.
  destruct (drawn_and_live _ _ _ _ _ _ _ _ _ Hn Hr Hd)
    as (Hinv & Hperm & Hlen & Hdn & Hnd & _).
  pose proof (λ c, live_iff_not_drawn _ _ _ c Hperm) as Hlive.
  destruct (peek_spec dl Hinv ltac:(lia)) as (o & Ho & Hnone & _).
  destruct o as [dist|];
    [|destruct Hnone as [Hnone _]; specialize (Hnone eq_refl); lia].
  exists dist. split; [done|]. split.
  - intros c Hc. apply Hlive. eapply peek_keys_live; [done|lia|done|done].
  - intros Hph. rewrite uniform_peek_eval in Ho by (done || lia).
    rewrite Hdn, Hnd in Ho. rewrite decide_False in Ho by lia.
    injection Ho as <-.
    assert (∀ c, uniform_over (prob_of (n - Z.of_nat k)) (live dl) ∅ !! c
                 = if decide (0 ≤ c < n ∧ c ∉ ids)
                   then Some (prob_of (n - Z.of_nat k)) else None) as Hlook.
    { intros c. rewrite uniform_over_lookup_empty.
      destruct (decide (c ∈ live dl)) as [Hin|Hin].
      - rewrite decide_True; [done|]. by apply Hlive.
      - rewrite decide_False; [done|]. by rewrite <- Hlive. }
    split; [done|]. intros fuel' c dl' Hdraw.
    destruct (draw_step _ _ _ _ Hinv Hdraw) as (_ & Hp & _).
    rewrite Hlook, decide_True; [done|]. apply Hlive.
    rewrite Hp. apply elem_of_cons. by left.
Qed.
End more_contract.

Lemma draws_are_distinct_and_counted_witness :
  ∃ (dl dl' : dealer Z) ids,
    reset PerfectClass 7 3 64 = Ret dl ∧
    draw_many 4 0 dl = Ret (ids, dl') ∧
    Z.of_nat 4 ≤ 7 ∧ length ids = 4%nat ∧ NoDup ids ∧
    (∀ c, c ∈ ids → 0 ≤ c < 7) ∧
    remaining dl' = 7 - Z.of_nat 4 ∧ dealer_num_drawn dl' = Z.of_nat 4.
Proof.
  eexists _, _, _. split; [vm_compute; reflexivity|].
  split; [vm_compute; reflexivity|].
  eapply (draws_are_distinct_and_counted PerfectClass 7 64 (3 : Z) 4 O);
    [lia|vm_compute; reflexivity|vm_compute; reflexivity].
Defined.

Lemma peek_offers_only_undrawn_ids_witness :
  ∃ (dl0 dl : dealer Z) ids,
    reset FisherYatesClass 5 2 64 = Ret dl0 ∧
    draw_many 2 0 dl0 = Ret (ids, dl) ∧
    ∃ dist, peek_next_distribution dl = Ret (Some dist) ∧
      (∀ c, is_Some (dist !! c) → 0 ≤ c < 5 ∧ c ∉ ids) ∧
      ((∀ st, dl = AdaptiveThresholdDealer st →
              Adaptive.phase st = Adaptive.PhaseFinal) →
       (∀ c, dist !! c = if decide (0 ≤ c < 5 ∧ c ∉ ids)
                         then Some (prob_of (5 - Z.of_nat 2)) else None) ∧
       ∀ fuel' c dl', draw fuel' dl = Ret (c, dl') →
                      dist !! c = Some (prob_of (5 - Z.of_nat 2))).
Proof.
  eexists _, _, _. split; [vm_compute; reflexivity|].
  split; [vm_compute; reflexivity|].
  eapply (peek_offers_only_undrawn_ids FisherYatesClass 5 64 (2 : Z) 2 O);
    [lia|vm_compute; reflexivity|vm_compute; reflexivity|lia].
Defined.

(** ** adaptive_threshold.py: the partition and the schedule *)

Section more_adaptive.
Context `{RandomSource R}.
Import Adaptive.

Lemma sum_sizes_prefix (q extra : Z) (k : nat) :
  0 ≤ extra →
  sumZ (size_of q extra <$> range (Z.of_nat k))
  = start_of q extra (Z.of_nat k).
Proof.
  intros He. induction k as [|k IH]; [unfold start_of; simpl; lia|].
  rewrite range_S, fmap_app, sumZ_app, IH.
  rewrite fmap_cons, sumZ_cons. change (sumZ (_ <$> [])) with 0.
  unfold start_of, size_of. case_decide; lia.
Qed.

Lemma choose_d_budget (n0 mb : Z) : choose_d n0 mb ≤ Z.max 1 (mb / 8).
Proof. unfold choose_d. case_decide; lia. Qed.

(** X4: reset of the AdaptiveThresholdDealer, for n >= 0, cuts 0 .. n-1
    into d = choose_d(n, m_bits) mini-decks with 1 <= d <= max(1, n // 2)
    and d <= max(1, m_bits // 8): sizes and starts have d entries, the
    first n mod d mini-decks have n // d + 1 cards and the others n // d
    (sizes differ by at most one), the sizes add up to n, starts[0] = 0,
    each mini-deck starts where the previous one ends, and the last one
    ends at n. *)
Theorem adaptive_reset_partitions_the_deck (n m_bits : Z) (rng : R) :
  0 ≤ n →
  let st := reset n rng m_bits in
  1 ≤ d st ≤ Z.max 1 (n / 2) ∧ d st ≤ Z.max 1 (m_bits / 8) ∧
  length (sizes st) = Z.to_nat (d st) ∧
  length (starts st) = Z.to_nat (d st) ∧
  (∀ i, 0 ≤ i < d st →
        at_ (sizes st) i
        = n / d st + (if decide (i < n `mod` d st) then 1 else 0)) ∧
  sumZ (sizes st) = n ∧
  at_ (starts st) 0 = 0 ∧
  (∀ i, 0 ≤ i → i + 1 < d st →
        at_ (starts st) (i + 1) = at_ (starts st) i + at_ (sizes st) i) ∧
  at_ (starts st) (d st - 1) + at_ (sizes st) (d st - 1) = n.
Proof.
  intros Hn st. unfold st. rewrite Adaptive_reset_eq.
  pose proof (choose_d_bounds n m_bits) as Hd.
  pose proof (choose_d_budget n m_bits) as Hb.
  set (d0 := choose_d n m_bits) in *.
  pose proof (Z.mod_pos_bound n d0 ltac:(lia)) as Hm.
  pose proof (Z.div_mod n d0 ltac:(lia)) as Hdm.
  cbn [d sizes starts].
  split_and!; try done; try lia.
  - by rewrite length_fmap, length_range.
  - by rewrite length_fmap, length_range.
  - intros i Hi. by rewrite at_fmap_range.
  - pose proof (sum_sizes_prefix (n / d0) (n `mod` d0) (Z.to_nat d0)
                  ltac:(lia)) as Hs.
    rewrite Z2Nat.id in Hs by lia. rewrite Hs. unfold start_of. lia.
  - rewrite at_fmap_range by lia. unfold start_of. lia.
  - intros i Hi0 Hi. rewrite !at_fmap_range by lia.
    unfold start_of, size_of. case_decide; lia.
  - rewrite !at_fmap_range by lia.
    unfold start_of, size_of. case_decide; lia.
Qed.

Lemma ceil_div_mono (a b c : Z) : 0 < c → a ≤ b → ceil_div a c ≤ ceil_div b c.
Proof.
  intros Hc Hab. unfold ceil_div.
  pose proof (Z.div_le_mono (- b) (- a) c Hc ltac:(lia)). lia.
Qed.

Lemma Adaptive_draw_final_fields (st st' : state R) (c : Z) :
  draw_final st = Ret (c, st') →
  n st' = n st ∧ d st' = d st ∧ ell st' = ell st ∧ t st' = t st ∧
  phase st' = phase st ∧ num_drawn st' = num_drawn st + 1.
Proof.
  unfold draw_final. case_decide; [done|]. intros Hd.
  apply bind_Ret_inv in Hd as ([i rng] & _ & Hd).
  apply bind_Ret_inv in Hd as (out & _ & Hd).
  apply bind_Ret_inv in Hd as (lst & _ & Hd).
  apply bind_Ret_inv in Hd as (cards & _ & Hd).
  by injection Hd as <- <-.
Qed.

Lemma Adaptive_loop_fields (fuel : nat) (st st' : state R) (thr : Z)
    (rng : R) (c : Z) :
  wf st → adaptive_loop fuel (tick st) thr rng = Ret (c, st') →
  ∃ i, 0 ≤ i < d st ∧ at_ (ell st) i < thr ∧
       at_ (ell st) i < at_ (sizes st) i ∧
       c = at_ (starts st) i + at_ (ell st) i ∧
       ell st' = <[Z.to_nat i := at_ (ell st) i + 1]> (ell st) ∧
       n st' = n st ∧ d st' = d st ∧ t st' = t st + 1 ∧
       phase st' = phase st ∧ num_drawn st' = num_drawn st + 1 ∧
       sizes st' = sizes st ∧ starts st' = starts st.
Proof.
  intros Hwf. revert rng.
  induction fuel as [|fuel IH]; intros rng Hd; [done|].
  destruct (Adaptive_loop_unfold fuel st thr rng Hwf) as [Hr He].
  rewrite He in Hd. clear He. case_decide as Ha; [|by eapply IH].
  injection Hd as <- <-. eexists. split; [exact Hr|]. by destruct Ha.
Qed.

Lemma Adaptive_schedule_step (fuel : nat) (st st' : state R) (c : Z) :
  wf st → 0 ≤ num_drawn st → on_schedule st →
  draw fuel st = Ret (c, st') → on_schedule st'.
Proof.
  intros Hwf Hnd [Hell Hfin] Hd. unfold draw in Hd.
  apply bind_Ret_inv in Hd as (u & Hu & Hd).
  pose proof (wf_d _ Hwf) as Hd1.
  case_decide as Hph.
  - destruct (wf_adaptive _ Hwf Hph) as (Ht & _ & _).
    unfold draw_adaptive in Hd.
    change (n (tick st)) with (n st) in Hd.
    change (d (tick st)) with (d st) in Hd.
    change (t (tick st)) with (t st + 1) in Hd.
    change (np_random (tick st)) with (np_random st) in Hd.
    pose proof (ceil_div_mono (t st) (t st + 1) (d st) ltac:(lia) ltac:(lia))
      as Hmono.
    case_decide as Ht'.
    + rewrite (Adaptive_transition_eval st Hwf) in Hd. simpl in Hd.
      apply Adaptive_draw_final_fields in Hd
        as (Hn' & Hd' & Hell' & Ht2 & Hph' & Hnd').
      simpl in *. split.
      * intros i Hi. rewrite Hell', Ht2, Hd'.
        specialize (Hell i ltac:(lia)). lia.
      * intros _. lia.
    + rewrite (Adaptive_threshold_Ret st Hwf) in Hd. simpl in Hd.
      apply Adaptive_loop_fields in Hd
        as (i & Hi & Hthr & _ & _ & Hell' & Hn' & Hd' & Ht2 & Hph' & _);
        [|done].
      split.
      * intros j Hj. rewrite Hell', Ht2, Hd'.
        rewrite at_insert by (try rewrite (wf_ell_len _ Hwf); lia).
        case_decide as Hji; [subst; lia|].
        specialize (Hell j ltac:(lia)). lia.
      * intros Hp. congruence.
  - destruct (phase st) eqn:Hp; [done|].
    apply Adaptive_draw_final_fields in Hd
      as (Hn' & Hd' & Hell' & Ht2 & Hph' & Hnd').
    split.
    + intros i Hi. rewrite Hell', Ht2, Hd'. apply Hell. lia.
    + intros _. destruct (Hfin eq_refl). lia.
Qed.

Lemma Adaptive_reachable_schedule (n0 mb : Z) (dl : dealer R) :
  reachable AdaptiveClass n0 mb dl → 0 ≤ n0 →
  ∀ st, dl = AdaptiveThresholdDealer st → on_schedule st.
Proof.
  intros Hreach Hn.
  induction Hreach as [rng dl Hr|fuel dl c dl' Hreach IH Hd]; intros st ->.
  - injection Hr as <-. rewrite Adaptive_reset_eq. split; simpl; [|done].
    intros i Hi. unfold at_. rewrite lookup_replicate_2 by lia. simpl.
    unfold ceil_div. simpl. rewrite Z.div_0_l; lia.
  - destruct (reachable_basic _ _ _ _ Hreach) as [_ Hb].
    destruct (Hb Hn) as (Hinv & _ & Hcls & Hrange).
    destruct dl as [s|s|s|s]; try done. simpl in Hd.
    apply bind_Ret_inv in Hd as ([c' s'] & Hd & [= <- <-]).
    eapply Adaptive_schedule_step; [apply Hinv|apply Hrange|by apply IH|done].
Qed.

(** X5: in every state the AdaptiveThresholdDealer reaches from reset
    (n >= 0) by draws: (a) the dealer is in its adaptive phase exactly
    while num_drawn <= max(0, n - 2d), so the final phase deals the last
    cards, fewer than 2d of them remain once it is entered; (b) in the
    adaptive phase t = num_drawn = sum(ell); (c) in both phases every
    mini-deck i satisfies 0 <= ell[i] <= sizes[i] and ell[i] <=
    _current_threshold(): no mini-deck is ahead of the threshold, the
    hole distances threshold - ell[i] are never negative. *)
Theorem adaptive_dealer_keeps_its_schedule (n m_bits : Z) (st : state R) :
  0 ≤ n → reachable AdaptiveClass n m_bits (AdaptiveThresholdDealer st) →
  (phase st = PhaseAdaptive ↔ num_drawn st ≤ Z.max 0 (n - 2 * d st)) ∧
  (phase st = PhaseFinal → remaining st < 2 * d st) ∧
  (phase st = PhaseAdaptive →
   t st = num_drawn st ∧ sumZ (ell st) = num_drawn st) ∧
  ∃ thr, current_threshold st = Ret thr ∧
         ∀ i, 0 ≤ i < d st →
              0 ≤ at_ (ell st) i ≤ at_ (sizes st) i ∧ at_ (ell st) i ≤ thr.
Proof.
  intros Hn Hreach.
  pose proof (Adaptive_reachable_schedule _ _ _ Hreach Hn st eq_refl)
    as [Hell Hfin].
  destruct (reachable_basic _ _ _ _ Hreach) as [_ Hb].
  destruct (Hb Hn) as (Hinv & Hdn & _ & Hrange).
  pose proof (inv_wf _ Hinv) as Hwf. simpl in Hwf, Hdn, Hrange.
  pose proof (wf_d _ Hwf) as Hd1.
  split_and!.
  - split.
    + intros Hp. destruct (wf_adaptive _ Hwf Hp) as (Ht & _ & Hle). lia.
    + intros Hle. destruct (phase st) eqn:Hp; [done|].
      destruct (Hfin eq_refl). lia.
  - intros Hp. destruct (Hfin Hp). unfold remaining. lia.
  - intros Hp. destruct (wf_adaptive _ Hwf Hp) as (Ht & Hs & _). done.
  - destruct (Adaptive_get_drawable_eval st Hwf) as (thr & Hthr & Heq & _).
    exists thr. split; [done|]. intros i Hi.
    split; [by apply (wf_ell _ Hwf)|].
    specialize (Hell i Hi). subst thr. case_decide as Ht; [|done].
    rewrite Ht in Hell. unfold ceil_div in Hell. simpl in Hell.
    rewrite Z.div_0_l in Hell; lia.
Qed.
End more_adaptive.

Lemma adaptive_reset_partitions_the_deck_witness :
  let st := Adaptive.reset 10 (0 : Z) 24 in
  1 ≤ Adaptive.d st ≤ Z.max 1 (10 / 2) ∧
  Adaptive.d st ≤ Z.max 1 (24 / 8) ∧
  length (Adaptive.sizes st) = Z.to_nat (Adaptive.d st) ∧
  length (Adaptive.starts st) = Z.to_nat (Adaptive.d st) ∧
  (∀ i, 0 ≤ i < Adaptive.d st →
        at_ (Adaptive.sizes st) i
        = 10 / Adaptive.d st
          + (if decide (i < 10 `mod` Adaptive.d st) then 1 else 0)) ∧
  sumZ (Adaptive.sizes st) = 10 ∧
  at_ (Adaptive.starts st) 0 = 0 ∧
  (∀ i, 0 ≤ i → i + 1 < Adaptive.d st →
        at_ (Adaptive.starts st) (i + 1)
        = at_ (Adaptive.starts st) i + at_ (Adaptive.sizes st) i) ∧
  at_ (Adaptive.starts st) (Adaptive.d st - 1)
    + at_ (Adaptive.sizes st) (Adaptive.d st - 1) = 10.
Proof. apply (adaptive_reset_partitions_the_deck 10 24 (0 : Z)). lia. Defined.

Lemma adaptive_dealer_keeps_its_schedule_witness :
  ∃ (dl0 : dealer Z) (ids : list Z) (st : Adaptive.state Z),
    reset AdaptiveClass 10 (0 : Z) 24 = Ret dl0 ∧
    draw_many 6 9 dl0 = Ret (ids, AdaptiveThresholdDealer st) ∧
    Adaptive.phase st = Adaptive.PhaseFinal ∧
    Adaptive.ell st = [2; 1; 1] ∧
    (Adaptive.phase st = Adaptive.PhaseAdaptive ↔
     Adaptive.num_drawn st ≤ Z.max 0 (10 - 2 * Adaptive.d st)) ∧
    (Adaptive.phase st = Adaptive.PhaseFinal →
     Adaptive.remaining st < 2 * Adaptive.d st) ∧
    (Adaptive.phase st = Adaptive.PhaseAdaptive →
     Adaptive.t st = Adaptive.num_drawn st ∧
     sumZ (Adaptive.ell st) = Adaptive.num_drawn st) ∧
    ∃ thr, Adaptive.current_threshold st = Ret thr ∧
           ∀ i, 0 ≤ i < Adaptive.d st →
                0 ≤ at_ (Adaptive.ell st) i ≤ at_ (Adaptive.sizes st) i ∧
                at_ (Adaptive.ell st) i ≤ thr.
Proof.
  eexists _, _, _. split; [reflexivity|].
  split; [vm_compute; reflexivity|].
  split; [reflexivity|]. split; [reflexivity|].
  apply (adaptive_dealer_keeps_its_schedule 10 24); [lia|].
  eapply (draw_many_reachable _ _ _ 6 9).
  - apply (reachable_reset _ _ _ (0 : Z)). reflexivity.
  - vm_compute. reflexivity.
Defined.

(** ** draw() raises nothing but Exhausted *)

Section draw_errors.
Context `{RandomSource R}.

Lemma Bitmap_draw_loop_no_raise (fuel : nat) (st : Bitmap.state R) (rng : R)
    (e : error) :
  Bitmap.wf st → 0 < Bitmap.n st → Bitmap.draw_loop fuel st rng ≠ Raise e.
Proof.
  intros Hwf Hn. revert rng. induction fuel as [|fuel IH]; intros rng; [done|].
  destruct (Bitmap_draw_loop_unfold fuel st rng Hwf Hn) as [_ ->].
  case_decide; [done|apply IH].
Qed.

Lemma Adaptive_loop_no_raise (fuel : nat) (st : Adaptive.state R) (thr : Z)
    (rng : R) (e : error) :
  Adaptive.wf st →
  Adaptive.adaptive_loop fuel (Adaptive.tick st) thr rng ≠ Raise e.
Proof.
  intros Hwf. revert rng. induction fuel as [|fuel IH]; intros rng; [done|].
  destruct (Adaptive_loop_unfold fuel st thr rng Hwf) as [_ ->].
  case_decide; [done|apply IH].
Qed.

Lemma Adaptive_draw_no_raise (fuel : nat) (st : Adaptive.state R) (e : error) :
  Adaptive.wf st →
  Z.of_nat (length (Adaptive.live st)) = Adaptive.n st - Adaptive.num_drawn st →
  Adaptive.num_drawn st < Adaptive.n st →
  Adaptive.draw fuel st ≠ Raise e.
Proof.
  intros Hwf Hcount Hlt. unfold Adaptive.draw.
  rewrite check_exhausted_lt by done. simpl.
  case_decide as Hph.
  - unfold Adaptive.draw_adaptive.
    change (Adaptive.n (Adaptive.tick st)) with (Adaptive.n st).
    change (Adaptive.d (Adaptive.tick st)) with (Adaptive.d st).
    change (Adaptive.t (Adaptive.tick st)) with (Adaptive.t st + 1).
    change (Adaptive.np_random (Adaptive.tick st)) with (Adaptive.np_random st).
    case_decide as Ht.
    + rewrite (Adaptive_transition_eval st Hwf). simpl.
      unfold Adaptive.live in Hcount. rewrite Hph in Hcount.
      match goal with
      | |- context [Adaptive.draw_final ?s] => set (st2 := s) in *
      end.
      destruct (Adaptive_draw_final_eval st2) as [_ ->]; [simpl; lia|done].
    + rewrite (Adaptive_threshold_Ret st Hwf). simpl.
      by apply Adaptive_loop_no_raise.
  - destruct (Adaptive.phase st) eqn:Hp; [done|].
    destruct (Adaptive.wf_final _ Hwf Hp) as [Hfr Hrem].
    destruct (Adaptive_draw_final_eval st) as [_ ->]; [lia|done].
Qed.

Lemma draw_no_raise (fuel : nat) (dl : dealer R) (e : error) :
  dealer_inv dl → dealer_num_drawn dl < dealer_n dl →
  draw fuel dl ≠ Raise e.
Proof.
  intros Hinv Hlt.
  destruct dl as [st|st|st|st].
  - destruct Hinv as [Hwf _ Hcount]. simpl in *.
    unfold Bitmap.draw. rewrite check_exhausted_lt by done. simpl.
    pose proof (Bitmap_draw_loop_no_raise fuel st (Bitmap.np_random st) e Hwf)
      as Hno.
    destruct (Bitmap.draw_loop fuel st (Bitmap.np_random st)) as [[c st']| |]
      eqn:Hd; try done.
    intros [= <-]. apply Hno; [|done].
    assert (0 ≤ Z.of_nat (length (Bitmap.live st))) by lia.
    unfold Bitmap.live, Bitmap.wf in *.
    destruct (decide (0 < Bitmap.n st)) as [|Hn]; [done|].
    rewrite Hwf in Hcount.
    replace (Z.to_nat (Bitmap.n st)) with O in Hcount by lia.
    simpl in Hcount. lia.
  - destruct (draw_returns_loopfree fuel (FisherYatesDealer st))
      as [x Hx]; [by left|done|done|]. by rewrite Hx.
  - destruct Hinv as [Hwf _ Hcount]. simpl in *.
    pose proof (Adaptive_draw_no_raise fuel st e Hwf Hcount Hlt) as Hno.
    destruct (Adaptive.draw fuel st) as [[c st']| |]; try done.
    intros [= <-]. by apply Hno.
  - destruct (draw_returns_loopfree fuel (PerfectDealer st))
      as [x Hx]; [by right|done|done|]. by rewrite Hx.
Qed.

(** X6: in every state a dealer reaches from reset by draws (any class,
    any n with -2^31 <= n < 2^31, so the non-positive decks that reset
    accepts are included), the only exception draw() can raise is the
    RuntimeError of _check_exhausted, and it raises it exactly when
    num_drawn >= n.  None of the other failure sites inside draw (the
    final-phase guard of AdaptiveThreshold, total == 0 in Perfect,
    bit_select, list subscripts, the division of the threshold, randint
    on an empty range) is ever reached.  (The bounds keep n where the
    float operations of PerfectDealer.reset are exact and where CPython
    accepts the bytes repetition of BitmapDealer.reset and the decimal
    conversion of n in the message of the error.) *)
Theorem draw_raises_nothing_but_exhausted (cls : dealer_class) (n m_bits : Z)
    (dl : dealer R) (fuel : nat) (e : error) :
  - 2 ^ 31 ≤ n < 2 ^ 31 → reachable cls n m_bits dl →
  draw fuel dl = Raise e ↔ e = Exhausted ∧ dealer_n dl ≤ dealer_num_drawn dl.
Proof.
  intros _ Hreach.
  destruct (decide (dealer_n dl ≤ dealer_num_drawn dl)) as [Hex|Hlt].
  - rewrite draw_exhausted by done. split; [by intros [= <-]|by intros [-> _]].
  - destruct (reachable_inv _ _ _ _ Hreach ltac:(lia)) as (Hinv & _).
    split; [|intros [_ ?]; lia].
    intros Hd. exfalso. by eapply draw_no_raise; [..|exact Hd]; [|lia].
Qed.
End draw_errors.

Lemma draw_raises_nothing_but_exhausted_witness :
  ∃ (dl0 dl1 dl2 : dealer Z) (ids1 ids2 : list Z),
    reset AdaptiveClass 5 (3 : Z) 64 = Ret dl0 ∧
    draw_many 2 9 dl0 = Ret (ids1, dl1) ∧
    draw_many 3 9 dl1 = Ret (ids2, dl2) ∧
    (∀ e, draw 9 dl1 = Raise e ↔
          e = Exhausted ∧ dealer_n dl1 ≤ dealer_num_drawn dl1) ∧
    (draw 9 dl2 = Raise Exhausted ↔
     Exhausted = Exhausted ∧ dealer_n dl2 ≤ dealer_num_drawn dl2).
Proof.
  eexists _, _, _, _, _. split; [reflexivity|].
  split; [vm_compute; reflexivity|]. split; [vm_compute; reflexivity|].
  assert (∀ dl1 : dealer Z,
            (∃ ids, draw_many 2 9 (AdaptiveThresholdDealer
                                     (Adaptive.reset 5 (3 : Z) 64))
                    = Ret (ids, dl1)) →
            reachable AdaptiveClass 5 64 dl1) as Hr1.
  { intros dl1 [ids Hids].
    eapply (draw_many_reachable _ _ _ 2 9); [|exact Hids].
    apply (reachable_reset _ _ _ (3 : Z)). reflexivity. }
  split.
  - intros e.
    apply (draw_raises_nothing_but_exhausted AdaptiveClass 5 64); [lia|].
    apply Hr1. eexists. vm_compute. reflexivity.
  - apply (draw_raises_nothing_but_exhausted AdaptiveClass 5 64); [lia|].
    eapply (draw_many_reachable _ _ _ 3 9).
    + apply Hr1. eexists. vm_compute. reflexivity.
    + vm_compute. reflexivity.
Defined.

(** ** envs/shuffle_guess/game.py: the episode *)

Section more_game.
Context `{RandomSource R}.

Lemma int32_succ (x : Z) : int32 (int32 x + 1) = int32 (x + 1).
Proof.
  unfold int32.
  replace ((x + 2 ^ 31) `mod` 2 ^ 32 - 2 ^ 31 + 1 + 2 ^ 31)
    with ((x + 2 ^ 31) `mod` 2 ^ 32 + 1) by lia.
  rewrite Zplus_mod_idemp_l. f_equal. f_equal. lia.
Qed.

Lemma int32_small (x : Z) : - 2 ^ 31 ≤ x < 2 ^ 31 → int32 x = x.
Proof. intros Hx. unfold int32. rewrite Z.mod_small; lia. Qed.

Lemma count_type_snoc (k : Z) (ids : list Z) (c : Z) :
  ShuffleGuessGame.count_type k (ids ++ [c])
  = ShuffleGuessGame.count_type k ids + (if decide (type_id c = k) then 1 else 0).
Proof.
  unfold ShuffleGuessGame.count_type. rewrite filter_app, length_app.
  case_decide.
  - rewrite filter_cons_True by done. simpl. lia.
  - rewrite filter_cons_False by done. simpl. lia.
Qed.

Lemma count_type_bounds (k : Z) (ids : list Z) :
  0 ≤ ShuffleGuessGame.count_type k ids ≤ Z.of_nat (length ids).
Proof.
  unfold ShuffleGuessGame.count_type.
  pose proof (length_filter (λ c, type_id c = k) ids). lia.
Qed.

Lemma at_replicate_0 (m : nat) (k : Z) : at_ (replicate m 0) k = 0.
Proof.
  unfold at_. destruct (replicate m 0 !! Z.to_nat k) as [x|] eqn:Hx; [|done].
  by apply lookup_replicate in Hx as [-> _].
Qed.

Lemma game_reachable_inv (n_cards num_decks : Z) (action_mode dname : string)
    (mb : Z) (g : ShuffleGuessGame.game R) :
  0 ≤ n_cards →
  ShuffleGuessGame.reachable n_cards num_decks action_mode dname mb g →
  ShuffleGuessGame.n g = n_cards ∧
  (∃ cls, get_dealer dname = Ret cls ∧
          reachable cls n_cards mb (ShuffleGuessGame.the_dealer g)) ∧
  dealer_num_drawn (ShuffleGuessGame.the_dealer g) = ShuffleGuessGame.t g ∧
  ShuffleGuessGame.drawn_ids g ++ live (ShuffleGuessGame.the_dealer g)
    ≡ₚ range n_cards ∧
  Z.of_nat (length (ShuffleGuessGame.drawn_ids g)) = ShuffleGuessGame.t g ∧
  0 ≤ ShuffleGuessGame.score g ≤ ShuffleGuessGame.t g ∧
  (ShuffleGuessGame.done g = true ↔
   1 ≤ ShuffleGuessGame.t g ∧ n_cards ≤ ShuffleGuessGame.t g) ∧
  ShuffleGuessGame.last_drawn_id g = last (ShuffleGuessGame.drawn_ids g) ∧
  length (ShuffleGuessGame.counts g) = 52%nat ∧
  (∀ k, 0 ≤ k < 52 →
        at_ (ShuffleGuessGame.counts g) k
        = int32 (ShuffleGuessGame.count_type k (ShuffleGuessGame.drawn_ids g))).
Proof.
  intros Hn Hreach.
  induction Hreach as [rng g Hinit|fuel g action g' Hreach IH Hstep].
  - unfold ShuffleGuessGame.init_game in Hinit.
    apply bind_Ret_inv in Hinit as (cls & Hcls & Hinit).
    apply bind_Ret_inv in Hinit as (dl & Hdl & Hinit).
    injection Hinit as <-.
    cbn [ShuffleGuessGame.n ShuffleGuessGame.the_dealer ShuffleGuessGame.t
         ShuffleGuessGame.drawn_ids ShuffleGuessGame.score
         ShuffleGuessGame.done ShuffleGuessGame.last_drawn_id
         ShuffleGuessGame.counts].
    destruct (reset_returns cls n_cards rng mb) as (dl0 & Hr0 & _ & _ & Hnd).
    rewrite Hdl in Hr0. injection Hr0 as <-.
    destruct (reset_inv cls n_cards rng mb dl Hn Hdl) as [_ Hlive].
    split_and!; try done; try lia.
    + exists cls. split; [done|]. by eapply reachable_reset.
    + intros k _. exact (at_replicate_0 52 k).
  - destruct IH as (Hng & (cls & Hcls & Hdreach) & Hnd & Hperm & Hlen & Hscore
                    & Hdone & Hlast & Hclen & Hcounts).
    apply step_spec in Hstep.
    destruct Hstep as (Hnotdone & id & dl' & c & Hdraw & Hdl' & Hlast' & Hids'
                       & Hscore' & Hget & Hset & Ht' & Hdone' & Hn' & _).
    destruct (reachable_basic _ _ _ _ Hdreach) as [_ Hb].
    destruct (Hb Hn) as (Hinv & Hdn & _ & Hrange).
    destruct (draw_step _ _ _ _ Hinv Hdraw) as (Hinv' & Hp & Hdn' & Hnd' & _).
    assert (0 ≤ id < n_cards) as Hid.
    { assert (id ∈ range n_cards) as Hin.
      { rewrite <- Hperm, Hp. apply elem_of_app. right.
        apply elem_of_cons. by left. }
      unfold range in Hin. apply elem_of_seqZ in Hin. lia. }
    unfold NUM_TYPES in *.
    pose proof (Z.mod_pos_bound id 52 ltac:(done)) as Hty.
    rewrite getitem_at in Hget by lia. injection Hget as <-.
    rewrite setitem_in_range in Hset by lia. injection Hset as Hset.
    split; [congruence|].
    split; [exists cls; split; [done|]; rewrite Hdl'; by eapply reachable_draw|].
    split; [rewrite Hdl'; lia|].
    split; [by rewrite Hids', Hdl', <- Hperm, Hp, <- app_assoc|].
    split; [rewrite Hids', length_app; simpl; lia|].
    split; [rewrite Hscore'; case_decide; lia|].
    split; [rewrite Hdone', Hng; lia|].
    split; [rewrite Hids', Hlast'; by rewrite last_snoc|].
    split; [rewrite <- Hset; by rewrite length_insert|].
    intros k Hk. rewrite <- Hset, Hids', count_type_snoc.
    rewrite at_insert by lia. unfold type_id, NUM_TYPES.
    destruct (decide (k = id `mod` 52)) as [->|Hne].
    + rewrite decide_True by done.
      rewrite Hcounts by lia. apply int32_succ.
    + rewrite decide_False by done. rewrite Z.add_0_r. by apply Hcounts.
Qed.


(** X7: the bookkeeping of an episode.  In every game reached from
    init_game (with a registered dealer and n >= 0 cards) by steps that
    returned: the turn counter t is the number of ids drawn and the
    dealer's num_drawn, the dealer has n - t cards left, 0 <= score <= t
    <= n, the ids drawn are pairwise distinct members of 0 .. n-1 and
    last_drawn_id is the latest of them, the episode is over exactly when
    n >= 1 and t = n, and by then every card has been drawn exactly
    once. *)
Theorem episode_bookkeeping (n_cards num_decks : Z)
    (action_mode dname : string) (m_bits : Z) (g : ShuffleGuessGame.game R) :
  0 ≤ n_cards →
  ShuffleGuessGame.reachable n_cards num_decks action_mode dname m_bits g →
  ShuffleGuessGame.n g = n_cards ∧
  ShuffleGuessGame.t g = Z.of_nat (length (ShuffleGuessGame.drawn_ids g)) ∧
  dealer_num_drawn (ShuffleGuessGame.the_dealer g) = ShuffleGuessGame.t g ∧
  remaining (ShuffleGuessGame.the_dealer g) = n_cards - ShuffleGuessGame.t g ∧
  0 ≤ ShuffleGuessGame.score g ≤ ShuffleGuessGame.t g ∧
  ShuffleGuessGame.t g ≤ n_cards ∧
  NoDup (ShuffleGuessGame.drawn_ids g) ∧
  (∀ c, c ∈ ShuffleGuessGame.drawn_ids g → 0 ≤ c < n_cards) ∧
  ShuffleGuessGame.last_drawn_id g = last (ShuffleGuessGame.drawn_ids g) ∧
  (ShuffleGuessGame.is_over g = true ↔
   1 ≤ n_cards ∧ ShuffleGuessGame.t g = n_cards) ∧
  (ShuffleGuessGame.is_over g = true →
   ShuffleGuessGame.drawn_ids g ≡ₚ range n_cards).
Proof.
  intros Hn Hreach.
  destruct (game_reachable_inv _ _ _ _ _ _ Hn Hreach)
    as (Hng & (cls & Hcls & Hdreach) & Hnd & Hperm & Hlen & Hscore
        & Hdone & Hlast & _).
  destruct (reachable_basic _ _ _ _ Hdreach) as [_ Hb].
  destruct (Hb Hn) as (Hinv & Hdn & _ & Hrange).
  pose proof (inv_count _ Hinv) as Hcount.
  assert (NoDup (ShuffleGuessGame.drawn_ids g
                 ++ live (ShuffleGuessGame.the_dealer g))) as Hnodup.
  { rewrite Hperm. apply NoDup_seqZ. }
  apply NoDup_app in Hnodup as (Hnodup & _ & _).
  unfold ShuffleGuessGame.is_over.
  split; [done|]. split; [lia|]. split; [done|].
  split; [rewrite remaining_eq by apply Hinv; lia|].
  split; [done|]. split; [lia|]. split; [done|].
  split.
  { intros c Hc.
    assert (c ∈ range n_cards) as Hin.
    { rewrite <- Hperm. apply elem_of_app. by left. }
    unfold range in Hin. apply elem_of_seqZ in Hin. lia. }
  split; [done|]. split; [rewrite Hdone; lia|].
  intros Hover. apply Hdone in Hover.
  assert (live (ShuffleGuessGame.the_dealer g) = []) as Hnil.
  { apply length_zero_iff_nil. lia. }
  rewrite Hnil, app_nil_r in Hperm. done.
Qed.

Lemma indicator_sum (q : Z) (k : nat) :
  sumZ ((λ p, if decide (q = p) then 1 else 0) <$> range (Z.of_nat k))
  = if decide (0 ≤ q < Z.of_nat k) then 1 else 0.
Proof.
  induction k as [|k IH]; [simpl; case_decide; [lia|done]|].
  rewrite range_S, fmap_app, sumZ_app, IH.
  rewrite fmap_cons, sumZ_cons. change (sumZ (_ <$> [])) with 0.
  repeat case_decide; lia.
Qed.

Lemma sum_count_type (ids : list Z) :
  sumZ ((λ k, ShuffleGuessGame.count_type k ids) <$> range 52)
  = Z.of_nat (length ids).
Proof.
  induction ids as [|c ids IH].
  { reflexivity. }
  rewrite (sumZ_fmap_ext _
    (λ k, (if decide (type_id c = k) then 1 else 0)
          + ShuffleGuessGame.count_type k ids)).
  - rewrite sumZ_fmap_add, IH.
    pose proof (indicator_sum (type_id c) 52) as Hi.
    change (Z.of_nat 52) with 52 in Hi. rewrite Hi.
    pose proof (Z.mod_pos_bound c 52 ltac:(done)).
    unfold type_id, NUM_TYPES. rewrite decide_True by lia.
    simpl length. lia.
  - apply Forall_forall. intros k _. unfold ShuffleGuessGame.count_type.
    destruct (decide (type_id c = k)).
    + rewrite filter_cons_True by done. simpl length. lia.
    + rewrite filter_cons_False by done. lia.
Qed.

(** X8: the histogram of an episode.  In every game reached from
    init_game (n >= 0) by steps that returned, counts has 52 cells and
    cell k holds the number of ids drawn so far whose type (id mod 52) is
    k, reduced into the int32 range; when n < 2^31 no cell has wrapped:
    counts[k] is exactly that number and the cells add up to t. *)
Theorem episode_histogram (n_cards num_decks : Z)
    (action_mode dname : string) (m_bits : Z) (g : ShuffleGuessGame.game R) :
  0 ≤ n_cards →
  ShuffleGuessGame.reachable n_cards num_decks action_mode dname m_bits g →
  length (ShuffleGuessGame.counts g) = 52%nat ∧
  (∀ k, 0 ≤ k < 52 →
        at_ (ShuffleGuessGame.counts g) k
        = int32 (ShuffleGuessGame.count_type k (ShuffleGuessGame.drawn_ids g))) ∧
  (n_cards < 2 ^ 31 →
   (∀ k, 0 ≤ k < 52 →
         at_ (ShuffleGuessGame.counts g) k
         = ShuffleGuessGame.count_type k (ShuffleGuessGame.drawn_ids g)) ∧
   sumZ (ShuffleGuessGame.counts g) = ShuffleGuessGame.t g).
Proof.
  intros Hn Hreach.
  destruct (game_reachable_inv _ _ _ _ _ _ Hn Hreach)
    as (Hng & (cls & Hcls & Hdreach) & Hnd & Hperm & Hlen & Hscore
        & Hdone & Hlast & Hclen & Hcounts).
  destruct (reachable_basic _ _ _ _ Hdreach) as [_ Hb].
  destruct (Hb Hn) as (_ & _ & _ & Hrange).
  split; [done|]. split; [done|]. intros Hsmall.
  assert (∀ k, 0 ≤ k < 52 →
               at_ (ShuffleGuessGame.counts g) k
               = ShuffleGuessGame.count_type k (ShuffleGuessGame.drawn_ids g))
    as Hexact.
  { intros k Hk. rewrite Hcounts by done. apply int32_small.
    pose proof (count_type_bounds k (ShuffleGuessGame.drawn_ids g)). lia. }
  split; [done|].
  rewrite <- Hlen, <- sum_count_type. f_equal.
  apply list_eq. intros i.
  destruct (decide (i < 52)%nat) as [Hi|Hi].
  - rewrite list_lookup_fmap.
    rewrite (proj2 (lookup_range 52 i (Z.of_nat i))) by lia. simpl.
    rewrite <- Hexact by lia.
    rewrite <- (Nat2Z.id i) at 1. apply lookup_at. lia.
  - rewrite !lookup_ge_None_2; [done|..].
    + rewrite length_fmap, length_range. lia.
    + lia.
Qed.

(** X9: what step can raise.  In every game reached from init_game
    (n >= 0) by steps that returned, step raises the "Episode already
    over" RuntimeError exactly when is_over() holds; with n = 0 the
    episode never ends and every step raises the dealer's Exhausted
    error instead; step raises nothing else.  While the game is not over
    (n >= 1) step returns: always with the Fisher-Yates and Perfect
    dealers, and with any dealer when the random source is fair. *)
Theorem step_raises_only_after_the_end (n_cards num_decks : Z)
    (action_mode dname : string) (m_bits : Z) (g : ShuffleGuessGame.game R)
    (fuel : nat) (action : Z) :
  0 ≤ n_cards →
  ShuffleGuessGame.reachable n_cards num_decks action_mode dname m_bits g →
  (∀ e, ShuffleGuessGame.step fuel g action = Raise e ↔
        (ShuffleGuessGame.is_over g = true ∧ e = EpisodeOver) ∨
        (n_cards = 0 ∧ e = Exhausted)) ∧
  (ShuffleGuessGame.is_over g = false → 1 ≤ n_cards →
   (dname = "fisher_yates" ∨ dname = "perfect" →
    returns (ShuffleGuessGame.step fuel g action)) ∧
   (FairSource R → ∃ fuel', returns (ShuffleGuessGame.step fuel' g action))).
Proof.
  intros Hn Hreach.
  destruct (game_reachable_inv _ _ _ _ _ _ Hn Hreach)
    as (Hng & (cls & Hcls & Hdreach) & Hnd & Hperm & Hlen & Hscore
        & Hdone & Hlast & Hclen & Hcounts).
  destruct (reachable_basic _ _ _ _ Hdreach) as [_ Hb].
  destruct (Hb Hn) as (Hinv & Hdn & Hclass & Hrange).
  unfold ShuffleGuessGame.is_over.
  assert (∀ fuel' id dl',
            ShuffleGuessGame.done g = false →
            draw fuel' (ShuffleGuessGame.the_dealer g) = Ret (id, dl') →
            returns (ShuffleGuessGame.step fuel' g action)) as Hstep.
  { intros fuel' id dl' Hnot Hdraw. unfold ShuffleGuessGame.step.
    rewrite Hnot, Hdraw. cbn [mbind outcome_bind].
    pose proof (Z.mod_pos_bound id 52 ltac:(done)) as Hty.
    unfold NUM_TYPES.
    rewrite getitem_at by lia. cbn [mbind outcome_bind].
    rewrite setitem_in_range by lia. cbn [mbind outcome_bind].
    by eexists. }
  destruct (ShuffleGuessGame.done g) eqn:Hd.
  - split; [|done]. intros e.
    rewrite step_after_terminal by done.
    destruct Hdone as [Hdone _]. specialize (Hdone eq_refl).
    split; [intros [= <-]; by left|]. intros [[_ ->]|[? _]]; [done|lia].
  - assert (¬ (1 ≤ ShuffleGuessGame.t g ∧ n_cards ≤ ShuffleGuessGame.t g))
      as Hnot.
    { intros Hx. apply Hdone in Hx. done. }
    destruct (decide (n_cards = 0)) as [->|Hpos].
    + split; [|lia]. intros e. unfold ShuffleGuessGame.step. rewrite Hd.
      rewrite draw_exhausted by lia. cbn [mbind outcome_bind].
      split; [intros [= <-]; by right|]. intros [[? _]|[_ ->]]; done.
    + assert (dealer_num_drawn (ShuffleGuessGame.the_dealer g)
              < dealer_n (ShuffleGuessGame.the_dealer g)) as Hlt by lia.
      split.
      * intros e. split; [|intros [[? _]|[? _]]; done].
        intros Hraise. exfalso. revert Hraise.
        unfold ShuffleGuessGame.step. rewrite Hd.
        destruct (draw fuel (ShuffleGuessGame.the_dealer g))
          as [[id dl']|e'|] eqn:Hdraw.
        -- destruct (Hstep fuel id dl' eq_refl Hdraw) as [g' Hg'].
           unfold ShuffleGuessGame.step in Hg'. rewrite Hd, Hdraw in Hg'.
           by rewrite Hg'.
        -- by apply draw_no_raise in Hdraw.
        -- done.
      * intros _ _. split.
        -- intros Hname.
           destruct (draw_returns_loopfree fuel (ShuffleGuessGame.the_dealer g))
             as [[id dl'] Hdraw]; [|done|done|by eapply Hstep].
           rewrite Hclass. destruct Hname as [->| ->]; injection Hcls as <-;
             [by left|by right].
        -- intros Hfair.
           destruct (draw_returns_fair (ShuffleGuessGame.the_dealer g) Hinv Hlt)
             as (fuel' & [id dl'] & Hdraw).
           exists fuel'. by eapply Hstep.
Qed.
End more_game.

Lemma episode_bookkeeping_witness :
  ∃ g0 g1 g : ShuffleGuessGame.game Z,
    ShuffleGuessGame.init_game 3 1 "type" "perfect" 64 7 = Ret g0 ∧
    ShuffleGuessGame.step 0 g0 1 = Ret g1 ∧
    ShuffleGuessGame.step 0 g1 5 = Ret g ∧
    ShuffleGuessGame.score g = 1 ∧
    ShuffleGuessGame.n g = 3 ∧
    ShuffleGuessGame.t g = Z.of_nat (length (ShuffleGuessGame.drawn_ids g)) ∧
    dealer_num_drawn (ShuffleGuessGame.the_dealer g) = ShuffleGuessGame.t g ∧
    remaining (ShuffleGuessGame.the_dealer g) = 3 - ShuffleGuessGame.t g ∧
    0 ≤ ShuffleGuessGame.score g ≤ ShuffleGuessGame.t g ∧
    ShuffleGuessGame.t g ≤ 3 ∧
    NoDup (ShuffleGuessGame.drawn_ids g) ∧
    (∀ c, c ∈ ShuffleGuessGame.drawn_ids g → 0 ≤ c < 3) ∧
    ShuffleGuessGame.last_drawn_id g = last (ShuffleGuessGame.drawn_ids g) ∧
    (ShuffleGuessGame.is_over g = true ↔
     1 ≤ 3 ∧ ShuffleGuessGame.t g = 3) ∧
    (ShuffleGuessGame.is_over g = true →
     ShuffleGuessGame.drawn_ids g ≡ₚ range 3).
Proof.
  eexists _, _, _. split; [vm_compute; reflexivity|].
  split; [vm_compute; reflexivity|]. split; [vm_compute; reflexivity|].
  split; [reflexivity|].
  apply (episode_bookkeeping 3 1 "type" "perfect" 64); [lia|].
  eapply (ShuffleGuessGame.reachable_step _ _ _ _ _ 0 _ 5).
  - eapply (ShuffleGuessGame.reachable_step _ _ _ _ _ 0 _ 1).
    + apply (ShuffleGuessGame.reachable_init _ _ _ _ _ (7 : Z)).
      vm_compute. reflexivity.
    + vm_compute. reflexivity.
  - vm_compute. reflexivity.
Defined.

Lemma episode_histogram_witness :
  ∃ g0 g1 g : ShuffleGuessGame.game Z,
    ShuffleGuessGame.init_game 104 2 "type" "fisher_yates" 64 7 = Ret g0 ∧
    ShuffleGuessGame.step 0 g0 7 = Ret g1 ∧
    ShuffleGuessGame.step 0 g1 0 = Ret g ∧
    ShuffleGuessGame.drawn_ids g = [7; 8] ∧
    length (ShuffleGuessGame.counts g) = 52%nat ∧
    (∀ k, 0 ≤ k < 52 →
          at_ (ShuffleGuessGame.counts g) k
          = int32 (ShuffleGuessGame.count_type k
                     (ShuffleGuessGame.drawn_ids g))) ∧
    (104 < 2 ^ 31 →
     (∀ k, 0 ≤ k < 52 →
           at_ (ShuffleGuessGame.counts g) k
           = ShuffleGuessGame.count_type k (ShuffleGuessGame.drawn_ids g)) ∧
     sumZ (ShuffleGuessGame.counts g) = ShuffleGuessGame.t g).
Proof.
  eexists _, _, _. split; [vm_compute; reflexivity|].
  split; [vm_compute; reflexivity|]. split; [vm_compute; reflexivity|].
  split; [reflexivity|].
  apply (episode_histogram 104 2 "type" "fisher_yates" 64); [lia|].
  eapply (ShuffleGuessGame.reachable_step _ _ _ _ _ 0 _ 0).
  - eapply (ShuffleGuessGame.reachable_step _ _ _ _ _ 0 _ 7).
    + apply (ShuffleGuessGame.reachable_init _ _ _ _ _ (7 : Z)).
      vm_compute. reflexivity.
    + vm_compute. reflexivity.
  - vm_compute. reflexivity.
Defined.

Lemma step_raises_only_after_the_end_witness :
  ∃ g : ShuffleGuessGame.game Z,
    ShuffleGuessGame.init_game 3 1 "type" "bitmap" 64 7 = Ret g ∧
    (∀ e, ShuffleGuessGame.step 5 g 0 = Raise e ↔
          (ShuffleGuessGame.is_over g = true ∧ e = EpisodeOver) ∨
          (3 = 0 ∧ e = Exhausted)) ∧
    (ShuffleGuessGame.is_over g = false → 1 ≤ 3 →
     ("bitmap" = "fisher_yates" ∨ "bitmap" = "perfect" →
      returns (ShuffleGuessGame.step 5 g 0)) ∧
     (FairSource Z → ∃ fuel', returns (ShuffleGuessGame.step fuel' g 0))).
Proof.
  eexists. split; [vm_compute; reflexivity|].
  apply (step_raises_only_after_the_end 3 1 "type" "bitmap" 64); [lia|].
  apply (ShuffleGuessGame.reachable_init _ _ _ _ _ (7 : Z)).
  vm_compute. reflexivity.
Defined.

(** ** envs/holdem_dealerlab/dealer.py: shuffling a poker deck *)

Section more_holdem.
Context `{RandomSource R} {Card : Type}.
Implicit Types (base_deck deck hand : list Card).

Lemma list_pop_snoc (l : list Card) (c : Card) :
  list_pop (l ++ [c]) = Ret (c, l).
Proof.
  unfold list_pop. rewrite last_snoc, length_app. simpl.
  replace (pred (length l + 1)) with (length l) by lia.
  by rewrite take_app_length.
Qed.

Lemma list_pop_nil : list_pop (@nil Card) = Raise IndexError.
Proof. done. Qed.

(** The loop of deal_cards pops one card per iteration, whatever the
    loop variable is. *)
Lemma deal_loop {A} (xs : list A) hand (st : DealerSwapDealer.state R Card) :
  (length xs ≤ length (DealerSwapDealer.deck st))%nat →
  for_each (λ '(hand, st) _,
              '(c, deck') ← list_pop (DealerSwapDealer.deck st);
              Ret (hand ++ [c],
                   DealerSwapDealer.State (DealerSwapDealer.algo st) deck'
                                          (DealerSwapDealer.pot st)))
           xs (hand, st)
  = Ret (hand ++ reverse (drop (length (DealerSwapDealer.deck st) - length xs)
                               (DealerSwapDealer.deck st)),
         DealerSwapDealer.State
           (DealerSwapDealer.algo st)
           (take (length (DealerSwapDealer.deck st) - length xs)
                 (DealerSwapDealer.deck st))
           (DealerSwapDealer.pot st)).
Proof.
  revert hand st. induction xs as [|x xs IH]; intros hand [dl deck pot] Hlen;
    cbn [DealerSwapDealer.deck DealerSwapDealer.algo DealerSwapDealer.pot] in *.
  { simpl. rewrite Nat.sub_0_r, drop_all, firstn_all, app_nil_r. done. }
  destruct (decide (deck = [])) as [->|Hne]; [simpl in Hlen; lia|].
  apply last_is_Some in Hne as [c Hc]. apply last_Some in Hc as [deck' ->].
  rewrite length_app in *. simpl in Hlen.
  cbn [for_each]. cbn [DealerSwapDealer.deck].
  rewrite list_pop_snoc. cbn [mbind outcome_bind].
  rewrite IH by (simpl; lia).
  cbn [DealerSwapDealer.deck DealerSwapDealer.algo DealerSwapDealer.pot].
  cbn [length].
  replace (length deck' + 1 - S (length xs))%nat
    with (length deck' - length xs)%nat by lia.
  rewrite drop_app_le, take_app_le by lia.
  rewrite reverse_app. simpl. by rewrite <- app_assoc.
Qed.

Lemma deal_loop_short {A} (xs : list A) hand
    (st : DealerSwapDealer.state R Card) :
  (length (DealerSwapDealer.deck st) < length xs)%nat →
  for_each (λ '(hand, st) _,
              '(c, deck') ← list_pop (DealerSwapDealer.deck st);
              Ret (hand ++ [c],
                   DealerSwapDealer.State (DealerSwapDealer.algo st) deck'
                                          (DealerSwapDealer.pot st)))
           xs (hand, st)
  = Raise IndexError.
Proof.
  revert hand st. induction xs as [|x xs IH]; intros hand [dl deck pot] Hlen;
    cbn [DealerSwapDealer.deck DealerSwapDealer.algo DealerSwapDealer.pot] in *.
  { simpl in Hlen. lia. }
  cbn [for_each]. cbn [DealerSwapDealer.deck].
  destruct (decide (deck = [])) as [->|Hne]; [done|].
  apply last_is_Some in Hne as [c Hc]. apply last_Some in Hc as [deck' ->].
  rewrite length_app in *. simpl in Hlen.
  rewrite list_pop_snoc. cbn [mbind outcome_bind].
  apply IH. simpl. lia.
Qed.

Lemma pick_eval base_deck (ids : list Z) (acc : list Card) :
  Forall (λ i, 0 ≤ i < Z.of_nat (length base_deck)) ids →
  for_each (λ acc i, x ← getitem base_deck i; Ret (acc ++ [x])) ids acc
  = Ret (acc ++ omap (λ i, base_deck !! Z.to_nat i) ids).
Proof.
  intros Hall. revert acc.
  induction Hall as [|i ids Hi _ IH]; intros acc.
  { simpl. by rewrite app_nil_r. }
  destruct (lookup_lt_is_Some_2 base_deck (Z.to_nat i) ltac:(lia)) as [x Hx].
  cbn [for_each]. rewrite (getitem_lookup _ _ x) by (done || lia).
  cbn [mbind outcome_bind]. rewrite IH.
  cbn [omap list_omap]. rewrite Hx. by rewrite <- app_assoc.
Qed.

Lemma omap_lookup_all (pre l : list Card) :
  omap (λ i, (pre ++ l) !! Z.to_nat i)
       (seqZ (Z.of_nat (length pre)) (Z.of_nat (length l)))
  = l.
Proof.
  revert pre. induction l as [|x l IH]; intros pre; [done|].
  rewrite seqZ_cons by (simpl; lia). cbn [omap list_omap].
  rewrite Nat2Z.id, list_lookup_middle by done.
  f_equal.
  replace (Z.succ (Z.of_nat (length pre)))
    with (Z.of_nat (length (pre ++ [x]))) by (rewrite length_app; simpl; lia).
  replace (Z.pred (Z.of_nat (length (x :: l)))) with (Z.of_nat (length l))
    by (simpl; lia).
  rewrite (cons_middle x pre l), app_assoc. apply IH.
Qed.

Lemma omap_picked base_deck (ids : list Z) :
  Forall (λ i, 0 ≤ i < Z.of_nat (length base_deck)) ids →
  Forall2 (λ i c, base_deck !! Z.to_nat i = Some c) ids
          (omap (λ i, base_deck !! Z.to_nat i) ids).
Proof.
  induction 1 as [|i ids Hi _ IH]; [constructor|].
  destruct (lookup_lt_is_Some_2 base_deck (Z.to_nat i) ltac:(lia)) as [x Hx].
  cbn [omap list_omap]. rewrite Hx. by constructor.
Qed.

Lemma omap_reverse {A B} (f : A → option B) (l : list A) :
  omap f (reverse l) = reverse (omap f l).
Proof.
  induction l as [|x l IH]; [done|].
  rewrite reverse_cons, omap_app, IH. cbn [omap list_omap].
  destruct (f x); simpl; [by rewrite reverse_cons|by rewrite app_nil_r].
Qed.

(** What shuffle computes: the ids drawn and the deck built from them. *)
Lemma shuffle_inv base_deck (fuel : nat) (cls : dealer_class) (rng : R)
    (mb pot : Z) (st : DealerSwapDealer.state R Card) :
  DealerSwapDealer.shuffle base_deck fuel cls rng mb pot = Ret st →
  ∃ dl0 perm,
    reset cls (Z.of_nat (length base_deck)) rng mb = Ret dl0 ∧
    draw_many (length base_deck) fuel dl0
      = Ret (perm, DealerSwapDealer.algo st) ∧
    perm ≡ₚ range (Z.of_nat (length base_deck)) ∧
    DealerSwapDealer.deck st
      = reverse (omap (λ i, base_deck !! Z.to_nat i) perm) ∧
    DealerSwapDealer.pot st = pot.
Proof.
  unfold DealerSwapDealer.shuffle. rewrite Nat2Z.id. intros Hs.
  apply bind_Ret_inv in Hs as (dl0 & Hr & Hs).
  apply bind_Ret_inv in Hs as ([perm dl'] & Hd & Hs).
  destruct (drawn_and_live cls (Z.of_nat (length base_deck)) _ _ _ _ _ _ _
              ltac:(lia) Hr Hd)
    as (Hinv & Hperm & Hlen & Hdn & Hnd & _).
  pose proof (inv_count _ Hinv) as Hcount.
  assert (live dl' = []) as Hnil by (apply length_zero_iff_nil; lia).
  rewrite Hnil, app_nil_r in Hperm.
  unfold DealerSwapDealer.pick in Hs. rewrite pick_eval in Hs.
  2:{ apply Forall_forall. intros i Hi. rewrite elem_of_reverse, Hperm in Hi.
      unfold range in Hi. apply elem_of_seqZ in Hi. lia. }
  cbn [mbind outcome_bind] in Hs. injection Hs as <-.
  exists dl0, perm. cbn [DealerSwapDealer.algo DealerSwapDealer.deck
                         DealerSwapDealer.pot].
  split_and!; try done. by rewrite omap_reverse.
Qed.

(** X10: DealerSwapDealer.shuffle, with any of the four algorithms and
    any base deck (the 52 cards of RLCard or any other list), leaves in
    self.deck a permutation of the base deck: every card exactly once,
    none lost, none duplicated; the algorithm is exhausted afterwards.
    The shuffle returns for every source with Fisher-Yates and Perfect,
    and with every algorithm when the source is fair. *)
Theorem shuffle_permutes_the_base_deck base_deck (fuel : nat)
    (cls : dealer_class) (rng : R) (m_bits pot : Z) :
  (∀ st, DealerSwapDealer.shuffle base_deck fuel cls rng m_bits pot = Ret st →
         DealerSwapDealer.deck st ≡ₚ base_deck ∧
         remaining (DealerSwapDealer.algo st) = 0) ∧
  (cls = FisherYatesClass ∨ cls = PerfectClass →
   returns (DealerSwapDealer.shuffle base_deck fuel cls rng m_bits pot)) ∧
  (FairSource R →
   ∃ fuel',
     returns (DealerSwapDealer.shuffle base_deck fuel' cls rng m_bits pot)).
Proof.
  assert (∀ fuel' dl0 x,
            reset cls (Z.of_nat (length base_deck)) rng m_bits = Ret dl0 →
            draw_many (length base_deck) fuel' dl0 = Ret x →
            returns (DealerSwapDealer.shuffle base_deck fuel' cls rng m_bits pot))
    as Hret.
  { intros fuel' dl0 [perm dl'] Hr Hd. unfold DealerSwapDealer.shuffle.
    rewrite Nat2Z.id, Hr. cbn [mbind outcome_bind]. rewrite Hd.
    cbn [mbind outcome_bind].
    destruct (drawn_and_live cls (Z.of_nat (length base_deck)) _ _ _ _ _ _ _
              ltac:(lia) Hr Hd)
      as (Hinv & Hperm & Hlen & Hdn & Hnd & _).
    pose proof (inv_count _ Hinv) as Hcount.
    assert (live dl' = []) as Hnil by (apply length_zero_iff_nil; lia).
    rewrite Hnil, app_nil_r in Hperm.
    unfold DealerSwapDealer.pick. rewrite pick_eval.
    - cbn [mbind outcome_bind]. by eexists.
    - apply Forall_forall. intros i Hi. rewrite elem_of_reverse, Hperm in Hi.
      unfold range in Hi. apply elem_of_seqZ in Hi. lia. }
  destruct (reset_returns cls (Z.of_nat (length base_deck)) rng m_bits)
    as (dl0 & Hr & Hcls & Hdn & Hnd).
  destruct (reset_inv cls (Z.of_nat (length base_deck)) _ _ _ ltac:(lia) Hr)
    as [Hinv _].
  split_and!.
  - intros st Hs.
    destruct (shuffle_inv _ _ _ _ _ _ _ Hs)
      as (dl1 & perm & Hr1 & Hd & Hperm & Hdeck & _).
    split.
    + rewrite Hdeck, reverse_Permutation, Hperm.
      assert (omap (λ i, base_deck !! Z.to_nat i)
                   (seqZ 0 (Z.of_nat (length base_deck))) = base_deck) as Ho
        by exact (omap_lookup_all [] base_deck).
      unfold range. by rewrite Ho.
    + destruct (drawn_and_live cls (Z.of_nat (length base_deck)) _ _ _ _ _ _ _
                  ltac:(lia) Hr1 Hd)
        as (Hinv' & _ & _ & Hdn' & Hnd' & _).
      rewrite remaining_eq by apply Hinv'. lia.
  - intros Hc.
    destruct (draw_many_returns_loopfree (length base_deck) fuel dl0)
      as [x Hx]; [by rewrite Hcls|done|lia|]. by eapply Hret.
  - intros Hfair.
    destruct (draw_many_returns_fair (length base_deck) dl0)
      as (fuel' & x & Hx); [done|lia|]. exists fuel'. by eapply Hret.
Qed.

(** X11: the cards leave the deck in the order the algorithm drew the
    ids.  After shuffle, with perm the ids drawn, deal_cards(player, num)
    for 0 <= num <= len(base_deck) appends to the hand the cards
    base_deck[perm[0]], ..., base_deck[perm[num-1]] in this order and
    leaves len(base_deck) - num cards in the deck; the first deal_card()
    returns base_deck[perm[0]]; and asking for more cards than the deck
    holds raises IndexError (pop from an empty list). *)
Theorem cards_are_dealt_in_draw_order base_deck (fuel : nat)
    (cls : dealer_class) (rng : R) (m_bits pot : Z)
    (st : DealerSwapDealer.state R Card) :
  DealerSwapDealer.shuffle base_deck fuel cls rng m_bits pot = Ret st →
  ∃ dl0 perm,
    reset cls (Z.of_nat (length base_deck)) rng m_bits = Ret dl0 ∧
    draw_many (length base_deck) fuel dl0
      = Ret (perm, DealerSwapDealer.algo st) ∧
    (∀ hand num, 0 ≤ num ≤ Z.of_nat (length base_deck) →
       ∃ cards st',
         DealerSwapDealer.deal_cards st hand num = Ret (hand ++ cards, st') ∧
         Forall2 (λ i c, base_deck !! Z.to_nat i = Some c)
                 (take (Z.to_nat num) perm) cards ∧
         Z.of_nat (length (DealerSwapDealer.deck st'))
           = Z.of_nat (length base_deck) - num) ∧
    (∀ hand num, Z.of_nat (length base_deck) < num →
       DealerSwapDealer.deal_cards st hand num = Raise IndexError) ∧
    (∀ c st', DealerSwapDealer.deal_card st = Ret (c, st') →
       ∃ i, head perm = Some i ∧ base_deck !! Z.to_nat i = Some c).
Proof.
  intros Hs.
  destruct (shuffle_inv _ _ _ _ _ _ _ Hs)
    as (dl0 & perm & Hr & Hd & Hperm & Hdeck & _).
  exists dl0, perm. split; [done|]. split; [done|].
  set (cards_all := omap (λ i, base_deck !! Z.to_nat i) perm) in *.
  assert (Forall2 (λ i c, base_deck !! Z.to_nat i = Some c) perm cards_all)
    as Hall.
  { apply omap_picked. apply Forall_forall. intros i Hi. rewrite Hperm in Hi.
    unfold range in Hi. apply elem_of_seqZ in Hi. lia. }
  assert (length cards_all = length base_deck) as Hlen.
  { rewrite <- (Forall2_length _ _ _ Hall), Hperm, length_range. lia. }
  split_and!.
  - intros hand num Hnum. unfold DealerSwapDealer.deal_cards.
    rewrite deal_loop by (rewrite length_range, Hdeck, length_reverse; lia).
    eexists _, _. split; [reflexivity|].
    cbn [DealerSwapDealer.deck]. rewrite Hdeck, length_reverse, length_range.
    split.
    + rewrite drop_reverse, reverse_involutive.
      replace (length cards_all - (length cards_all - Z.to_nat num))%nat
        with (Z.to_nat num) by lia.
      by apply Forall2_take.
    + rewrite length_take, length_reverse. lia.
  - intros hand num Hnum. unfold DealerSwapDealer.deal_cards.
    apply deal_loop_short.
    rewrite length_range, Hdeck, length_reverse. lia.
  - intros c st'. unfold DealerSwapDealer.deal_card. rewrite Hdeck.
    destruct Hall as [|i x perm' cards' Hix Hall]; [done|].
    rewrite reverse_cons, list_pop_snoc. cbn [mbind outcome_bind].
    intros [= <- _]. by exists i.
Qed.
End more_holdem.

Lemma cards_are_dealt_in_draw_order_witness :
  ∃ st : DealerSwapDealer.state Z string,
    DealerSwapDealer.shuffle ["AS"; "KH"; "QD"; "JC"; "TS"] 9 AdaptiveClass
                             (3 : Z) 64 0 = Ret st ∧
    ∃ dl0 perm,
      reset AdaptiveClass (Z.of_nat 5) (3 : Z) 64 = Ret dl0 ∧
      draw_many 5 9 dl0 = Ret (perm, DealerSwapDealer.algo st) ∧
      (∀ hand num, 0 ≤ num ≤ Z.of_nat 5 →
         ∃ cards st',
           DealerSwapDealer.deal_cards st hand num = Ret (hand ++ cards, st') ∧
           Forall2 (λ i c, ["AS"; "KH"; "QD"; "JC"; "TS"] !! Z.to_nat i = Some c)
                   (take (Z.to_nat num) perm) cards ∧
           Z.of_nat (length (DealerSwapDealer.deck st')) = Z.of_nat 5 - num) ∧
      (∀ hand num, Z.of_nat 5 < num →
         DealerSwapDealer.deal_cards st hand num = Raise IndexError) ∧
      (∀ c st', DealerSwapDealer.deal_card st = Ret (c, st') →
         ∃ i, head perm = Some i ∧
              ["AS"; "KH"; "QD"; "JC"; "TS"] !! Z.to_nat i = Some c).
Proof.
  eexists. split; [vm_compute; reflexivity|].
  apply (cards_are_dealt_in_draw_order ["AS"; "KH"; "QD"; "JC"; "TS"] 9
           AdaptiveClass (3 : Z) 64 0).
  vm_compute. reflexivity.
Defined.

Lemma shuffle_permutes_the_base_deck_witness :
  (∀ st : DealerSwapDealer.state Z string,
     DealerSwapDealer.shuffle ["AS"; "KH"; "QD"] 9 BitmapClass (4 : Z) 64 0
       = Ret st →
     DealerSwapDealer.deck st ≡ₚ ["AS"; "KH"; "QD"] ∧
     remaining (DealerSwapDealer.algo st) = 0) ∧
  (BitmapClass = FisherYatesClass ∨ BitmapClass = PerfectClass →
   returns (DealerSwapDealer.shuffle ["AS"; "KH"; "QD"] 9 BitmapClass
              (4 : Z) 64 0)) ∧
  (FairSource Z →
   ∃ fuel',
     returns (DealerSwapDealer.shuffle ["AS"; "KH"; "QD"] fuel' BitmapClass
                (4 : Z) 64 0)).
Proof.
  apply (shuffle_permutes_the_base_deck ["AS"; "KH"; "QD"] 9 BitmapClass
           (4 : Z) 64 0).
Defined.

(** ** cards.py: card ids and their names *)

Section more_cards.

Lemma string_app_inj_r (s1 s2 : string) (a : Ascii.ascii) :
  s1 +:+ String a "" = s2 +:+ String a "" → s1 = s2.
Proof.
  revert s2. induction s1 as [|b s1 IH]; intros [|c s2]; simpl; try done.
  - intros [= -> Hs]. by destruct s2.
  - intros [= -> Hs]. by destruct s1.
  - intros [= -> Hs]. f_equal. by apply IH.
Qed.

Lemma suit_of_eval (tid : Z) :
  0 ≤ tid < 52 →
  ∃ a, suit_of tid = Ret (String a "") ∧ SUITS !! Z.to_nat (tid / 13)
                                         = Some (String a "").
Proof.
  intros Ht. unfold suit_of.
  assert (0 ≤ tid / 13 < 4) as Hq.
  { split; [apply Z.div_pos; lia|apply Z.div_lt_upper_bound; lia]. }
  assert (∃ k : nat, Z.to_nat (tid / 13) = k ∧ (k < 4)%nat) as (k & Hk & Hlt)
    by (eexists; split; [done|lia]).
  assert (tid / 13 = Z.of_nat k) as -> by lia.
  rewrite Nat2Z.id.
  do 4 (destruct k as [|k]; [eexists; split; reflexivity|]). lia.
Qed.

Lemma rank_of_eval (tid : Z) :
  ∃ a, rank_of tid = Ret (String a "") ∧ RANKS !! Z.to_nat (tid `mod` 13)
                                         = Some (String a "").
Proof.
  unfold rank_of.
  pose proof (Z.mod_pos_bound tid 13 ltac:(done)) as Hq.
  assert (∃ k : nat, Z.to_nat (tid `mod` 13) = k ∧ (k < 13)%nat)
    as (k & Hk & Hlt) by (eexists; split; [done|lia]).
  assert (tid `mod` 13 = Z.of_nat k) as -> by lia.
  rewrite Nat2Z.id.
  do 13 (destruct k as [|k]; [eexists; split; reflexivity|]). lia.
Qed.

(** X12: card ids and their names.  For every card id of the 64-bit
    range, -2^63 <= card_id < 2^63: 0 <= type_id < 52 and
    card_id = 52 * deck_index + type_id; rank_of never raises, suit_of
    raises IndexError exactly on type ids outside -52 .. 51, so on the
    type ids that type_id produces neither raises and pretty returns a
    name.  The name determines the card: two card ids of that range with
    the same pretty name are equal.  (The range keeps the deck index
    far below the number of decimal digits at which CPython refuses to
    convert an integer to a string.) *)
Theorem card_names_are_total_and_injective (card_id : Z) :
  - 2 ^ 63 ≤ card_id < 2 ^ 63 →
  0 ≤ type_id card_id < 52 ∧
  card_id = 52 * deck_index card_id + type_id card_id ∧
  (∀ tid, returns (rank_of tid)) ∧
  (∀ tid, suit_of tid = Raise IndexError ↔ tid < -52 ∨ 52 ≤ tid) ∧
  (∀ tid, -52 ≤ tid < 52 → returns (suit_of tid)) ∧
  returns (pretty_card card_id) ∧
  (∀ card_id', - 2 ^ 63 ≤ card_id' < 2 ^ 63 →
               pretty_card card_id' = pretty_card card_id →
               card_id' = card_id).
Proof.
  intros _.
  assert (∀ c, 0 ≤ type_id c < 52) as Hty.
  { intros c. apply Z.mod_pos_bound. done. }
  assert (∀ c, ∃ a b,
            RANKS !! Z.to_nat (type_id c `mod` 13) = Some (String a "") ∧
            SUITS !! Z.to_nat (type_id c / 13) = Some (String b "") ∧
            pretty_card c
            = Ret (String a (String b ("(d" +:+ pretty (deck_index c)
                                            +:+ ")")))) as Hpretty.
  { intros c. unfold pretty_card.
    destruct (rank_of_eval (type_id c)) as (a & -> & Ha).
    destruct (suit_of_eval (type_id c) (Hty c)) as (b & -> & Hb).
    by exists a, b. }
  assert (∀ tid, -52 ≤ tid < 52 → returns (suit_of tid)) as Hsuit.
  { intros tid Ht. unfold suit_of, getitem, norm_index.
    assert (-4 ≤ tid / 13 < 4) as Hq.
    { split; [apply Z.div_le_lower_bound; lia
             |apply Z.div_lt_upper_bound; lia]. }
    change (Z.of_nat (length SUITS)) with 4.
    case_decide.
    - rewrite decide_True by lia. simpl.
      destruct (lookup_lt_is_Some_2 SUITS (Z.to_nat (tid / 13))) as [x ->];
        [simpl; lia|by eexists].
    - rewrite decide_True by lia. simpl.
      destruct (lookup_lt_is_Some_2 SUITS (Z.to_nat (4 + tid / 13)))
        as [x ->]; [simpl; lia|by eexists]. }
  split; [apply Hty|].
  split; [unfold deck_index, type_id, NUM_TYPES; apply Z.div_mod; done|].
  split; [intros tid; destruct (rank_of_eval tid) as (a & -> & _); by eexists|].
  split.
  { intros tid. split.
    - intros Hraise.
      destruct (decide (-52 ≤ tid < 52)) as [Hin|Hout]; [|lia].
      destruct (Hsuit tid Hin) as [x Hx]. congruence.
    - intros Hout. unfold suit_of, getitem, norm_index.
      change (Z.of_nat (length SUITS)) with 4.
      assert (tid / 13 < -4 ∨ 4 ≤ tid / 13) as Hq.
      { destruct Hout; [left; apply Z.div_lt_upper_bound; lia
                       |right; apply Z.div_le_lower_bound; lia]. }
      case_decide.
      + by rewrite decide_False by lia.
      + by rewrite decide_False by lia. }
  split; [done|].
  split; [destruct (Hpretty card_id) as (a & b & _ & _ & ->); by eexists|].
  intros c' _ Heq.
  destruct (Hpretty card_id) as (a & b & Ha & Hb & Hp).
  destruct (Hpretty c') as (a' & b' & Ha' & Hb' & Hp').
  rewrite Hp, Hp' in Heq. injection Heq as -> -> Hdi.
  apply string_app_inj_r in Hdi. apply (inj pretty) in Hdi.
  pose proof (Hty card_id) as Ht. pose proof (Hty c') as Ht'.
  assert (type_id c' `mod` 13 = type_id card_id `mod` 13) as Hr.
  { pose proof (Z.mod_pos_bound (type_id c') 13 ltac:(done)).
    pose proof (Z.mod_pos_bound (type_id card_id) 13 ltac:(done)).
    assert (NoDup RANKS) as Hnd
      by (apply (bool_decide_unpack (NoDup RANKS)); vm_compute; exact I).
    pose proof (NoDup_lookup _ _ _ _ Hnd Ha' Ha). lia. }
  assert (type_id c' / 13 = type_id card_id / 13) as Hs.
  { pose proof (Z.div_pos (type_id c') 13 ltac:(lia) ltac:(done)).
    pose proof (Z.div_pos (type_id card_id) 13 ltac:(lia) ltac:(done)).
    assert (NoDup SUITS) as Hnd
      by (apply (bool_decide_unpack (NoDup SUITS)); vm_compute; exact I).
    pose proof (NoDup_lookup _ _ _ _ Hnd Hb' Hb). lia. }
  pose proof (Z.div_mod (type_id c') 13 ltac:(done)).
  pose proof (Z.div_mod (type_id card_id) 13 ltac:(done)).
  unfold deck_index, type_id, NUM_TYPES in *.
  pose proof (Z.div_mod c' 52 ltac:(done)).
  pose proof (Z.div_mod card_id 52 ltac:(done)).
  lia.
Qed.
End more_cards.

Lemma card_names_are_total_and_injective_witness :
  pretty_card 103 = Ret "KC(d1)" ∧
  - 2 ^ 63 ≤ 103 < 2 ^ 63 ∧
  0 ≤ type_id 103 < 52 ∧
  103 = 52 * deck_index 103 + type_id 103 ∧
  (∀ tid, returns (rank_of tid)) ∧
  (∀ tid, suit_of tid = Raise IndexError ↔ tid < -52 ∨ 52 ≤ tid) ∧
  (∀ tid, -52 ≤ tid < 52 → returns (suit_of tid)) ∧
  returns (pretty_card 103) ∧
  (∀ card_id', - 2 ^ 63 ≤ card_id' < 2 ^ 63 →
               pretty_card card_id' = pretty_card 103 → card_id' = 103).
Proof.
  split; [vm_compute; reflexivity|].
  split; [lia|].
  apply (card_names_are_total_and_injective 103). lia.
Defined.

(** ** perfect.py: the cells and their masks *)

Section more_perfect.
Context `{RandomSource R}.
Import Perfect.

Lemma Perfect_update_cells (st : state R) (p idx pos : Z) (cell : Cell)
    (cells1 cells' : list Cell) (ib' isz' : list Z) :
  wf st → 1 ≤ p ≤ w st →
  at_ (interval_begin st) p ≤ idx
    < at_ (interval_begin st) p + at_ (interval_size st) p →
  0 ≤ idx → cells st !! Z.to_nat idx = Some cell → pop cell = p →
  pos ∈ bits (mask cell) →
  setitem (cells st) idx (clear_bit cell pos) = Ret cells1 →
  decrement_cell_population cells1 (interval_begin st) (interval_size st)
                            idx p = Ret (cells', ib', isz') →
  cells' ≡ₚ <[Z.to_nat idx := clear_bit cell pos]> (cells st).
Proof.
  intros Hwf Hp Hint Hidx0 Hcell Hpop Hpos Hset Hdec.
  pose proof (wf_size_len _ Hwf) as Hlen_s.
  pose proof (wf_begin_len _ Hwf) as Hlen_b.
  pose proof (begin_nonneg st p Hwf ltac:(lia)) as Hf0.
  pose proof (lookup_lt_Some _ _ _ Hcell) as Hidx_lt.
  set (cl := clear_bit cell pos) in *.
  set (f := at_ (interval_begin st) p) in *.
  set (s := at_ (interval_size st) p) in *.
  destruct (wf_layout _ Hwf p f) as (c0 & Hc0 & Hpop0); [lia|fold f s; lia|].
  rewrite setitem_in_range in Hset by lia. injection Hset as <-.
  set (cells1 := <[Z.to_nat idx := cl]> (cells st)) in *.
  assert (cells1 !! Z.to_nat idx = Some cl) as H1idx.
  { unfold cells1. by rewrite list_lookup_insert_eq by lia. }
  assert (∃ a, cells1 !! Z.to_nat f = Some a) as (a & H1f).
  { destruct (decide (idx = f)) as [->|Hne]; [by exists cl|].
    exists c0. unfold cells1. by rewrite list_lookup_insert_ne by lia. }
  destruct (Perfect_swap_eval cells1 idx f a cl Hidx0 Hf0 H1f H1idx)
    as (cells2 & Hswap & Hperm & _).
  unfold decrement_cell_population in Hdec.
  rewrite (getitem_at (interval_begin st)) in Hdec by lia.
  cbn [mbind outcome_bind] in Hdec. fold f in Hdec.
  rewrite Hswap in Hdec. clear Hswap. cbn [mbind outcome_bind] in Hdec.
  repeat (apply bind_Ret_inv in Hdec as (? & _ & Hdec)).
  injection Hdec as <- _ _. done.
Qed.

Lemma clear_bit_testbit (c : Cell) (pos b : Z) :
  0 ≤ pos → 0 ≤ b →
  Z.testbit (mask (clear_bit c pos)) b
  = Z.testbit (mask c) b && negb (b =? pos).
Proof.
  intros Hpos Hb. unfold clear_bit. cbn [mask].
  rewrite Z.land_spec, Z.lnot_spec, Z.shiftl_1_l by done.
  rewrite Z.pow2_bits_eqb by done. by rewrite (Z.eqb_sym pos b).
Qed.

Lemma Perfect_draw_cells (st st' : state R) (c : Z) :
  wf st → draw st = Ret (c, st') →
  ∃ cell pos rest,
    cells st ≡ₚ cell :: rest ∧ cells st' ≡ₚ clear_bit cell pos :: rest ∧
    pos ∈ bits (mask cell) ∧ 0 ≤ mask cell ∧ c = base cell + pos ∧
    n st' = n st ∧ w st' = w st ∧ num_cells st' = num_cells st.
Proof.
  intros Hwf Hd.
  assert (num_drawn st < n st) as Hlt.
  { unfold draw in Hd. apply bind_Ret_inv in Hd as (u & Hu & _).
    by apply check_exhausted_Ret in Hu. }
  destruct (Perfect_sample_population_eval st Hwf Hlt)
    as (p & rng1 & Hsp & Hp & Hsz).
  destruct (Perfect_sample_cell_eval st p rng1 Hwf Hp Hsz)
    as (idx & cell & rng2 & Hsc & Hint & Hidx0 & Hcell & Hpop).
  destruct (Perfect_sample_bit_eval p rng2) as (bit_r & rng3 & Hsb & Hbr);
    [lia|].
  assert (0 ≤ mask cell) as Hmask.
  { pose proof (wf_masks _ Hwf) as Hm. rewrite Forall_lookup in Hm.
    by apply (Hm _ _ Hcell). }
  destruct (bit_select_in_range (mask cell) bit_r) as (pos & Hbs & Hpos);
    [done|unfold pop in Hpop; lia|].
  unfold draw in Hd. rewrite check_exhausted_lt in Hd by done.
  cbn [mbind outcome_bind] in Hd.
  rewrite Hsp in Hd. cbn [mbind outcome_bind] in Hd.
  rewrite Hsc in Hd. cbn [mbind outcome_bind] in Hd.
  rewrite Hsb in Hd. cbn [mbind outcome_bind] in Hd.
  rewrite Hbs in Hd. cbn [mbind outcome_bind] in Hd.
  apply bind_Ret_inv in Hd as (cells1 & Hset & Hd).
  apply bind_Ret_inv in Hd as ([[cells' ib'] isz'] & Hdec & Hd).
  injection Hd as <- <-.
  pose proof (Perfect_update_cells st p idx pos cell cells1 cells' ib' isz'
                Hwf Hp Hint Hidx0 Hcell Hpop Hpos Hset Hdec) as Hperm.
  exists cell, pos, (delete (Z.to_nat idx) (cells st)).
  cbn [cells n w num_cells].
  split; [by apply delete_Permutation|].
  split.
  { rewrite Hperm. apply (Permutation_cons_inv (a := cell)).
    rewrite insert_cons_perm by done.
    rewrite (delete_Permutation _ _ _ Hcell) at 1. apply perm_swap. }
  done.
Qed.

(** X13: a draw of the PerfectDealer clears exactly one bit.  From any
    state reached from reset, when draw() returns id c there is a cell
    and a bit position pos such that bit pos was set in the cell's mask,
    c = cell.base + pos, and afterwards the cell list is the old one (up
    to the order the cells are stored in) with this one mask changed:
    bit pos is cleared and every other bit, and every other cell, is as
    before; n, w and the number of cells do not change. *)
Theorem perfect_draw_clears_one_bit (n0 m_bits : Z) (st st' : state R)
    (c : Z) :
  reachable PerfectClass n0 m_bits (PerfectDealer st) →
  draw st = Ret (c, st') →
  ∃ cell pos rest,
    cells st ≡ₚ cell :: rest ∧ cells st' ≡ₚ clear_bit cell pos :: rest ∧
    0 ≤ pos ∧ Z.testbit (mask cell) pos = true ∧ c = base cell + pos ∧
    index (clear_bit cell pos) = index cell ∧
    base (clear_bit cell pos) = base cell ∧
    (∀ b, 0 ≤ b →
          Z.testbit (mask (clear_bit cell pos)) b
          = Z.testbit (mask cell) b && negb (b =? pos)) ∧
    n st' = n st ∧ w st' = w st ∧ num_cells st' = num_cells st.
Proof.
  intros Hreach Hd.
  assert (num_drawn st < n st) as Hlt.
  { unfold draw in Hd. apply bind_Ret_inv in Hd as (u & Hu & _).
    by apply check_exhausted_Ret in Hu. }
  destruct (reachable_inv _ _ _ _ Hreach Hlt) as (Hinv & _).
  destruct (Perfect_draw_cells st st' c (inv_wf _ Hinv) Hd)
    as (cell & pos & rest & Hc & Hc' & Hpos & Hmask & -> & Hn & Hw & Hnc).
  apply elem_of_bits in Hpos as [Hpos0 Hbit]; [|done].
  exists cell, pos, rest. split_and!; try done.
  intros b Hb. by apply clear_bit_testbit.
Qed.

Lemma elem_of_concat {A} (x : A) (ls : list (list A)) :
  x ∈ concat ls ↔ ∃ l, x ∈ l ∧ l ∈ ls.
Proof.
  induction ls as [|l ls IH]; simpl.
  { split; [by intros ?%elem_of_nil|by intros (? & _ & ?%elem_of_nil)]. }
  rewrite elem_of_app, IH. split.
  - intros [Hx|(l' & Hx & Hl')].
    + exists l. split; [done|]. apply elem_of_cons. by left.
    + exists l'. split; [done|]. apply elem_of_cons. by right.
  - intros (l' & Hx & Hl'). apply elem_of_cons in Hl' as [->|Hl'].
    + by left.
    + right. by exists l'.
Qed.

Lemma index_build_cells (n0 w0 C : Z) :
  index <$> build_cells n0 w0 C = range C.
Proof.
  unfold build_cells. rewrite <- list_fmap_compose.
  rewrite <- (list_fmap_id (range C)) at 2.
  by apply list_fmap_ext.
Qed.

(** The cells keep their index, base and width. *)
Lemma Perfect_reachable_shape (n0 mb : Z) (dl : dealer R) :
  reachable PerfectClass n0 mb dl → 0 ≤ n0 →
  ∀ st, dl = PerfectDealer st →
    w st = cell_width n0 ∧ num_cells st = ceil_div n0 (w st) ∧
    index <$> cells st ≡ₚ range (num_cells st) ∧
    Forall (λ c, base c = index c * w st ∧ 0 ≤ mask c ∧
                 ∀ b, b ∈ bits (mask c) → b < w st) (cells st).
Proof.
  intros Hreach Hn.
  induction Hreach as [rng dl Hr|fuel dl c dl' Hreach IH Hd]; intros st ->.
  - simpl in Hr. apply bind_Ret_inv in Hr as (st0 & Hr & [= ->]).
    unfold reset in Hr.
    pose proof (cell_width_pos n0) as Hw. set (w0 := cell_width n0) in *.
    set (C := ceil_div n0 w0) in *.
    pose proof (ceil_div_lt n0 w0 ltac:(lia)) as HC1. fold C in HC1.
    apply bind_Ret_inv in Hr as ([[ib isz] off] & _ & [= <-]).
    cbn [w num_cells cells].
    split; [done|]. split; [done|].
    pose proof (sort_by_pop_perm (build_cells n0 w0 C)) as Hperm.
    split; [by rewrite Hperm, index_build_cells|].
    rewrite Hperm. unfold build_cells. apply Forall_fmap, Forall_forall.
    intros j Hj. unfold range in Hj. apply elem_of_seqZ in Hj.
    unfold compose. cbn [base index mask].
    set (valid := Z.min w0 (n0 - j * w0)).
    assert (j * w0 ≤ (C - 1) * w0) as Hjw by nia.
    assert (1 ≤ valid ≤ w0) as Hvalid by (unfold valid; lia).
    split; [done|]. split.
    + rewrite Z.shiftl_1_l. pose proof (Z.pow_pos_nonneg 2 valid). lia.
    + intros b Hb. rewrite (bits_ones valid) in Hb by lia.
      unfold range in Hb. apply elem_of_seqZ in Hb. lia.
  - destruct (reachable_basic _ _ _ _ Hreach) as [_ Hb].
    destruct (Hb Hn) as (Hinv & _ & Hcls & _).
    destruct dl as [s|s|s|s]; try done. simpl in Hd.
    apply bind_Ret_inv in Hd as ([c' s'] & Hd & [= <- <-]).
    destruct (IH s eq_refl) as (Hw & Hnc & Hidx & Hall).
    destruct (Perfect_draw_cells s s' c' (inv_wf _ Hinv) Hd)
      as (cell & pos & rest & Hc & Hc' & Hpos & Hmask & _ & _ & Hw' & Hnc').
    rewrite Hw', Hnc'. split; [done|]. split; [done|].
    rewrite Hc in Hidx, Hall. rewrite Hc'.
    split; [by rewrite fmap_cons in *|].
    apply Forall_cons in Hall as [(Hbase & _ & Hbits) Hall].
    apply Forall_cons. split; [|done].
    destruct (bits_clear (mask cell) pos Hmask Hpos) as [Hm' Hperm].
    cbn [base index mask clear_bit]. split; [done|]. split; [done|].
    intros b Hbin. apply Hbits. rewrite Hperm. apply elem_of_cons. by right.
Qed.

End more_perfect.

Section perfect_representation.
Context `{RandomSource R}.

(** X14: the masks of the PerfectDealer are a bitmap of the undrawn ids.
    After reset on n >= 0 cards and k draws that returned the ids [ids]:
    w = max(1, ceil(log2(max(n, 2)))) and num_cells = ceil(n / w) are as
    reset chose them, with n <= num_cells * w < n + w (the num_cells
    masks of w bits exceed n bits by less than one cell); there is
    exactly one cell for each index 0 .. num_cells - 1,
    with base = index * w and a mask below 2^w; and an id c of 0 .. n-1
    is still undrawn exactly when bit c mod w is set in the mask of the
    cell of index c // w. *)
Theorem perfect_masks_record_the_undrawn_ids (n m_bits : Z) (rng : R)
    (k fuel : nat) (dl0 : dealer R) (st : Perfect.state R) (ids : list Z) :
  0 ≤ n → reset PerfectClass n rng m_bits = Ret dl0 →
  draw_many k fuel dl0 = Ret (ids, PerfectDealer st) →
  Perfect.w st = Perfect.cell_width n ∧
  Perfect.num_cells st = ceil_div n (Perfect.w st) ∧
  n ≤ Perfect.num_cells st * Perfect.w st < n + Perfect.w st ∧
  Perfect.index <$> Perfect.cells st ≡ₚ range (Perfect.num_cells st) ∧
  (∀ cell, cell ∈ Perfect.cells st →
           Perfect.base cell = Perfect.index cell * Perfect.w st ∧
           0 ≤ Perfect.mask cell < 2 ^ Perfect.w st) ∧
  (∀ c, 0 ≤ c < n →
        c ∉ ids ↔
        ∃ cell, cell ∈ Perfect.cells st ∧
                Perfect.index cell = c / Perfect.w st ∧
                Z.testbit (Perfect.mask cell) (c `mod` Perfect.w st) = true).
Proof.
  intros Hn Hr Hd.
  assert (reachable PerfectClass n m_bits (PerfectDealer st)) as Hreach.
  { eapply draw_many_reachable; [|exact Hd]. by eapply reachable_reset. }
  destruct (Perfect_reachable_shape _ _ _ Hreach Hn st eq_refl)
    as (Hw & Hnc & Hidx & Hall).
  pose proof (cell_width_pos n) as Hw1. rewrite <- Hw in Hw1.
  pose proof (ceil_div_lt n (Perfect.w st) ltac:(lia)) as HC1.
  pose proof (ceil_div_ge n (Perfect.w st) ltac:(lia)) as HC2.
  rewrite <- Hnc in HC1, HC2.
  destruct (drawn_and_live _ _ _ _ _ _ _ _ _ Hn Hr Hd) as (_ & Hperm & _).
  pose proof (λ c, live_iff_not_drawn _ _ _ c Hperm) as Hlive.
  rewrite Forall_forall in Hall.
  split; [done|]. split; [done|]. split; [lia|]. split; [done|]. split.
  - intros cell Hcell. destruct (Hall cell Hcell) as (Hbase & Hm0 & Hbits).
    split; [done|]. split; [done|].
    destruct (decide (Perfect.mask cell = 0)) as [->|Hne].
    { apply Z.pow_pos_nonneg; lia. }
    apply Z.log2_lt_pow2; [lia|]. apply Hbits.
    apply elem_of_bits; [done|]. split; [apply Z.log2_nonneg|].
    apply Z.bit_log2. lia.
  - intros c Hc.
    assert (c ∉ ids ↔ c ∈ Perfect.live st) as ->.
    { specialize (Hlive c). simpl in Hlive. rewrite Hlive. tauto. }
    unfold Perfect.live. rewrite elem_of_concat. split.
    + intros (l & Hcl & Hl).
      apply list_elem_of_fmap in Hl as (cell & -> & Hcell).
      destruct (Hall cell Hcell) as (Hbase & Hm0 & Hbits).
      unfold Perfect.cell_ids in Hcl.
      apply list_elem_of_fmap in Hcl as (b & -> & Hb).
      pose proof (Hbits b Hb) as Hbw.
      apply elem_of_bits in Hb as [Hb0 Hbt]; [|done].
      exists cell. split; [done|]. rewrite Hbase.
      rewrite (Z.add_comm _ b), Z.div_add, Z.mod_add by lia.
      rewrite Z.div_small, Z.mod_small by lia. split; [lia|done].
    + intros (cell & Hcell & Hi & Hbit).
      destruct (Hall cell Hcell) as (Hbase & Hm0 & Hbits).
      pose proof (Z.mod_pos_bound c (Perfect.w st) ltac:(lia)) as Hmod.
      exists (Perfect.cell_ids cell). split.
      * unfold Perfect.cell_ids. apply list_elem_of_fmap.
        exists (c `mod` Perfect.w st). split.
        -- rewrite Hbase, Hi.
           pose proof (Z.div_mod c (Perfect.w st) ltac:(lia)). lia.
        -- apply elem_of_bits; [done|]. split; [lia|done].
      * apply list_elem_of_fmap. by exists cell.
Qed.
End perfect_representation.

Lemma perfect_draw_clears_one_bit_witness :
  ∃ (st st' : Perfect.state Z) (c : Z),
    Perfect.reset 7 (3 : Z) = Ret st ∧ Perfect.draw st = Ret (c, st') ∧
    ∃ cell pos rest,
      Perfect.cells st ≡ₚ cell :: rest ∧
      Perfect.cells st' ≡ₚ Perfect.clear_bit cell pos :: rest ∧
      0 ≤ pos ∧ Z.testbit (Perfect.mask cell) pos = true ∧
      c = Perfect.base cell + pos ∧
      Perfect.index (Perfect.clear_bit cell pos) = Perfect.index cell ∧
      Perfect.base (Perfect.clear_bit cell pos) = Perfect.base cell ∧
      (∀ b, 0 ≤ b →
            Z.testbit (Perfect.mask (Perfect.clear_bit cell pos)) b
            = Z.testbit (Perfect.mask cell) b && negb (b =? pos)) ∧
      Perfect.n st' = Perfect.n st ∧ Perfect.w st' = Perfect.w st ∧
      Perfect.num_cells st' = Perfect.num_cells st.
Proof.
  eexists _, _, _. split; [vm_compute; reflexivity|].
  split; [vm_compute; reflexivity|].
  apply (perfect_draw_clears_one_bit 7 64).
  - apply (reachable_reset _ _ _ (3 : Z)). vm_compute. reflexivity.
  - vm_compute. reflexivity.
Defined.

Lemma perfect_masks_record_the_undrawn_ids_witness :
  ∃ (dl0 : dealer Z) (st : Perfect.state Z) (ids : list Z),
    reset PerfectClass 7 (3 : Z) 64 = Ret dl0 ∧
    draw_many 3 0 dl0 = Ret (ids, PerfectDealer st) ∧
    Perfect.w st = Perfect.cell_width 7 ∧
    Perfect.num_cells st = ceil_div 7 (Perfect.w st) ∧
    7 ≤ Perfect.num_cells st * Perfect.w st < 7 + Perfect.w st ∧
    Perfect.index <$> Perfect.cells st ≡ₚ range (Perfect.num_cells st) ∧
    (∀ cell, cell ∈ Perfect.cells st →
             Perfect.base cell = Perfect.index cell * Perfect.w st ∧
             0 ≤ Perfect.mask cell < 2 ^ Perfect.w st) ∧
    (∀ c, 0 ≤ c < 7 →
          c ∉ ids ↔
          ∃ cell, cell ∈ Perfect.cells st ∧
                  Perfect.index cell = c / Perfect.w st ∧
                  Z.testbit (Perfect.mask cell) (c `mod` Perfect.w st)
                  = true).
Proof.
  eexists _, _, _. split; [vm_compute; reflexivity|].
  split; [vm_compute; reflexivity|].
  eapply (perfect_masks_record_the_undrawn_ids 7 64 (3 : Z) 3 O);
    [lia|vm_compute; reflexivity|vm_compute; reflexivity].
Defined.

(** ** What the three other dealers store *)

Section representations.
Context `{RandomSource R}.

Lemma Bitmap_draw_loop_flags (fuel : nat) (st st' : Bitmap.state R) (rng : R)
    (c : Z) :
  Bitmap.wf st → 0 < Bitmap.n st →
  Bitmap.draw_loop fuel st rng = Ret (c, st') →
  0 ≤ c < Bitmap.n st ∧
  Bitmap.available st' = <[Z.to_nat c := 0]> (Bitmap.available st).
Proof.
  intros Hwf Hn. revert rng. induction fuel as [|fuel IH]; intros rng; [done|].
  destruct (Bitmap_draw_loop_unfold fuel st rng Hwf Hn) as [Hr ->].
  case_decide; [|apply IH]. by intros [= <- <-].
Qed.

Lemma Bitmap_reachable_flags (n0 mb : Z) (dl : dealer R) :
  reachable BitmapClass n0 mb dl → 0 ≤ n0 →
  ∀ st, dl = BitmapDealer st →
        Forall (λ a, a = 0 ∨ a = 1) (Bitmap.available st).
Proof.
  intros Hreach Hn.
  induction Hreach as [rng dl Hr|fuel dl c dl' Hreach IH Hd]; intros st ->.
  - injection Hr as <-. simpl. apply Forall_replicate. by right.
  - destruct (reachable_basic _ _ _ _ Hreach) as [_ Hb].
    destruct (Hb Hn) as (Hinv & _ & Hcls & _).
    destruct dl as [s|s|s|s]; try done. simpl in Hd.
    apply bind_Ret_inv in Hd as ([c' s'] & Hd & [= <- <-]).
    unfold Bitmap.draw in Hd. apply bind_Ret_inv in Hd as (u & Hu & Hd).
    apply check_exhausted_Ret in Hu.
    pose proof (inv_wf _ Hinv) as Hwf. simpl in Hwf.
    assert (0 < Bitmap.n s) as Hpos.
    { destruct fuel as [|fuel]; [done|]. cbn [Bitmap.draw_loop] in Hd.
      apply bind_Ret_inv in Hd as (x & Hx & _).
      apply uniform_int_Ret_inv in Hx. lia. }
    apply Bitmap_draw_loop_flags in Hd as [_ ->]; [|done|done].
    apply Forall_insert; [by apply IH|by left].
Qed.

(** X15: the bytearray of the BitmapDealer is the indicator of the
    undrawn ids.  After reset on n >= 0 cards and k draws that returned
    the ids [ids], _available has n entries, each 0 or 1, and
    _available[c] is 1 exactly for the ids c of 0 .. n-1 that were not
    drawn. *)
Theorem bitmap_flags_record_the_undrawn_ids (n m_bits : Z) (rng : R)
    (k fuel : nat) (dl0 : dealer R) (st : Bitmap.state R) (ids : list Z) :
  0 ≤ n → reset BitmapClass n rng m_bits = Ret dl0 →
  draw_many k fuel dl0 = Ret (ids, BitmapDealer st) →
  length (Bitmap.available st) = Z.to_nat n ∧
  ∀ c, 0 ≤ c < n →
       at_ (Bitmap.available st) c = if decide (c ∈ ids) then 0 else 1.
Proof.
  intros Hn Hr Hd.
  assert (reachable BitmapClass n m_bits (BitmapDealer st)) as Hreach.
  { eapply draw_many_reachable; [|exact Hd]. by eapply reachable_reset. }
  pose proof (Bitmap_reachable_flags _ _ _ Hreach Hn st eq_refl) as Hflags.
  destruct (drawn_and_live _ _ _ _ _ _ _ _ _ Hn Hr Hd)
    as (Hinv & Hperm & _ & Hdn & _).
  pose proof (λ c, live_iff_not_drawn _ _ _ c Hperm) as Hlive.
  pose proof (inv_wf _ Hinv) as Hwf. simpl in Hwf, Hdn, Hlive.
  unfold Bitmap.wf in Hwf. rewrite Hdn in Hwf. split; [done|].
  intros c Hc. specialize (Hlive c). rewrite Bitmap_live_elem in Hlive.
  assert (at_ (Bitmap.available st) c = 0 ∨ at_ (Bitmap.available st) c = 1)
    as Hval.
  { rewrite Forall_lookup in Hflags.
    apply (Hflags (Z.to_nat c)). apply lookup_at. lia. }
  case_decide as Hin.
  - destruct Hval as [?|Hone]; [done|]. exfalso.
    assert (0 ≤ c < n ∧ c ∉ ids) as [_ ?]; [|done].
    apply Hlive. split; lia.
  - destruct Hval as [Hzero|?]; [|done]. exfalso.
    assert (at_ (Bitmap.available st) c ≠ 0); [|done].
    apply Hlive. done.
Qed.

Lemma FisherYates_reachable_length (n0 mb : Z) (dl : dealer R) :
  reachable FisherYatesClass n0 mb dl → 0 ≤ n0 →
  ∀ st, dl = FisherYatesDealer st →
        length (FisherYates.array st) = Z.to_nat n0.
Proof.
  intros Hreach Hn.
  induction Hreach as [rng dl Hr|fuel dl c dl' Hreach IH Hd]; intros st ->.
  - injection Hr as <-. simpl. apply length_range.
  - destruct (reachable_basic _ _ _ _ Hreach) as [_ Hb].
    destruct (Hb Hn) as (Hinv & _ & Hcls & _).
    destruct dl as [s|s|s|s]; try done.
    pose proof (draw_Ret_not_exhausted _ _ _ Hd) as Hlt. simpl in Hd, Hlt.
    apply bind_Ret_inv in Hd as ([c' s'] & Hd & [= <- <-]).
    destruct (FisherYates_draw_eval s (inv_wf _ Hinv) Hlt) as [_ He].
    rewrite He in Hd. injection Hd as <- <-. simpl.
    rewrite length_insert. by apply IH.
Qed.

(** X16: the live prefix of the Fisher-Yates array.  After reset on
    n >= 0 cards and k draws that returned the ids [ids], the array still
    has n entries, _remaining is n - k, and the first _remaining entries
    are exactly the ids of 0 .. n-1 not drawn yet, each once (the entries
    behind them are leftovers that draw never reads again). *)
Theorem fisher_yates_prefix_holds_the_undrawn_ids (n m_bits : Z) (rng : R)
    (k fuel : nat) (dl0 : dealer R) (st : FisherYates.state R)
    (ids : list Z) :
  0 ≤ n → reset FisherYatesClass n rng m_bits = Ret dl0 →
  draw_many k fuel dl0 = Ret (ids, FisherYatesDealer st) →
  length (FisherYates.array st) = Z.to_nat n ∧
  FisherYates.remaining_ st = n - Z.of_nat k ∧
  NoDup (take (Z.to_nat (FisherYates.remaining_ st)) (FisherYates.array st)) ∧
  ∀ c, c ∈ take (Z.to_nat (FisherYates.remaining_ st)) (FisherYates.array st)
       ↔ 0 ≤ c < n ∧ c ∉ ids.
Proof.
  intros Hn Hr Hd.
  assert (reachable FisherYatesClass n m_bits (FisherYatesDealer st))
    as Hreach.
  { eapply draw_many_reachable; [|exact Hd]. by eapply reachable_reset. }
  destruct (drawn_and_live _ _ _ _ _ _ _ _ _ Hn Hr Hd)
    as (Hinv & Hperm & _ & Hdn & Hnd & _).
  pose proof (λ c, live_iff_not_drawn _ _ _ c Hperm) as Hlive.
  pose proof (inv_wf _ Hinv) as Hwf. pose proof (inv_nodup _ Hinv) as Hnodup.
  simpl in Hwf, Hdn, Hnd, Hlive, Hnodup.
  split; [by eapply FisherYates_reachable_length|].
  split; [rewrite (FisherYates.wf_rem _ Hwf); lia|]. done.
Qed.

Lemma Adaptive_draw_partition (fuel : nat) (st st' : Adaptive.state R)
    (c : Z) :
  Adaptive.wf st → Adaptive.draw fuel st = Ret (c, st') →
  Adaptive.d st' = Adaptive.d st ∧ Adaptive.sizes st' = Adaptive.sizes st ∧
  Adaptive.starts st' = Adaptive.starts st.
Proof.
  assert (∀ s s' : Adaptive.state R, Adaptive.draw_final s = Ret (c, s') →
            Adaptive.d s' = Adaptive.d s ∧
            Adaptive.sizes s' = Adaptive.sizes s ∧
            Adaptive.starts s' = Adaptive.starts s) as Hfinal.
  { intros s s'. unfold Adaptive.draw_final. case_decide; [done|]. intros Hd.
    apply bind_Ret_inv in Hd as ([i rng] & _ & Hd).
    repeat (apply bind_Ret_inv in Hd as (? & _ & Hd)).
    by injection Hd as <- <-. }
  intros Hwf Hd. unfold Adaptive.draw in Hd.
  apply bind_Ret_inv in Hd as (u & Hu & Hd).
  case_decide as Hph.
  - unfold Adaptive.draw_adaptive in Hd.
    change (Adaptive.n (Adaptive.tick st)) with (Adaptive.n st) in Hd.
    change (Adaptive.d (Adaptive.tick st)) with (Adaptive.d st) in Hd.
    change (Adaptive.t (Adaptive.tick st)) with (Adaptive.t st + 1) in Hd.
    change (Adaptive.np_random (Adaptive.tick st))
      with (Adaptive.np_random st) in Hd.
    case_decide as Ht'.
    + rewrite (Adaptive_transition_eval st Hwf) in Hd. simpl in Hd.
      by apply Hfinal in Hd.
    + rewrite (Adaptive_threshold_Ret st Hwf) in Hd. simpl in Hd.
      apply Adaptive_loop_fields in Hd
        as (i & _ & _ & _ & _ & _ & _ & Hd' & _ & _ & _ & Hsz & Hst);
        [|done].
      done.
  - by apply Hfinal in Hd.
Qed.

Lemma Adaptive_reachable_partition (n0 mb : Z) (dl : dealer R) :
  reachable AdaptiveClass n0 mb dl → 0 ≤ n0 →
  ∀ st, dl = AdaptiveThresholdDealer st →
    Adaptive.d st = Adaptive.choose_d n0 mb ∧
    Adaptive.sizes st
    = Adaptive.size_of (n0 / Adaptive.choose_d n0 mb)
                       (n0 `mod` Adaptive.choose_d n0 mb)
      <$> range (Adaptive.choose_d n0 mb) ∧
    Adaptive.starts st
    = Adaptive.start_of (n0 / Adaptive.choose_d n0 mb)
                        (n0 `mod` Adaptive.choose_d n0 mb)
      <$> range (Adaptive.choose_d n0 mb).
Proof.
  intros Hreach Hn.
  induction Hreach as [rng dl Hr|fuel dl c dl' Hreach IH Hd]; intros st ->.
  - injection Hr as <-. by rewrite Adaptive_reset_eq.
  - destruct (reachable_basic _ _ _ _ Hreach) as [_ Hb].
    destruct (Hb Hn) as (Hinv & _ & Hcls & _).
    destruct dl as [s|s|s|s]; try done. simpl in Hd.
    apply bind_Ret_inv in Hd as ([c' s'] & Hd & [= <- <-]).
    destruct (Adaptive_draw_partition _ _ _ _ (inv_wf _ Hinv) Hd)
      as (-> & -> & ->).
    by apply IH.
Qed.

(** X17: the mini-decks of the AdaptiveThresholdDealer are dealt from
    the top, in increasing id order, and the partition never changes.
    After reset on n >= 0 cards and k draws that returned the ids [ids]:
    d, sizes and starts are those reset computed (mini-deck i has
    n // d + [i < n mod d] cards and starts at i * (n // d) + min(i, n mod
    d)); in the adaptive phase an id c of 0 .. n-1 is still undrawn
    exactly when starts[i] + ell[i] <= c < starts[i] + sizes[i] for some
    mini-deck i, so mini-deck i has dealt exactly its first ell[i] ids;
    in the final phase the undrawn ids are the first _final_remaining
    entries of _final_cards. *)
Theorem adaptive_mini_decks_are_dealt_from_the_top (n m_bits : Z) (rng : R)
    (k fuel : nat) (dl0 : dealer R) (st : Adaptive.state R) (ids : list Z) :
  0 ≤ n → reset AdaptiveClass n rng m_bits = Ret dl0 →
  draw_many k fuel dl0 = Ret (ids, AdaptiveThresholdDealer st) →
  let d0 := Adaptive.choose_d n m_bits in
  Adaptive.d st = d0 ∧
  (∀ i, 0 ≤ i < d0 →
        at_ (Adaptive.sizes st) i
        = n / d0 + (if decide (i < n `mod` d0) then 1 else 0) ∧
        at_ (Adaptive.starts st) i = i * (n / d0) + Z.min i (n `mod` d0)) ∧
  (Adaptive.phase st = Adaptive.PhaseAdaptive →
   ∀ c, 0 ≤ c < n →
        c ∉ ids ↔
        ∃ i, 0 ≤ i < d0 ∧
             at_ (Adaptive.starts st) i + at_ (Adaptive.ell st) i ≤ c
             < at_ (Adaptive.starts st) i + at_ (Adaptive.sizes st) i) ∧
  (Adaptive.phase st = Adaptive.PhaseFinal →
   ∀ c, 0 ≤ c < n →
        c ∉ ids ↔
        c ∈ take (Z.to_nat (Adaptive.final_remaining st))
                 (Adaptive.final_cards st)).
Proof.
  intros Hn Hr Hd d0.
  assert (reachable AdaptiveClass n m_bits (AdaptiveThresholdDealer st))
    as Hreach.
  { eapply draw_many_reachable; [|exact Hd]. by eapply reachable_reset. }
  destruct (Adaptive_reachable_partition _ _ _ Hreach Hn st eq_refl)
    as (Hd0 & Hsizes & Hstarts). fold d0 in Hd0, Hsizes, Hstarts.
  destruct (drawn_and_live _ _ _ _ _ _ _ _ _ Hn Hr Hd) as (_ & Hperm & _).
  pose proof (λ c, live_iff_not_drawn _ _ _ c Hperm) as Hlive.
  simpl in Hlive. unfold Adaptive.live in Hlive.
  split; [done|]. split.
  { intros i Hi. rewrite Hsizes, Hstarts, !at_fmap_range by done. done. }
  split.
  - intros Hph c Hc. rewrite Hph in Hlive.
    assert (c ∉ ids ↔ c ∈ concat (Adaptive.slice st <$> range (Adaptive.d st)))
      as ->.
    { rewrite (Hlive c). tauto. }
    rewrite elem_of_concat. rewrite Hd0. split.
    + intros (l & Hcl & Hl). apply list_elem_of_fmap in Hl as (i & -> & Hi).
      unfold range in Hi. apply elem_of_seqZ in Hi.
      unfold Adaptive.slice, range2 in Hcl. apply elem_of_seqZ in Hcl.
      exists i. split; lia.
    + intros (i & Hi & Hci). exists (Adaptive.slice st i). split.
      * unfold Adaptive.slice, range2. apply elem_of_seqZ. lia.
      * apply list_elem_of_fmap. exists i. split; [done|].
        unfold range. apply elem_of_seqZ. lia.
  - intros Hph c Hc. rewrite Hph in Hlive. rewrite (Hlive c). tauto.
Qed.

(** X18: every draw of the adaptive phase takes the top card of one
    mini-deck.  From a state reached from reset that is in the adaptive
    phase, with t the number of cards drawn so far: if t + 1 <= n - 2d,
    a draw that returns id c has picked a mini-deck i that was not
    exhausted and had ell[i] below the threshold ceil((t+1)/d) + 1,
    c = starts[i] + ell[i] is its top card, and afterwards only ell[i]
    has changed, by one; otherwise the draw switches the dealer to its
    final phase and leaves every ell[i] as it was. *)
Theorem adaptive_draw_takes_a_mini_deck_top (n m_bits : Z)
    (st st' : Adaptive.state R) (fuel : nat) (c : Z) :
  reachable AdaptiveClass n m_bits (AdaptiveThresholdDealer st) →
  Adaptive.phase st = Adaptive.PhaseAdaptive →
  Adaptive.draw fuel st = Ret (c, st') →
  (Adaptive.t st + 1 ≤ Adaptive.n st - 2 * Adaptive.d st →
   ∃ i, 0 ≤ i < Adaptive.d st ∧
        at_ (Adaptive.ell st) i
          < ceil_div (Adaptive.t st + 1) (Adaptive.d st) + 1 ∧
        at_ (Adaptive.ell st) i < at_ (Adaptive.sizes st) i ∧
        c = at_ (Adaptive.starts st) i + at_ (Adaptive.ell st) i ∧
        Adaptive.ell st'
        = <[Z.to_nat i := at_ (Adaptive.ell st) i + 1]> (Adaptive.ell st) ∧
        Adaptive.phase st' = Adaptive.PhaseAdaptive ∧
        Adaptive.t st' = Adaptive.t st + 1) ∧
  (Adaptive.n st - 2 * Adaptive.d st < Adaptive.t st + 1 →
   Adaptive.phase st' = Adaptive.PhaseFinal ∧
   Adaptive.ell st' = Adaptive.ell st).
Proof.
  intros Hreach Hph Hd.
  assert (Adaptive.num_drawn st < Adaptive.n st) as Hlt.
  { unfold Adaptive.draw in Hd. apply bind_Ret_inv in Hd as (u & Hu & _).
    by apply check_exhausted_Ret in Hu. }
  destruct (reachable_inv _ _ _ _ Hreach Hlt) as (Hinv & _).
  pose proof (inv_wf _ Hinv) as Hwf. simpl in Hwf.
  unfold Adaptive.draw in Hd. rewrite check_exhausted_lt in Hd by done.
  cbn [mbind outcome_bind] in Hd. rewrite decide_True in Hd by done.
  unfold Adaptive.draw_adaptive in Hd.
  change (Adaptive.n (Adaptive.tick st)) with (Adaptive.n st) in Hd.
  change (Adaptive.d (Adaptive.tick st)) with (Adaptive.d st) in Hd.
  change (Adaptive.t (Adaptive.tick st)) with (Adaptive.t st + 1) in Hd.
  change (Adaptive.np_random (Adaptive.tick st))
    with (Adaptive.np_random st) in Hd.
  split.
  - intros Ht. rewrite decide_False in Hd by lia.
    rewrite (Adaptive_threshold_Ret st Hwf) in Hd. simpl in Hd.
    apply Adaptive_loop_fields in Hd
      as (i & Hi & Hthr & Hsz & Hc & Hell & _ & _ & Ht' & Hph' & _);
      [|done].
    exists i. split_and!; try done; try lia. congruence.
  - intros Ht. rewrite decide_True in Hd by lia.
    rewrite (Adaptive_transition_eval st Hwf) in Hd. simpl in Hd.
    apply Adaptive_draw_final_fields in Hd as (_ & _ & Hell & _ & Hph' & _).
    done.
Qed.
End representations.

Lemma bitmap_flags_record_the_undrawn_ids_witness :
  ∃ (dl0 : dealer Z) (st : Bitmap.state Z) (ids : list Z),
    reset BitmapClass 5 (2 : Z) 64 = Ret dl0 ∧
    draw_many 2 5 dl0 = Ret (ids, BitmapDealer st) ∧
    length (Bitmap.available st) = Z.to_nat 5 ∧
    ∀ c, 0 ≤ c < 5 →
         at_ (Bitmap.available st) c = if decide (c ∈ ids) then 0 else 1.
Proof.
  eexists _, _, _. split; [vm_compute; reflexivity|].
  split; [vm_compute; reflexivity|].
  eapply (bitmap_flags_record_the_undrawn_ids 5 64 (2 : Z) 2 5);
    [lia|vm_compute; reflexivity|vm_compute; reflexivity].
Defined.

Lemma fisher_yates_prefix_holds_the_undrawn_ids_witness :
  ∃ (dl0 : dealer Z) (st : FisherYates.state Z) (ids : list Z),
    reset FisherYatesClass 5 (2 : Z) 64 = Ret dl0 ∧
    draw_many 2 0 dl0 = Ret (ids, FisherYatesDealer st) ∧
    length (FisherYates.array st) = Z.to_nat 5 ∧
    FisherYates.remaining_ st = 5 - Z.of_nat 2 ∧
    NoDup (take (Z.to_nat (FisherYates.remaining_ st))
                (FisherYates.array st)) ∧
    ∀ c, c ∈ take (Z.to_nat (FisherYates.remaining_ st))
                  (FisherYates.array st)
         ↔ 0 ≤ c < 5 ∧ c ∉ ids.
Proof.
  eexists _, _, _. split; [vm_compute; reflexivity|].
  split; [vm_compute; reflexivity|].
  eapply (fisher_yates_prefix_holds_the_undrawn_ids 5 64 (2 : Z) 2 O);
    [lia|vm_compute; reflexivity|vm_compute; reflexivity].
Defined.

Lemma adaptive_mini_decks_are_dealt_from_the_top_witness :
  ∃ (dl0 : dealer Z) (st : Adaptive.state Z) (ids : list Z),
    reset AdaptiveClass 10 (0 : Z) 24 = Ret dl0 ∧
    draw_many 3 9 dl0 = Ret (ids, AdaptiveThresholdDealer st) ∧
    let d0 := Adaptive.choose_d 10 24 in
    Adaptive.d st = d0 ∧
    (∀ i, 0 ≤ i < d0 →
          at_ (Adaptive.sizes st) i
          = 10 / d0 + (if decide (i < 10 `mod` d0) then 1 else 0) ∧
          at_ (Adaptive.starts st) i = i * (10 / d0) + Z.min i (10 `mod` d0)) ∧
    (Adaptive.phase st = Adaptive.PhaseAdaptive →
     ∀ c, 0 ≤ c < 10 →
          c ∉ ids ↔
          ∃ i, 0 ≤ i < d0 ∧
               at_ (Adaptive.starts st) i + at_ (Adaptive.ell st) i ≤ c
               < at_ (Adaptive.starts st) i + at_ (Adaptive.sizes st) i) ∧
    (Adaptive.phase st = Adaptive.PhaseFinal →
     ∀ c, 0 ≤ c < 10 →
          c ∉ ids ↔
          c ∈ take (Z.to_nat (Adaptive.final_remaining st))
                   (Adaptive.final_cards st)).
Proof.
  eexists _, _, _. split; [vm_compute; reflexivity|].
  split; [vm_compute; reflexivity|].
  eapply (adaptive_mini_decks_are_dealt_from_the_top 10 24 (0 : Z) 3 9);
    [lia|vm_compute; reflexivity|vm_compute; reflexivity].
Defined.

Lemma adaptive_draw_takes_a_mini_deck_top_witness :
  ∃ (st' : Adaptive.state Z) (c : Z),
    let st := Adaptive.reset 10 (0 : Z) 24 in
    Adaptive.draw 5 st = Ret (c, st') ∧
    (Adaptive.t st + 1 ≤ Adaptive.n st - 2 * Adaptive.d st →
     ∃ i, 0 ≤ i < Adaptive.d st ∧
          at_ (Adaptive.ell st) i
            < ceil_div (Adaptive.t st + 1) (Adaptive.d st) + 1 ∧
          at_ (Adaptive.ell st) i < at_ (Adaptive.sizes st) i ∧
          c = at_ (Adaptive.starts st) i + at_ (Adaptive.ell st) i ∧
          Adaptive.ell st'
          = <[Z.to_nat i := at_ (Adaptive.ell st) i + 1]> (Adaptive.ell st) ∧
          Adaptive.phase st' = Adaptive.PhaseAdaptive ∧
          Adaptive.t st' = Adaptive.t st + 1) ∧
    (Adaptive.n st - 2 * Adaptive.d st < Adaptive.t st + 1 →
     Adaptive.phase st' = Adaptive.PhaseFinal ∧
     Adaptive.ell st' = Adaptive.ell st).
Proof.
  eexists _, _. intros st. split; [vm_compute; reflexivity|].
  apply (adaptive_draw_takes_a_mini_deck_top 10 24 st _ 5).
  - apply (reachable_reset _ _ _ (0 : Z)). reflexivity.
  - reflexivity.
  - vm_compute. reflexivity.
Defined.
